(** * A byte-level BPE tokenizer: shallow embedding of [bpe_tokenizer.py]

    The development follows the class [BPETokenizer]: the byte codec built by
    [_bytes_to_unicode], the trainer ([_get_stats], [_merge_vocab], [train]),
    the merge engine ([_tokenize_word]), the codec ([encode], [decode]) and
    the metric [calculate_compression_ratio]; then the method [get_stats]
    with the vocabulary check of [train_tokenizer] ([train_bpe.py]) and the
    loop of [evaluate_on_samples] ([evaluate_tokenizer.py]).

    Conventions.
    - A Python [str] is a list of code points ([N]); a one-character string
      and its code point are identified where the source iterates a string.
    - A Python [bytes] is a list of integers below 256 ([N]).
    - A Python [int] that may be negative (vocabulary size, token id,
      counter value) is a [Z]; a list position is a [nat].
    - A [dict] (and a [Counter]) is an insertion-ordered association list
      with unique keys: [max(pairs, key=pairs.get)] depends on that order.
    - An exception is a value of [error]; code that may raise returns a
      [result].
    - A Python [float] is a number of binary64 given by its mantissa and
      exponent; [int / int] is the quotient rounded to nearest, ties to
      even, as CPython computes it. *)

From Stdlib Require Import List Bool Arith NArith ZArith QArith Lia.
From Stdlib Require Import Qabs Qpower Qfield.
Import ListNotations.

Set Implicit Arguments.

(** ** Python equality on the types used as dictionary keys *)

Class PyEq (A : Type) := {
  py_eqb : A -> A -> bool;
  py_eqb_eq : forall x y, py_eqb x y = true <-> x = y
}.

Lemma py_eqb_refl {A} `{PyEq A} (x : A) : py_eqb x x = true.
Proof. apply py_eqb_eq; reflexivity. Qed.

Lemma py_eqb_neq {A} `{PyEq A} (x y : A) : py_eqb x y = false <-> x <> y.
Proof.
  split; intros E.
  - intros ->. rewrite py_eqb_refl in E. discriminate.
  - destruct (py_eqb x y) eqn:B; [apply py_eqb_eq in B; contradiction | reflexivity].
Qed.

Lemma py_eqb_sym {A} `{PyEq A} (x y : A) : py_eqb x y = py_eqb y x.
Proof.
  destruct (py_eqb x y) eqn:B.
  - apply py_eqb_eq in B. subst. symmetry. apply py_eqb_refl.
  - symmetry. apply py_eqb_neq. apply py_eqb_neq in B. congruence.
Qed.

#[export] Instance PyEq_N : PyEq N := {| py_eqb := N.eqb; py_eqb_eq := N.eqb_eq |}.
#[export] Instance PyEq_Z : PyEq Z := {| py_eqb := Z.eqb; py_eqb_eq := Z.eqb_eq |}.

Fixpoint list_eqb {A} (e : A -> A -> bool) (l1 l2 : list A) : bool :=
  match l1, l2 with
  | [], [] => true
  | x :: r1, y :: r2 => e x y && list_eqb e r1 r2
  | _, _ => false
  end.

Lemma list_eqb_eq {A} `{PyEq A} (l1 l2 : list A) :
  list_eqb py_eqb l1 l2 = true <-> l1 = l2.
Proof.
  revert l2; induction l1 as [|x r1 IH]; intros [|y r2]; simpl;
    try (split; [discriminate | discriminate]); try tauto.
  rewrite andb_true_iff, py_eqb_eq, IH.
  split; [intros [-> ->]; reflexivity | intros E; inversion E; auto].
Qed.

#[export] Instance PyEq_list {A} `{PyEq A} : PyEq (list A) :=
  {| py_eqb := list_eqb py_eqb; py_eqb_eq := list_eqb_eq |}.

Definition pair_eqb {A B} `{PyEq A} `{PyEq B} (p q : A * B) : bool :=
  py_eqb (fst p) (fst q) && py_eqb (snd p) (snd q).

Lemma pair_eqb_eq {A B} `{PyEq A} `{PyEq B} (p q : A * B) :
  pair_eqb p q = true <-> p = q.
Proof.
  destruct p as [a b], q as [c d]; unfold pair_eqb; simpl.
  rewrite andb_true_iff, !py_eqb_eq.
  split; [intros [-> ->]; reflexivity | intros E; inversion E; auto].
Qed.

#[export] Instance PyEq_prod {A B} `{PyEq A} `{PyEq B} : PyEq (A * B) :=
  {| py_eqb := pair_eqb; py_eqb_eq := pair_eqb_eq |}.

(** ** Exceptions *)

Inductive error : Type :=
| UnicodeEncodeError   (* [str.encode('utf-8')] on a lone surrogate *)
| KeyError             (* [d[k]] on a missing key *)
| OutOfFuel.           (* the model's loop bound was too small *)

Inductive result (A : Type) : Type :=
| Ok (a : A)
| Raise (e : error).
Arguments Ok {A} a.
Arguments Raise {A} e.

Definition bind {A B} (r : result A) (k : A -> result B) : result B :=
  match r with
  | Ok a => k a
  | Raise e => Raise e
  end.

Notation "x <- r ;; k" := (bind r (fun x => k))
  (at level 61, r at next level, right associativity).

Fixpoint mapM {A B} (f : A -> result B) (l : list A) : result (list B) :=
  match l with
  | [] => Ok []
  | x :: r => y <- f x ;; ys <- mapM f r ;; Ok (y :: ys)
  end.

Definition of_option {A} (e : error) (o : option A) : result A :=
  match o with
  | Some a => Ok a
  | None => Raise e
  end.

(** ** Insertion-ordered dictionaries *)

Definition dict (K V : Type) : Type := list (K * V).

Module PyDict.
Section Dict.
Context {K V : Type} `{PyEq K}.

(** [d.get(k)] / [k in d] / [d[k]] *)
Fixpoint get (d : dict K V) (k : K) : option V :=
  match d with
  | [] => None
  | (k', v) :: r => if py_eqb k k' then Some v else get r k
  end.

Definition mem (d : dict K V) (k : K) : bool :=
  match get d k with Some _ => true | None => false end.

(** [d[k] = v]: an existing key keeps its position, a new key goes last. *)
Fixpoint set (d : dict K V) (k : K) (v : V) : dict K V :=
  match d with
  | [] => [(k, v)]
  | (k', v') :: r => if py_eqb k k' then (k', v) :: r else (k', v') :: set r k v
  end.

(** [dict(items)] *)
Definition of_list (items : list (K * V)) : dict K V :=
  fold_left (fun d kv => set d (fst kv) (snd kv)) items [].

Definition keys (d : dict K V) : list K := map fst d.

End Dict.
End PyDict.


(** ** Strings, UTF-8 and the regular expression of the segmenter *)

Definition str : Type := list N.

(** U+FFFD, what [errors='replace'] puts for an undecodable span. *)
Definition REPLACEMENT_CHARACTER : N := 0xFFFD.

Definition is_surrogate (c : N) : bool := (0xD800 <=? c)%N && (c <=? 0xDFFF)%N.

(** [chr(c).encode('utf-8')].  A lone surrogate raises; a number above
    U+10FFFF is no character of a Python string and is refused as well. *)
Definition utf8_encode_char (c : N) : result (list N) :=
  if (c <? 0x80)%N then Ok [c]
  else if (c <? 0x800)%N then
    Ok [N.lor 0xC0 (N.shiftr c 6); N.lor 0x80 (N.land c 0x3F)]
  else if (c <? 0x10000)%N then
    if is_surrogate c then Raise UnicodeEncodeError
    else Ok [N.lor 0xE0 (N.shiftr c 12);
             N.lor 0x80 (N.land (N.shiftr c 6) 0x3F);
             N.lor 0x80 (N.land c 0x3F)]
  else if (c <? 0x110000)%N then
    Ok [N.lor 0xF0 (N.shiftr c 18);
        N.lor 0x80 (N.land (N.shiftr c 12) 0x3F);
        N.lor 0x80 (N.land (N.shiftr c 6) 0x3F);
        N.lor 0x80 (N.land c 0x3F)]
  else Raise UnicodeEncodeError.

(** [text.encode('utf-8')] *)
Definition utf8_encode (text : str) : result (list N) :=
  chunks <- mapM utf8_encode_char text ;; Ok (concat chunks).

Definition is_continuation (b : N) : bool := (0x80 <=? b)%N && (b <=? 0xBF)%N.

(** One step of [bytes.decode('utf-8', errors='replace')] at lead byte [b1]
    followed by [rest]: the character produced and the number of bytes it
    stands for.  An ill-formed or truncated sequence yields one U+FFFD for
    its maximal well-formed prefix, as CPython's decoder does. *)
Definition utf8_decode_one (b1 : N) (rest : list N) : N * nat :=
  let bad (n : nat) := (REPLACEMENT_CHARACTER, n) in
  let low (b : N) := N.land b 0x3F in
  if (b1 <? 0x80)%N then (b1, 1%nat)
  else if (b1 <? 0xC2)%N then bad 1%nat
  else if (b1 <? 0xE0)%N then
    match rest with
    | b2 :: _ =>
        if is_continuation b2
        then (N.lor (N.shiftl (N.land b1 0x1F) 6) (low b2), 2%nat)
        else bad 1%nat
    | [] => bad 1%nat
    end
  else if (b1 <? 0xF0)%N then
    match rest with
    | [] => bad 1%nat
    | b2 :: rest2 =>
        if negb (is_continuation b2)
           || (if (b2 <? 0xA0)%N then (b1 =? 0xE0)%N else (b1 =? 0xED)%N)
        then bad 1%nat
        else match rest2 with
             | [] => bad 2%nat
             | b3 :: _ =>
                 if is_continuation b3
                 then (N.lor (N.shiftl (N.land b1 0x0F) 12)
                         (N.lor (N.shiftl (low b2) 6) (low b3)), 3%nat)
                 else bad 2%nat
             end
    end
  else if (b1 <? 0xF5)%N then
    match rest with
    | [] => bad 1%nat
    | b2 :: rest2 =>
        if negb (is_continuation b2)
           || (if (b2 <? 0x90)%N then (b1 =? 0xF0)%N else (b1 =? 0xF4)%N)
        then bad 1%nat
        else match rest2 with
             | [] => bad 2%nat
             | b3 :: rest3 =>
                 if negb (is_continuation b3) then bad 2%nat
                 else match rest3 with
                      | [] => bad 3%nat
                      | b4 :: _ =>
                          if is_continuation b4
                          then (N.lor (N.shiftl (N.land b1 0x07) 18)
                                  (N.lor (N.shiftl (low b2) 12)
                                     (N.lor (N.shiftl (low b3) 6) (low b4))),
                                4%nat)
                          else bad 3%nat
                      end
             end
    end
  else bad 1%nat.

(** The decoder proper; [skip] counts the bytes of the current sequence
    that are still to be passed over. *)
Fixpoint utf8_decode_from (skip : nat) (bs : list N) : str :=
  match bs with
  | [] => []
  | b :: rest =>
      match skip with
      | S k => utf8_decode_from k rest
      | O => let (c, n) := utf8_decode_one b rest in
             c :: utf8_decode_from (n - 1) rest
      end
  end.

(** [bs.decode('utf-8', errors='replace')] *)
Definition utf8_decode (bs : list N) : str := utf8_decode_from 0 bs.

(** The characters [\s] matches in a [str] pattern (those of
    [str.isspace]). *)
Definition is_space (c : N) : bool :=
  ((0x09 <=? c) && (c <=? 0x0D) || (0x1C <=? c) && (c <=? 0x20)
   || (c =? 0x85) || (c =? 0xA0) || (c =? 0x1680)
   || (0x2000 <=? c) && (c <=? 0x200A)
   || (c =? 0x2028) || (c =? 0x2029) || (c =? 0x202F) || (c =? 0x205F)
   || (c =? 0x3000))%N.

(** [re.findall(r'\S+|\s+', s)]: the maximal runs of characters of one
    class, in order. *)
Fixpoint findall_runs (s : str) : list str :=
  match s with
  | [] => []
  | c :: rest =>
      match findall_runs rest with
      | (d :: run) :: runs =>
          if Bool.eqb (is_space c) (is_space d)
          then (c :: d :: run) :: runs
          else [c] :: (d :: run) :: runs
      | _ => [[c]]
      end
  end.

Fixpoint starts_with (p s : str) : bool :=
  match p, s with
  | [], _ => true
  | a :: p', b :: s' => (a =? b)%N && starts_with p' s'
  | _ :: _, [] => false
  end.

(** [s.replace(old, new)] for a non-empty [old]: the occurrences are taken
    from the left and do not overlap. *)
Fixpoint replace_from (skip : nat) (old new s : str) : str :=
  match s with
  | [] => []
  | c :: rest =>
      match skip with
      | S k => replace_from k old new rest
      | O => if starts_with old s
             then new ++ replace_from (length old - 1) old new rest
             else c :: replace_from 0 old new rest
      end
  end.

Definition str_replace (old new s : str) : str := replace_from 0 old new s.

(** ** ByteCodec: [_bytes_to_unicode] and its inverse *)

(** [range(a, b)] *)
Definition range (a b : N) : list N :=
  map N.of_nat (seq (N.to_nat a) (N.to_nat b - N.to_nat a)).

(** [b in bs] on a list *)
Definition list_mem {A} `{PyEq A} (x : A) (l : list A) : bool :=
  existsb (py_eqb x) l.

(** The loop [for b in range(2**8)] of [_bytes_to_unicode]: state [(bs, cs, n)]. *)
Definition bytes_to_unicode_step (st : list N * list N * N) (b : N)
  : list N * list N * N :=
  let '(bs, cs, n) := st in
  if list_mem b bs then st else (bs ++ [b], cs ++ [2 ^ 8 + n], n + 1)%N.

(** [_bytes_to_unicode]: ['!'..'~'], ['¡'..'¬'] and ['®'..'ÿ'] stand for
    themselves, the other bytes get the code points from 256 on. *)
Definition bytes_to_unicode : dict N N :=
  let bs0 := range 33 (126 + 1) ++ range 161 (172 + 1) ++ range 174 (255 + 1) in
  let '(bs, cs, _) := fold_left bytes_to_unicode_step (range 0 (2 ^ 8)) (bs0, bs0, 0%N) in
  PyDict.of_list (combine bs cs).

Definition byte_encoder : dict N N := bytes_to_unicode.

(** [{v: k for k, v in self.byte_encoder.items()}] *)
Definition invert {K V} `{PyEq V} (d : dict K V) : dict V K :=
  fold_left (fun acc kv => PyDict.set acc (snd kv) (fst kv)) d [].

Definition byte_decoder : dict N N := invert byte_encoder.


(** [''.join(self.byte_encoder[b] for b in text_bytes)] *)
Definition encode_bytes (text_bytes : list N) : result str :=
  mapM (fun b => of_option KeyError (PyDict.get byte_encoder b)) text_bytes.

(** [[self.byte_decoder[c] for c in text_unicode]] *)
Definition decode_bytes (text_unicode : str) : result (list N) :=
  mapM (fun c => of_option KeyError (PyDict.get byte_decoder c)) text_unicode.

(** ** Symbols, words and the merge pass *)

Definition token : Type := str.
Definition word : Type := list token.
Definition merge_pair : Type := (token * token)%type.

(** The end-of-word marker ['</w>']. *)
Definition END_OF_WORD : token := [60; 47; 119; 62]%N.

(** [tuple(list(word) + ['</w>'])] *)
Definition word_tuple (w : str) : word := map (fun c => [c]) w ++ [END_OF_WORD].

(** [[(word[i], word[i+1]) for i in range(len(word)-1)]] *)
Definition adjacent_pairs (w : word) : list merge_pair := combine w (tl w).

(** The inner [while i < len(word)] loop, the same in [_merge_vocab] and in
    [_tokenize_word]: one pass from the left that joins each occurrence of
    [pair] and steps over it. *)
Fixpoint merge_word (pair : merge_pair) (w : word) : word :=
  match w with
  | [] => []
  | a :: rest =>
      match rest with
      | b :: rest' =>
          if py_eqb a (fst pair) && py_eqb b (snd pair)
          then (fst pair ++ snd pair) :: merge_word pair rest'
          else a :: merge_word pair rest
      | [] => [a]
      end
  end.

(** ** Trainer *)

(** [c[k] += n] on a [Counter] *)
Definition counter_add {K} `{PyEq K} (c : dict K Z) (k : K) (n : Z) : dict K Z :=
  PyDict.set c k ((match PyDict.get c k with Some v => v | None => 0 end) + n)%Z.

(** [_get_stats] *)
Definition get_stats (word_freqs : dict word Z) : dict merge_pair Z :=
  fold_left
    (fun pairs wf =>
       fold_left (fun pairs p => counter_add pairs p (snd wf))
                 (adjacent_pairs (fst wf)) pairs)
    word_freqs [].

(** [_merge_vocab] *)
Definition merge_vocab (pair : merge_pair) (word_freqs : dict word Z) : dict word Z :=
  fold_left (fun new_word_freqs wf =>
               PyDict.set new_word_freqs (merge_word pair (fst wf)) (snd wf))
            word_freqs [].

(** [max(pairs, key=pairs.get)] on a non-empty counter [first :: others]:
    the first key, in insertion order, whose count is the largest. *)
Definition max_by_count {K} (first : K * Z) (others : list (K * Z)) : K * Z :=
  fold_left (fun best kv => if (snd best <? snd kv)%Z then kv else best) others first.

(** Python's order on strings: lexicographic on code points. *)
Fixpoint str_compare (a b : str) : comparison :=
  match a, b with
  | [], [] => Eq
  | [], _ :: _ => Lt
  | _ :: _, [] => Gt
  | x :: a', y :: b' =>
      match (x ?= y)%N with
      | Eq => str_compare a' b'
      | c => c
      end
  end.

Fixpoint insert_sorted (x : token) (l : list token) : list token :=
  match l with
  | [] => [x]
  | y :: r =>
      match str_compare x y with
      | Lt => x :: l
      | Eq => l
      | Gt => y :: insert_sorted x r
      end
  end.

(** [sorted(set(symbols))] *)
Definition sorted_set (symbols : list token) : list token :=
  fold_left (fun acc x => insert_sorted x acc) symbols [].

(** The word counter of [train]'s first loop. *)
Fixpoint count_words (texts : list str) (word_freqs : dict word Z)
  : result (dict word Z) :=
  match texts with
  | [] => Ok word_freqs
  | text :: more =>
      text_bytes <- utf8_encode text ;;
      text_unicode <- encode_bytes text_bytes ;;
      count_words more
        (fold_left (fun wf w => counter_add wf (word_tuple w) 1%Z)
                   (findall_runs text_unicode) word_freqs)
  end.

(** [{token: idx for idx, token in enumerate(sorted(vocab))}] where [vocab]
    is the set of the symbols of all words. *)
Definition base_vocab (word_freqs : dict word Z) : dict token Z :=
  let symbols := sorted_set (concat (PyDict.keys word_freqs)) in
  PyDict.of_list (combine symbols (map Z.of_nat (seq 0 (length symbols)))).

Record tokenizer : Type := {
  vocab_size : Z;
  vocab : dict token Z;
  merges : list merge_pair
}.

(** [len(d)] *)
Definition len {A} (l : list A) : Z := Z.of_nat (length l).

(** One round of the merge loop on [(word_freqs, vocab, merges)]; [None] is
    the [break].  The count [pairs[best_pair]] of the chosen pair is
    returned with the new state. *)
Definition train_step (st : dict word Z * dict token Z * list merge_pair)
  : option (merge_pair * Z * (dict word Z * dict token Z * list merge_pair)) :=
  let '(word_freqs, vocab, merges) := st in
  match get_stats word_freqs with
  | [] => None
  | first :: others =>
      let (best_pair, freq) := max_by_count first others in
      let word_freqs' := merge_vocab best_pair word_freqs in
      let new_token := fst best_pair ++ snd best_pair in
      let merges' := merges ++ [best_pair] in
      let vocab' := if PyDict.mem vocab new_token then vocab
                    else PyDict.set vocab new_token (len vocab) in
      Some (best_pair, freq, (word_freqs', vocab', merges'))
  end.

(** [for i in range(num_merges)] *)
Fixpoint train_loop (num_merges : nat)
    (st : dict word Z * dict token Z * list merge_pair)
  : dict word Z * dict token Z * list merge_pair :=
  match num_merges with
  | O => st
  | S n =>
      match train_step st with
      | None => st
      | Some (_, _, st') => train_loop n st'
      end
  end.

(** The pairs chosen by the rounds of [train_loop], each with its count at
    the time it was chosen. *)
Fixpoint train_log (num_merges : nat)
    (st : dict word Z * dict token Z * list merge_pair)
  : list (merge_pair * Z) :=
  match num_merges with
  | O => []
  | S n =>
      match train_step st with
      | None => []
      | Some (p, f, st') => (p, f) :: train_log n st'
      end
  end.

(** [BPETokenizer(vocab_size).train(texts)] on a fresh tokenizer. *)
Definition train (target : Z) (texts : list str) : result tokenizer :=
  word_freqs <- count_words texts [] ;;
  let vocab0 := base_vocab word_freqs in
  let num_merges := (target - len vocab0)%Z in
  let '(_, vocab1, merges1) :=
    train_loop (Z.to_nat num_merges) (word_freqs, vocab0, []) in
  Ok {| vocab_size := target; vocab := vocab1; merges := merges1 |}.

(** ** MergeEngine: [_tokenize_word] *)

(** [l.index(x)], [None] where Python raises [ValueError]; it is [Some]
    exactly when [x in l]. *)
Fixpoint index_of {A} `{PyEq A} (x : A) (l : list A) : option nat :=
  match l with
  | [] => None
  | y :: r => if py_eqb x y then Some O
              else match index_of x r with
                   | Some i => Some (S i)
                   | None => None
                   end
  end.

(** The body of [for pair in pairs]: the state is [(min_merge_idx,
    best_pair)], [None] standing for [(inf, None)]. *)
Definition best_step (merges : list merge_pair)
    (acc : option (nat * merge_pair)) (pair : merge_pair)
  : option (nat * merge_pair) :=
  if list_mem pair merges then
    match index_of pair merges with
    | Some merge_idx =>
        match acc with
        | None => Some (merge_idx, pair)
        | Some (min_merge_idx, _) =>
            if (merge_idx <? min_merge_idx)%nat then Some (merge_idx, pair) else acc
        end
    | None => acc
    end
  else acc.

Definition find_best (merges : list merge_pair) (pairs : list merge_pair)
  : option (nat * merge_pair) :=
  fold_left (best_step merges) pairs None.

(** The loop [while len(word) > 1]; the second component counts the rounds
    in which a merge was applied. *)
Fixpoint merge_loop (fuel : nat) (merges : list merge_pair) (w : word)
  : result (word * nat) :=
  match fuel with
  | O => Raise OutOfFuel
  | S fuel' =>
      if (length w <=? 1)%nat then Ok (w, O)
      else match find_best merges (adjacent_pairs w) with
           | None => Ok (w, O)
           | Some (_, best_pair) =>
               r <- merge_loop fuel' merges (merge_word best_pair w) ;;
               Ok (fst r, S (snd r))
           end
  end.

Definition tokenize_word (merges : list merge_pair) (w : str) : result (list token) :=
  let w0 := word_tuple w in
  r <- merge_loop (length w0) merges w0 ;; Ok (fst r).

(** ** Codec: [encode] and [decode] *)

(** The body of [for token in tokens] in [encode]. *)
Definition token_ids (vocab : dict token Z) (tok : token) : list Z :=
  match PyDict.get vocab tok with
  | Some i => [i]
  | None =>
      flat_map (fun char => match PyDict.get vocab [char] with
                            | Some i => [i]
                            | None => []
                            end) tok
  end.

Fixpoint encode_words (tk : tokenizer) (words : list str) : result (list Z) :=
  match words with
  | [] => Ok []
  | w :: more =>
      tokens <- tokenize_word (merges tk) w ;;
      ids <- encode_words tk more ;;
      Ok (flat_map (token_ids (vocab tk)) tokens ++ ids)
  end.

Definition encode (tk : tokenizer) (text : str) : result (list Z) :=
  text_bytes <- utf8_encode text ;;
  text_unicode <- encode_bytes text_bytes ;;
  encode_words tk (findall_runs text_unicode).

(** [{idx: token for token, idx in self.vocab.items()}] *)
Definition id_to_token (tk : tokenizer) : dict Z token := invert (vocab tk).

(** [''.join(tokens).replace('</w>', '')] with
    [tokens = [id_to_token[tid] for tid in token_ids if tid in id_to_token]] *)
Definition decode_symbols (tk : tokenizer) (ids : list Z) : str :=
  let tokens := flat_map (fun tid => match PyDict.get (id_to_token tk) tid with
                                     | Some t => [t]
                                     | None => []
                                     end) ids in
  str_replace END_OF_WORD [] (concat tokens).

(** [decode]: the bare [except] turns every failure of the byte inversion
    into the fallback [text = text_unicode]. *)
Definition decode (tk : tokenizer) (ids : list Z) : str :=
  let text_unicode := decode_symbols tk ids in
  match decode_bytes text_unicode with
  | Ok text_bytes => utf8_decode text_bytes
  | Raise _ => text_unicode
  end.

(** ** Floats: the division [int / int] *)

(** A finite number of binary64, [mantissa * 2 ^ exponent].  The results of
    [/] have a mantissa of 53 binary digits, or are [0.0]. *)
Record float : Type := { mantissa : Z; exponent : Z }.

(** [0.0] *)
Definition float_zero : float := {| mantissa := 0; exponent := 0 |}.

(** The rational number a float stands for. *)
Definition float_value (f : float) : Q := inject_Z (mantissa f) * (2 ^ exponent f)%Q.

(** [num / den] rounded to the nearest integer, a tie to the even one. *)
Definition div_nearest_even (num den : Z) : Z :=
  let q := (num / den)%Z in
  let r := (num mod den)%Z in
  if (2 * r <? den)%Z then q
  else if (den <? 2 * r)%Z then (q + 1)%Z
  else if Z.even q then q else (q + 1)%Z.

(** [a / b] on two ints, for [b <> 0] (Python raises [ZeroDivisionError] on
    [b == 0]; the code below checks the divisor where the source does, and
    raises where the source divides unchecked).  True division of ints is
    correctly rounded: the exact quotient is scaled by a power of two into
    the range from [2 ^ 52] to [2 ^ 53], rounded to the nearest integer, ties
    to even, and a mantissa that rounds up to [2 ^ 53] is renormalised.
    The exponent is not bounded here: the ints divided in this program are
    lengths and sums of lengths, far inside the range where binary64
    neither overflows nor loses digits (lemma [int_truediv_exponent]). *)
Definition int_truediv (a b : Z) : float :=
  if ((a =? 0) || (b =? 0))%Z then float_zero
  else
    let A := Z.abs a in
    let B := Z.abs b in
    let k := Z.max 0 (53 + Z.log2 B - Z.log2 A) in
    let num := (A * 2 ^ k)%Z in
    let d := (Z.log2 (num / B) - 52)%Z in
    let m := div_nearest_even num (B * 2 ^ d) in
    let sign := (Z.sgn a * Z.sgn b)%Z in
    if (m =? 2 ^ 53)%Z
    then {| mantissa := sign * 2 ^ 52; exponent := d - k + 1 |}
    else {| mantissa := sign * m; exponent := d - k |}.

(** A number binary64 has (its exponent range left aside): [m * 2 ^ e]
    with a mantissa of at most 53 binary digits. *)
Definition binary53 (x : Q) : Prop :=
  exists m e : Z, (Z.abs m < 2 ^ 53)%Z /\ x == inject_Z m * 2 ^ e.

(** [q] rounded to binary64, to nearest and ties to even: [f] has a
    mantissa of exactly 53 binary digits, no number of binary64 is nearer
    to [q], and where another one is as near the mantissa of [f] is even. *)
Definition rounds_to_nearest_even (q : Q) (f : float) : Prop :=
  (2 ^ 52 <= mantissa f < 2 ^ 53)%Z
  /\ (forall g, binary53 g -> Qabs (float_value f - q) <= Qabs (g - q))
  /\ (forall g, binary53 g -> ~ g == float_value f ->
                Qabs (g - q) == Qabs (float_value f - q) ->
                Z.even (mantissa f) = true).

(** ** Metrics: [calculate_compression_ratio] *)

(** [sum(f(x) for x in xs)] where [f] may raise. *)
Fixpoint sum_of {A} (f : A -> result Z) (xs : list A) : result Z :=
  match xs with
  | [] => Ok 0%Z
  | x :: more => n <- f x ;; s <- sum_of f more ;; Ok (n + s)%Z
  end.

(** [calculate_compression_ratio]: [0.0] when there is no token, else the
    float [total_bytes / total_tokens]. *)
Definition calculate_compression_ratio (tk : tokenizer) (texts : list str)
  : result float :=
  total_bytes <- sum_of (fun text => bs <- utf8_encode text ;; Ok (len bs)) texts ;;
  total_tokens <- sum_of (fun text => ids <- encode tk text ;; Ok (len ids)) texts ;;
  if (total_tokens =? 0)%Z then Ok float_zero
  else Ok (int_truediv total_bytes total_tokens).

(** ** Statistics: the method [get_stats] and the check of [train_tokenizer] *)

Record stats : Type := {
  stats_vocab_size : Z;
  stats_num_merges : Z;
  stats_target_vocab_size : Z
}.

(** [BPETokenizer.get_stats] (the method, not [_get_stats]) *)
Definition tokenizer_get_stats (tk : tokenizer) : stats :=
  {| stats_vocab_size := len (vocab tk);
     stats_num_merges := len (merges tk);
     stats_target_vocab_size := vocab_size tk |}.

(** [vocab_ok = stats['vocab_size'] < 5000] in [train_tokenizer] *)
Definition vocab_ok (s : stats) : bool := (stats_vocab_size s <? 5000)%Z.

(** ** Training again: [train] on a tokenizer that has merges already *)

(** [tk.train(texts)]: the vocabulary is built anew, the pairs are appended
    to [self.merges] as it is. *)
Definition train_again (tk : tokenizer) (texts : list str) : result tokenizer :=
  word_freqs <- count_words texts [] ;;
  let vocab0 := base_vocab word_freqs in
  let num_merges := (vocab_size tk - len vocab0)%Z in
  let '(_, vocab1, merges1) :=
    train_loop (Z.to_nat num_merges) (word_freqs, vocab0, merges tk) in
  Ok {| vocab_size := vocab_size tk; vocab := vocab1; merges := merges1 |}.

(** ** Evaluation: [evaluate_on_samples] *)

(** What the loop of [evaluate_on_samples] raises: an error of the
    tokenizer, or that of the division. *)
Inductive eval_error : Type :=
| TokenizerError (e : error)
| ZeroDivisionError.

(** The values shown for one text. *)
Record sample_report : Type := {
  original_bytes : Z;
  sample_token_ids : list Z;
  decoded_text : str;
  decoding_match : bool;
  compression : float
}.

(** The body of [for i, text in enumerate(texts[:5], 1)]. *)
Definition evaluate_sample (tk : tokenizer) (text : str) : sample_report + eval_error :=
  match utf8_encode text with
  | Raise e => inr (TokenizerError e)
  | Ok text_bytes =>
      match encode tk text with
      | Raise e => inr (TokenizerError e)
      | Ok ids =>
          let decoded := decode tk ids in
          let is_match := py_eqb decoded text in
          if (len ids =? 0)%Z then inr ZeroDivisionError
          else inl {| original_bytes := len text_bytes;
                      sample_token_ids := ids;
                      decoded_text := decoded;
                      decoding_match := is_match;
                      compression := int_truediv (len text_bytes) (len ids) |}
      end
  end.

Fixpoint evaluate_samples (tk : tokenizer) (texts : list str)
  : list sample_report + eval_error :=
  match texts with
  | [] => inl []
  | text :: more =>
      match evaluate_sample tk text with
      | inr e => inr e
      | inl r => match evaluate_samples tk more with
                 | inr e => inr e
                 | inl rs => inl (r :: rs)
                 end
      end
  end.

(** [evaluate_on_samples]: the reports of [texts[:5]], or the first error. *)
Definition evaluate_on_samples (tk : tokenizer) (texts : list str)
  : list sample_report + eval_error :=
  evaluate_samples tk (firstn 5 texts).

(** A Python number: an [int] or a [float]. *)
Inductive number : Type :=
| Int (z : Z)
| Float (f : float).

(** [bytes_count / len(tokens) if len(tokens) > 0 else 0], the quotient of
    [compare_with_different_texts]: a float, or the int [0]. *)
Definition guarded_compression (bytes_count : Z) (tokens : list Z) : number :=
  if (0 <? len tokens)%Z then Float (int_truediv bytes_count (len tokens)) else Int 0.

(** ** Sanity checks on concrete inputs *)

Definition s_a : N := 97.
Definition s_b : N := 98.

Example ex_codec_space : PyDict.get byte_encoder 32%N = Some 288%N.
Proof. reflexivity. Qed.

Example ex_train_aa_aaab :
  exists tk, train 4 [[s_a; s_a]; [s_a; s_a; s_a; s_b]] = Ok tk
             /\ merges tk = [([s_a], [s_a])]
             /\ vocab tk = [(END_OF_WORD, 0); ([s_a], 1); ([s_b], 2); ([s_a; s_a], 3)]%Z.
Proof. eexists; split; [vm_compute; reflexivity|]. split; reflexivity. Qed.

(** * Properties *)

(** ** The result monad and lists *)

Lemma bind_Ok {A B} (r : result A) (k : A -> result B) (b : B) :
  bind r k = Ok b -> exists a, r = Ok a /\ k a = Ok b.
Proof. destruct r as [a|e]; simpl; [eauto | discriminate]. Qed.

Lemma mapM_Ok_total {A B} (f : A -> result B) (g : A -> B) (l : list A) :
  Forall (fun x => f x = Ok (g x)) l -> mapM f l = Ok (map g l).
Proof.
  induction 1 as [|x r Hx _ IH]; simpl; [reflexivity|].
  rewrite Hx; simpl. rewrite IH; reflexivity.
Qed.

Lemma mapM_length {A B} (f : A -> result B) (l : list A) (l' : list B) :
  mapM f l = Ok l' -> length l' = length l.
Proof.
  revert l'; induction l as [|x r IH]; simpl; intros l' E.
  - inversion E; reflexivity.
  - destruct (f x); simpl in E; [|discriminate].
    destruct (mapM f r); simpl in E; [|discriminate].
    inversion E; subst; simpl. f_equal. apply IH; reflexivity.
Qed.

Fixpoint nodupb {A} `{PyEq A} (l : list A) : bool :=
  match l with
  | [] => true
  | x :: r => negb (list_mem x r) && nodupb r
  end.

Lemma list_mem_In {A} `{PyEq A} (x : A) (l : list A) : list_mem x l = true <-> In x l.
Proof.
  unfold list_mem. rewrite existsb_exists. split.
  - intros [y [I E]]. apply py_eqb_eq in E. subst; exact I.
  - intros I. exists x. split; [exact I | apply py_eqb_refl].
Qed.

Lemma nodupb_NoDup {A} `{PyEq A} (l : list A) : nodupb l = true -> NoDup l.
Proof.
  induction l as [|x r IH]; simpl; intros E; [constructor|].
  apply andb_true_iff in E. destruct E as [E1 E2].
  constructor; [|auto].
  intros I. apply list_mem_In in I. rewrite I in E1. discriminate.
Qed.

Lemma In_range (a b x : N) : In x (range a b) <-> (a <= x < b)%N.
Proof.
  unfold range. rewrite in_map_iff. split.
  - intros [n [E I]]. apply in_seq in I. subst x. lia.
  - intros I. exists (N.to_nat x). split; [apply N2Nat.id|]. apply in_seq. lia.
Qed.

(** ** Dictionaries *)

Module PyDictFacts.
Section Facts.
Context {K V : Type} `{PyEq K}.
Implicit Types (d : dict K V) (k : K) (v : V).
Import PyDict.

Lemma get_set_same d k v : get (set d k v) k = Some v.
Proof.
  induction d as [|[k' v'] r IH]; simpl.
  - rewrite py_eqb_refl; reflexivity.
  - destruct (py_eqb k k') eqn:E; simpl; rewrite E; auto.
Qed.

Lemma get_set_other d k k' v : k <> k' -> get (set d k v) k' = get d k'.
Proof.
  intros N. induction d as [|[k0 v0] r IH]; simpl.
  - assert (py_eqb k' k = false) as -> by (apply py_eqb_neq; congruence).
    reflexivity.
  - destruct (py_eqb k k0) eqn:E; simpl.
    + apply py_eqb_eq in E; subst k0.
      assert (py_eqb k' k = false) as -> by (apply py_eqb_neq; congruence).
      reflexivity.
    + destruct (py_eqb k' k0); auto.
Qed.

Lemma get_In d k v : get d k = Some v -> In (k, v) d.
Proof.
  induction d as [|[k' v'] r IH]; simpl; [discriminate|].
  destruct (py_eqb k k') eqn:E.
  - apply py_eqb_eq in E; subst. intros [= ->]. auto.
  - auto.
Qed.

Lemma get_None d k : get d k = None <-> ~ In k (keys d).
Proof.
  induction d as [|[k' v'] r IH]; simpl; [tauto|].
  destruct (py_eqb k k') eqn:E.
  - apply py_eqb_eq in E; subst. split; [discriminate | intros N; exfalso; auto].
  - apply py_eqb_neq in E. rewrite IH. split; [intros N [->|I]; auto | tauto].
Qed.

Lemma get_Some_key d k v : get d k = Some v -> In k (keys d).
Proof. intros G. apply get_In in G. apply (in_map fst) in G. exact G. Qed.

Lemma In_get d k v : NoDup (keys d) -> In (k, v) d -> get d k = Some v.
Proof.
  induction d as [|[k' v'] r IH]; simpl; [tauto|].
  intros ND [E | I].
  - inversion E; subst. rewrite py_eqb_refl; reflexivity.
  - inversion ND as [|? ? NI ND']; subst.
    destruct (py_eqb k k') eqn:E.
    + apply py_eqb_eq in E; subst. exfalso. apply NI.
      apply (in_map fst) in I. exact I.
    + auto.
Qed.

Lemma length_set d k v :
  length (set d k v) = if mem d k then length d else S (length d).
Proof.
  unfold mem. induction d as [|[k' v'] r IH]; simpl; [reflexivity|].
  destruct (py_eqb k k'); simpl; [reflexivity|].
  rewrite IH. destruct (get r k); reflexivity.
Qed.

Lemma keys_set d k v :
  keys (set d k v) = if mem d k then keys d else keys d ++ [k].
Proof.
  unfold mem, keys. induction d as [|[k' v'] r IH]; simpl; [reflexivity|].
  destruct (py_eqb k k'); simpl; [reflexivity|].
  rewrite IH. destruct (get r k); reflexivity.
Qed.

Lemma set_new d k v : get d k = None -> set d k v = d ++ [(k, v)].
Proof.
  induction d as [|[k' v'] r IH]; simpl; [reflexivity|].
  destruct (py_eqb k k'); [discriminate|]. intros G. rewrite IH; auto.
Qed.

Lemma NoDup_keys_set d k v : NoDup (keys d) -> NoDup (keys (set d k v)).
Proof.
  intros ND. rewrite keys_set. unfold mem.
  destruct (get d k) eqn:G; [exact ND|].
  apply get_None in G.
  apply NoDup_rev in ND. rewrite <- (rev_involutive (keys d ++ [k])).
  apply NoDup_rev. rewrite rev_app_distr. simpl. constructor; [|exact ND].
  rewrite <- in_rev. exact G.
Qed.

Lemma NoDup_keys_of_list (items : list (K * V)) : NoDup (keys (of_list items)).
Proof.
  unfold of_list.
  assert (G : forall d, NoDup (keys d) ->
            NoDup (keys (fold_left (fun d kv => set d (fst kv) (snd kv)) items d))).
  { induction items as [|kv r IH]; simpl; intros d ND; [exact ND|].
    apply IH. apply NoDup_keys_set. exact ND. }
  apply G. constructor.
Qed.
End Facts.
End PyDictFacts.

(** ** ByteCodec *)

(** The two tables are only ever evaluated as a whole. *)
Opaque byte_encoder byte_decoder.

Definition codec_roundtrip_at (b : N) : bool :=
  match PyDict.get byte_encoder b with
  | Some c => match PyDict.get byte_decoder c with
              | Some b' => (b' =? b)%N
              | None => false
              end
  | None => false
  end.

Lemma codec_roundtrip_all : forallb codec_roundtrip_at (range 0 256) = true.
Proof. vm_compute. reflexivity. Qed.

Lemma byte_encoder_total (b : N) :
  (b < 256)%N ->
  exists c, PyDict.get byte_encoder b = Some c /\ PyDict.get byte_decoder c = Some b.
Proof.
  intros L. pose proof codec_roundtrip_all as A.
  rewrite forallb_forall in A. specialize (A b).
  assert (I : In b (range 0 256)) by (apply In_range; lia).
  apply A in I. unfold codec_roundtrip_at in I.
  destruct (PyDict.get byte_encoder b) as [c|] eqn:E1; [|discriminate].
  destruct (PyDict.get byte_decoder c) as [b'|] eqn:E2; [|discriminate].
  apply N.eqb_eq in I. subst b'. exists c. split; [reflexivity | exact E2].
Qed.

(** The symbol of a byte, as a total function on bytes. *)
Definition symbol_of (b : N) : N :=
  match PyDict.get byte_encoder b with Some c => c | None => 0%N end.

Lemma encode_bytes_Ok (bs : list N) :
  Forall (fun b => (b < 256)%N) bs -> encode_bytes bs = Ok (map symbol_of bs).
Proof.
  intros F. unfold encode_bytes. apply mapM_Ok_total.
  rewrite Forall_forall in *. intros b I.
  destruct (byte_encoder_total (F b I)) as [c [E _]].
  unfold symbol_of. rewrite E. reflexivity.
Qed.

Lemma decode_bytes_symbols (bs : list N) :
  Forall (fun b => (b < 256)%N) bs -> decode_bytes (map symbol_of bs) = Ok bs.
Proof.
  intros F. unfold decode_bytes.
  induction F as [|b r L _ IH]; [reflexivity|].
  destruct (byte_encoder_total L) as [c [E1 E2]].
  cbn [map mapM]. unfold symbol_of at 1. rewrite E1, E2.
  cbn [of_option bind]. rewrite IH. reflexivity.
Qed.

Lemma byte_decoder_sound (c b : N) :
  PyDict.get byte_decoder c = Some b -> PyDict.get byte_encoder b = Some c.
Proof.
  intros G. apply PyDictFacts.get_In in G.
  assert (A : forallb (fun cb => match PyDict.get byte_encoder (snd cb) with
                                 | Some c' => (c' =? fst cb)%N
                                 | None => false
                                 end) byte_decoder = true)
    by (vm_compute; reflexivity).
  rewrite forallb_forall in A. specialize (A _ G). cbn [fst snd] in A.
  destruct (PyDict.get byte_encoder b) as [c'|]; [|discriminate].
  apply N.eqb_eq in A. subst; reflexivity.
Qed.

Lemma byte_encoder_keys (b : N) :
  In b (PyDict.keys byte_encoder) <-> (b < 256)%N.
Proof.
  split.
  - intros I.
    assert (A : forallb (fun k => (k <? 256)%N) (PyDict.keys byte_encoder) = true)
      by (vm_compute; reflexivity).
    rewrite forallb_forall in A. apply N.ltb_lt. apply A. exact I.
  - intros L. destruct (byte_encoder_total L) as [c [E _]].
    apply PyDictFacts.get_Some_key in E. exact E.
Qed.

(** C6. The byte encoder maps the 256 byte values 0..255, each once, to 256
    distinct symbols; the byte decoder is its inverse; and turning any byte
    sequence into symbols and back gives the sequence again. *)
Theorem C6_byte_codec_bijection :
  length byte_encoder = 256%nat
  /\ (forall b, In b (PyDict.keys byte_encoder) <-> (b < 256)%N)
  /\ NoDup (PyDict.keys byte_encoder)
  /\ NoDup (map snd byte_encoder)
  /\ (forall b c, PyDict.get byte_encoder b = Some c
                  <-> PyDict.get byte_decoder c = Some b)
  /\ (forall bs, Forall (fun b => (b < 256)%N) bs ->
        exists syms, encode_bytes bs = Ok syms
                     /\ length syms = length bs
                     /\ decode_bytes syms = Ok bs).
Proof.
  split; [vm_compute; reflexivity|].
  split; [exact byte_encoder_keys|].
  split; [apply nodupb_NoDup; vm_compute; reflexivity|].
  split; [apply nodupb_NoDup; vm_compute; reflexivity|].
  split.
  - intros b c. split.
    + intros G. assert (L : (b < 256)%N).
      { apply (proj1 (byte_encoder_keys b)). exact (PyDictFacts.get_Some_key _ _ G). }
      destruct (byte_encoder_total L) as [c' [E1 E2]]. congruence.
    + apply byte_decoder_sound.
  - intros bs F. exists (map symbol_of bs).
    split; [apply encode_bytes_Ok; exact F|].
    split; [apply length_map|]. apply decode_bytes_symbols; exact F.
Qed.

Lemma C6_byte_codec_witness :
  exists syms, encode_bytes [0; 32; 65; 255]%N = Ok syms
               /\ length syms = 4%nat
               /\ decode_bytes syms = Ok [0; 32; 65; 255]%N.
Proof.
  apply (proj2 (proj2 (proj2 (proj2 (proj2 C6_byte_codec_bijection))))).
  repeat constructor.
Defined.

(** ** MergeEngine *)

Lemma index_of_Some_In {A} `{PyEq A} (x : A) (l : list A) (i : nat) :
  index_of x l = Some i -> In x l.
Proof.
  revert i; induction l as [|y r IH]; simpl; intros i; [discriminate|].
  destruct (py_eqb x y) eqn:E.
  - apply py_eqb_eq in E. auto.
  - destruct (index_of x r) as [k|]; [|discriminate]. intros _. right. eapply IH; eauto.
Qed.

Lemma index_of_None {A} `{PyEq A} (x : A) (l : list A) :
  index_of x l = None <-> ~ In x l.
Proof.
  split.
  - induction l as [|y r IH]; simpl; [tauto|].
    destruct (py_eqb x y) eqn:E; [discriminate|].
    apply py_eqb_neq in E.
    destruct (index_of x r); [discriminate|].
    intros _ [->|I]; [congruence | exact (IH eq_refl I)].
  - intros N. destruct (index_of x l) as [i|] eqn:E; [|reflexivity].
    exfalso. apply N. eapply index_of_Some_In; eauto.
Qed.

Lemma index_of_Some {A} `{PyEq A} (x : A) (l : list A) (i : nat) :
  index_of x l = Some i -> nth_error l i = Some x.
Proof.
  revert i; induction l as [|y r IH]; simpl; intros i; [discriminate|].
  destruct (py_eqb x y) eqn:E.
  - apply py_eqb_eq in E. subst. intros [= <-]. reflexivity.
  - destruct (index_of x r); [|discriminate]. intros [= <-]. simpl. auto.
Qed.

Lemma index_of_In {A} `{PyEq A} (x : A) (l : list A) :
  In x l -> exists i, index_of x l = Some i.
Proof.
  intros I. destruct (index_of x l) as [i|] eqn:E; [eauto|].
  apply index_of_None in E. contradiction.
Qed.

(** [p] is, among the adjacent pairs of [w] that the merge table holds, the
    one of lowest rank [i]. *)
Definition lowest_rank (merges : list merge_pair) (pairs : list merge_pair)
    (p : merge_pair) (i : nat) : Prop :=
  In p pairs /\ index_of p merges = Some i
  /\ forall q j, In q pairs -> index_of q merges = Some j -> (i <= j)%nat.

Lemma lowest_rank_unique merges pairs p i q j :
  lowest_rank merges pairs p i -> lowest_rank merges pairs q j -> p = q /\ i = j.
Proof.
  intros [Ip [Ep Mp]] [Iq [Eq Mq]].
  assert (i = j) by (specialize (Mp q j Iq Eq); specialize (Mq p i Ip Ep); lia).
  subst j. apply index_of_Some in Ep, Eq. split; congruence.
Qed.

Definition best_inv (merges : list merge_pair) (seen : list merge_pair)
    (acc : option (nat * merge_pair)) : Prop :=
  match acc with
  | None => forall q, In q seen -> ~ In q merges
  | Some (i, p) => lowest_rank merges seen p i
  end.

Lemma best_step_inv merges seen acc pair :
  best_inv merges seen acc ->
  best_inv merges (seen ++ [pair]) (best_step merges acc pair).
Proof.
  intros Inv. unfold best_step.
  destruct (list_mem pair merges) eqn:M.
  - apply list_mem_In in M. destruct (index_of_In _ _ M) as [idx E]. rewrite E.
    destruct acc as [[m p]|]; simpl in *.
    + destruct Inv as [Ip [Ei Min]].
      destruct (idx <? m)%nat eqn:C.
      * apply Nat.ltb_lt in C. split; [apply in_or_app; right; left; reflexivity|].
        split; [exact E|]. intros q j Iq Eq. apply in_app_or in Iq.
        destruct Iq as [Iq|[<-|[]]].
        -- specialize (Min q j Iq Eq). lia.
        -- rewrite E in Eq. inversion Eq. lia.
      * apply Nat.ltb_ge in C. split; [apply in_or_app; left; exact Ip|].
        split; [exact Ei|]. intros q j Iq Eq. apply in_app_or in Iq.
        destruct Iq as [Iq|[<-|[]]].
        -- exact (Min q j Iq Eq).
        -- rewrite E in Eq. inversion Eq. lia.
    + split; [apply in_or_app; right; left; reflexivity|].
      split; [exact E|]. intros q j Iq Eq. apply in_app_or in Iq.
      destruct Iq as [Iq|[<-|[]]].
      * apply Inv in Iq. apply index_of_None in Iq. congruence.
      * rewrite E in Eq. inversion Eq. lia.
  - assert (NM : ~ In pair merges).
    { intros I. apply list_mem_In in I. congruence. }
    destruct acc as [[m p]|]; simpl in *.
    + destruct Inv as [Ip [Ei Min]]. split; [apply in_or_app; left; exact Ip|].
      split; [exact Ei|]. intros q j Iq Eq. apply in_app_or in Iq.
      destruct Iq as [Iq|[<-|[]]].
      * exact (Min q j Iq Eq).
      * apply index_of_None in NM. congruence.
    + intros q Iq. apply in_app_or in Iq. destruct Iq as [Iq|[<-|[]]]; auto.
Qed.

Lemma find_best_inv merges pairs seen acc :
  best_inv merges seen acc ->
  best_inv merges (seen ++ pairs) (fold_left (best_step merges) pairs acc).
Proof.
  revert seen acc; induction pairs as [|p r IH]; intros seen acc Inv; simpl.
  - rewrite app_nil_r. exact Inv.
  - replace (seen ++ p :: r) with ((seen ++ [p]) ++ r)
      by (rewrite <- app_assoc; reflexivity).
    apply IH. apply best_step_inv. exact Inv.
Qed.

Lemma find_best_spec merges pairs :
  match find_best merges pairs with
  | None => forall q, In q pairs -> ~ In q merges
  | Some (i, p) => lowest_rank merges pairs p i
  end.
Proof.
  unfold find_best. apply (find_best_inv merges pairs [] None).
  intros q [].
Qed.

Lemma list_pair_ind {A} (P : list A -> Prop) :
  P [] -> (forall a, P [a]) ->
  (forall a b r, P r -> P (b :: r) -> P (a :: b :: r)) ->
  forall l, P l.
Proof.
  intros H0 H1 H2 l.
  assert (G : P l /\ forall a, P (a :: l)).
  { induction l as [|b r [IH1 IH2]]; [split; auto|].
    split; [apply IH2|]. intros a. apply H2; auto. }
  exact (proj1 G).
Qed.

Lemma merge_word_cons2 (p : merge_pair) (a b : token) (r : word) :
  merge_word p (a :: b :: r) =
  if py_eqb a (fst p) && py_eqb b (snd p)
  then (fst p ++ snd p) :: merge_word p r
  else a :: merge_word p (b :: r).
Proof. reflexivity. Qed.

Lemma adjacent_pairs_cons2 (a b : token) (r : word) :
  adjacent_pairs (a :: b :: r) = (a, b) :: adjacent_pairs (b :: r).
Proof. reflexivity. Qed.

Lemma merge_word_length_le (p : merge_pair) (w : word) :
  (length (merge_word p w) <= length w)%nat.
Proof.
  induction w as [| a | a b r IH1 IH2] using list_pair_ind; [simpl; lia ..|].
  rewrite merge_word_cons2.
  destruct (py_eqb a (fst p) && py_eqb b (snd p)); simpl in *; lia.
Qed.

Lemma merge_word_length_lt (p : merge_pair) (w : word) :
  In p (adjacent_pairs w) -> (length (merge_word p w) < length w)%nat.
Proof.
  induction w as [| a | a b r IH1 IH2] using list_pair_ind;
    [intros [] | intros [] |].
  rewrite adjacent_pairs_cons2, merge_word_cons2. intros I.
  destruct (py_eqb a (fst p) && py_eqb b (snd p)) eqn:T.
  - pose proof (merge_word_length_le p r). simpl. lia.
  - destruct I as [E|I].
    + subst p. cbn [fst snd] in T. rewrite !py_eqb_refl in T. discriminate.
    + specialize (IH2 I). simpl in *. lia.
Qed.

Lemma merge_word_concat (p : merge_pair) (w : word) :
  concat (merge_word p w) = concat w.
Proof.
  induction w as [| a | a b r IH1 IH2] using list_pair_ind; [reflexivity ..|].
  rewrite merge_word_cons2.
  destruct (py_eqb a (fst p) && py_eqb b (snd p)) eqn:T.
  - apply andb_true_iff in T. destruct T as [Ta Tb].
    apply py_eqb_eq in Ta, Tb. subst a b.
    simpl. rewrite IH1, app_assoc. reflexivity.
  - simpl in *. rewrite IH2. reflexivity.
Qed.

(** One pass over a word as the description of the merge engine has it:
    from the left, every occurrence of the pair that does not overlap an
    occurrence already joined is replaced by the concatenation. *)
Inductive merge_pass (p : merge_pair) : word -> word -> Prop :=
| pass_end : merge_pass p [] []
| pass_join rest out :
    merge_pass p rest out ->
    merge_pass p (fst p :: snd p :: rest) ((fst p ++ snd p) :: out)
| pass_keep a rest out :
    (forall b r, rest = b :: r -> (a, b) <> p) ->
    merge_pass p rest out ->
    merge_pass p (a :: rest) (a :: out).

Lemma merge_word_pass (p : merge_pair) (w : word) : merge_pass p w (merge_word p w).
Proof.
  induction w as [| a | a b r IH1 IH2] using list_pair_ind.
  - constructor.
  - simpl. apply pass_keep; [intros b r; discriminate | constructor].
  - rewrite merge_word_cons2.
    destruct (py_eqb a (fst p) && py_eqb b (snd p)) eqn:T.
    + apply andb_true_iff in T. destruct T as [Ta Tb].
      apply py_eqb_eq in Ta, Tb. subst a b. apply pass_join. exact IH1.
    + apply pass_keep; [|exact IH2].
      intros b' r' [= <- <-] E. subst p. cbn [fst snd] in T.
      rewrite !py_eqb_refl in T. discriminate.
Qed.

Lemma merge_pass_fun (p : merge_pair) (w out : word) :
  merge_pass p w out -> out = merge_word p w.
Proof.
  induction 1 as [| rest out _ IH | a rest out N _ IH].
  - reflexivity.
  - rewrite merge_word_cons2, !py_eqb_refl. simpl. rewrite IH. reflexivity.
  - destruct rest as [|b r]; [rewrite IH; reflexivity|].
    rewrite merge_word_cons2.
    destruct (py_eqb a (fst p) && py_eqb b (snd p)) eqn:T.
    + apply andb_true_iff in T. destruct T as [Ta Tb].
      apply py_eqb_eq in Ta, Tb. exfalso. apply (N b r eq_refl).
      subst. destruct p; reflexivity.
    + rewrite IH. reflexivity.
Qed.

(** The loop of [_tokenize_word] as a relation on the values the code
    computes ([adjacent_pairs], [index_of]): stop on a word of length at
    most 1 or when no adjacent pair is in the merge table; otherwise take the
    adjacent pair of lowest rank, merge it in one pass, and repeat.  The last
    index counts the rounds.  It is compared below with [priority_merging],
    which is written without these functions. *)
Inductive merges_to (merges : list merge_pair) : word -> word -> nat -> Prop :=
| merges_stop w :
    (length w <= 1)%nat
    \/ (forall q, In q (adjacent_pairs w) -> ~ In q merges) ->
    merges_to merges w w 0
| merges_round w p i w1 w' n :
    (1 < length w)%nat ->
    lowest_rank merges (adjacent_pairs w) p i ->
    merge_pass p w w1 ->
    merges_to merges w1 w' n ->
    merges_to merges w w' (S n).

Lemma merges_to_deterministic merges w w1 n1 w2 n2 :
  merges_to merges w w1 n1 -> merges_to merges w w2 n2 -> w1 = w2 /\ n1 = n2.
Proof.
  intros M1; revert w2 n2.
  induction M1 as [w S1 | w p i v w1 n1 L1 R1 P1 _ IH]; intros w2 n2 M2.
  - inversion M2 as [w0 S2 | w0 q j v2 w0' n0 L2 R2 P2 M2']; subst; [auto|].
    exfalso. destruct R2 as [Iq [Eq _]]. destruct S1 as [S1|S1]; [lia|].
    apply (S1 q Iq). eapply index_of_Some_In; eauto.
  - inversion M2 as [w0 S2 | w0 q j v2 w0' n0 L2 R2 P2 M2']; subst.
    + exfalso. destruct R1 as [Ip [Ep _]]. destruct S2 as [S2|S2]; [lia|].
      apply (S2 p Ip). eapply index_of_Some_In; eauto.
    + destruct (lowest_rank_unique R1 R2) as [<- <-].
      apply merge_pass_fun in P1, P2. subst v v2.
      destruct (IH _ _ M2') as [<- <-]. auto.
Qed.

Lemma merge_loop_sound merges fuel :
  forall w w' r, merge_loop fuel merges w = Ok (w', r) -> merges_to merges w w' r.
Proof.
  induction fuel as [|f IH]; intros w w' r; simpl; [discriminate|].
  destruct (length w <=? 1)%nat eqn:L.
  - intros [= <- <-]. apply merges_stop. left. apply Nat.leb_le. exact L.
  - apply Nat.leb_gt in L.
    pose proof (find_best_spec merges (adjacent_pairs w)) as B.
    destruct (find_best merges (adjacent_pairs w)) as [[i p]|].
    + intros E. apply bind_Ok in E. destruct E as [[v k] [E1 E2]].
      inversion E2; subst. simpl.
      eapply merges_round; eauto using merge_word_pass.
    + intros [= <- <-]. apply merges_stop. right. exact B.
Qed.

Lemma merge_loop_total merges :
  forall fuel w, (length w <= fuel)%nat -> (1 <= fuel)%nat ->
  exists w' r, merge_loop fuel merges w = Ok (w', r)
               /\ (length w' <= length w)%nat
               /\ (r <= length w - 1)%nat.
Proof.
  induction fuel as [|f IH]; intros w Lw Lf; [lia|]. simpl.
  destruct (length w <=? 1)%nat eqn:L.
  - exists w, O. repeat split; lia.
  - apply Nat.leb_gt in L.
    pose proof (find_best_spec merges (adjacent_pairs w)) as B.
    destruct (find_best merges (adjacent_pairs w)) as [[i p]|].
    + destruct B as [Ip _]. pose proof (merge_word_length_lt p w Ip) as Lt.
      destruct (IH (merge_word p w)) as [w' [r [E [L1 L2]]]]; [lia | lia |].
      rewrite E. simpl. exists w', (S r). repeat split; lia.
    + exists w, O. repeat split; lia.
Qed.

(** C7. For every word and merge table, one merge pass never makes the word
    longer, and with a loop bound of at least the word's length the merge
    loop returns: its result is not longer than the word and it ran at most
    [len(word) - 1] merge rounds. *)
Theorem C7_merge_loop_bounded (merges : list merge_pair) (w : word) (fuel : nat)
    (Hfuel : (length w <= fuel)%nat) (Hpos : (1 <= fuel)%nat) :
  (forall pair, (length (merge_word pair w) <= length w)%nat)
  /\ exists w' rounds,
       merge_loop fuel merges w = Ok (w', rounds)
       /\ (length w' <= length w)%nat
       /\ (rounds <= length w - 1)%nat.
Proof.
  split; [intros pair; apply merge_word_length_le|].
  apply merge_loop_total; assumption.
Qed.

Lemma C7_merge_loop_witness :
  let merges := [([s_b], [s_a]); ([s_a], [s_b])] in
  let w := word_tuple [s_a; s_b; s_a; s_b] in
  (forall pair, (length (merge_word pair w) <= length w)%nat)
  /\ exists w' rounds,
       merge_loop 5 merges w = Ok (w', rounds)
       /\ (length w' <= length w)%nat
       /\ (rounds <= length w - 1)%nat.
Proof.
  intros merges w. apply (@C7_merge_loop_bounded merges w 5%nat); simpl; lia.
Defined.

Lemma tokenize_word_total merges (s : str) :
  exists toks rounds,
    merge_loop (length (word_tuple s)) merges (word_tuple s) = Ok (toks, rounds)
    /\ tokenize_word merges s = Ok toks.
Proof.
  assert (L : (1 <= length (word_tuple s))%nat).
  { unfold word_tuple. rewrite length_app. simpl. lia. }
  destruct (merge_loop_total merges (word_tuple s) (Nat.le_refl _) L)
    as [w' [r [E _]]].
  exists w', r. split; [exact E|]. unfold tokenize_word. rewrite E. reflexivity.
Qed.

(** *** The description of the merge engine, in its own words *)

(** The notions of the description are written here without the functions
    of the code: positions in the word and in the merge table are read with
    [nth_error]. *)

(** The pair [p] stands at position [i] of the word: its parts are the
    [i]-th token and the next one. *)
Definition pair_at (w : word) (i : nat) (p : merge_pair) : Prop :=
  nth_error w i = Some (fst p) /\ nth_error w (S i) = Some (snd p).

(** The rank of a pair: the position in the merge table where it was
    learned first. *)
Definition rank (merges : list merge_pair) (p : merge_pair) (r : nat) : Prop :=
  nth_error merges r = Some p
  /\ forall j, (j < r)%nat -> nth_error merges j <> Some p.

(** [p] is the pair to merge next: it stands somewhere in the word, it has
    the rank [r], and no pair that stands anywhere in the word has a lower
    rank. *)
Definition next_merge (merges : list merge_pair) (w : word)
    (p : merge_pair) (r : nat) : Prop :=
  (exists i, pair_at w i p)
  /\ rank merges p r
  /\ forall j q s, pair_at w j q -> rank merges q s -> (r <= s)%nat.

(** Priority-ordered merging: stop on a word of length at most 1, or when
    no pair that stands in the word is in the merge table; otherwise merge
    the pair of lowest rank in one pass from the left, and go on with the
    word that gives.  The last index counts the passes. *)
Inductive priority_merging (merges : list merge_pair) : word -> word -> nat -> Prop :=
| priority_stop w :
    (length w <= 1)%nat
    \/ (forall i q, pair_at w i q -> ~ In q merges) ->
    priority_merging merges w w 0
| priority_round w p r w1 w' n :
    next_merge merges w p r ->
    merge_pass p w w1 ->
    priority_merging merges w1 w' n ->
    priority_merging merges w w' (S n).

Lemma pair_at_adjacent (w : word) (p : merge_pair) :
  (exists i, pair_at w i p) <-> In p (adjacent_pairs w).
Proof.
  unfold pair_at. destruct p as [x y]. cbn [fst snd].
  induction w as [| a | a b r _ IH] using list_pair_ind.
  - split; [intros [i [E _]]; destruct i; discriminate E | intros []].
  - split; [|intros []]. intros [i [_ E]]. destruct i; discriminate E.
  - rewrite adjacent_pairs_cons2. split.
    + intros [[|i] [E1 E2]]; cbn [nth_error] in E1, E2.
      * left. congruence.
      * right. apply IH. exists i. split; assumption.
    + intros [E|I].
      * exists 0%nat. inversion E; subst. split; reflexivity.
      * apply IH in I. destruct I as [i [E1 E2]]. exists (S i). split; assumption.
Qed.

Lemma rank_index_of (merges : list merge_pair) (p : merge_pair) (r : nat) :
  rank merges p r <-> index_of p merges = Some r.
Proof.
  unfold rank. revert r. induction merges as [|q m IH]; intros r; cbn [index_of].
  - split; [|discriminate]. intros [E _]. destruct r; discriminate E.
  - destruct (py_eqb p q) eqn:C.
    + apply py_eqb_eq in C. subst q. split.
      * intros [_ F]. destruct r as [|r]; [reflexivity|].
        contradiction (F 0%nat ltac:(lia)). reflexivity.
      * intros [= <-]. split; [reflexivity|]. intros j L. lia.
    + apply py_eqb_neq in C. split.
      * intros [E F]. destruct r as [|r]; [cbn in E; congruence|].
        cbn [nth_error] in E.
        rewrite (proj1 (IH r)); [reflexivity|]. split; [exact E|].
        intros j L. exact (F (S j) ltac:(lia)).
      * destruct (index_of p m) as [k|] eqn:I; [|discriminate].
        intros [= <-]. destruct (proj2 (IH k) eq_refl) as [E F].
        split; [exact E|]. intros [|j] L; cbn [nth_error]; [congruence|].
        apply F. lia.
Qed.

Lemma next_merge_lowest_rank (merges : list merge_pair) (w : word)
    (p : merge_pair) (r : nat) :
  next_merge merges w p r <-> lowest_rank merges (adjacent_pairs w) p r.
Proof.
  unfold next_merge, lowest_rank. rewrite pair_at_adjacent, rank_index_of. split.
  - intros [I [E L]]. split; [exact I|]. split; [exact E|].
    intros q j Iq Eq. apply pair_at_adjacent in Iq. destruct Iq as [k Pk].
    apply rank_index_of in Eq. exact (L k q j Pk Eq).
  - intros [I [E L]]. split; [exact I|]. split; [exact E|].
    intros j q s Pq Rq. apply (L q s).
    + apply pair_at_adjacent. exists j. exact Pq.
    + apply rank_index_of. exact Rq.
Qed.

Lemma priority_merging_merges_to (merges : list merge_pair) (w w' : word) (n : nat) :
  priority_merging merges w w' n <-> merges_to merges w w' n.
Proof.
  split.
  - induction 1 as [w S | w p r w1 w' n N P _ IH].
    + apply merges_stop. destruct S as [S|S]; [left; exact S|]. right.
      intros q Iq. apply pair_at_adjacent in Iq. destruct Iq as [i Pi]. exact (S i q Pi).
    + apply next_merge_lowest_rank in N.
      apply (merges_round (p := p) (i := r) (w1 := w1)); [|exact N|exact P|exact IH].
      destruct N as [I _]. destruct w as [|a [|b t]]; [destruct I | destruct I|].
      cbn [length]. lia.
  - induction 1 as [w S | w p r w1 w' n _ N P _ IH].
    + apply priority_stop. destruct S as [S|S]; [left; exact S|]. right.
      intros i q Pi. apply S. apply pair_at_adjacent. exists i. exact Pi.
    + apply next_merge_lowest_rank in N.
      exact (priority_round N P IH).
Qed.

(** C3. Tokenizing a word returns, and what it returns is the outcome of
    priority-ordered merging ([priority_merging]) on the word's symbols with
    the marker at the end: while the word is longer than 1 and a pair that
    stands in it is in the merge table, the pair of lowest rank among the
    pairs standing anywhere in the word is merged, in one pass from the left
    over its non-overlapping occurrences ([merge_pass]).  The procedure has
    no other outcome. *)
Theorem C3_priority_ordered_merging (merges : list merge_pair) (s : str) :
  exists toks rounds,
    tokenize_word merges s = Ok toks
    /\ priority_merging merges (map (fun c => [c]) s ++ [END_OF_WORD]) toks rounds
    /\ (forall toks' rounds',
          priority_merging merges (map (fun c => [c]) s ++ [END_OF_WORD]) toks' rounds' ->
          toks' = toks /\ rounds' = rounds).
Proof.
  destruct (tokenize_word_total merges s) as [toks [rounds [E T]]].
  exists toks, rounds. split; [exact T|].
  pose proof (merge_loop_sound _ _ _ E) as M. split.
  - apply priority_merging_merges_to. exact M.
  - intros toks' rounds' M'. apply priority_merging_merges_to in M'.
    exact (merges_to_deterministic M' M).
Qed.

(** The merge [(b, c)], learned first, is applied although [(a, b)] stands
    before it in the word. *)
Example ex_priority_not_leftmost :
  tokenize_word [([98], [99]); ([97], [98])]%N [97; 98; 99]%N
  = Ok [[97]; [98; 99]; END_OF_WORD]%N.
Proof. reflexivity. Qed.

(** ** Trainer *)

Lemma fold_left_inv {A B} (P : A -> Prop) (f : A -> B -> A) (l : list B) (a : A) :
  P a -> (forall a x, In x l -> P a -> P (f a x)) -> P (fold_left f l a).
Proof.
  revert a; induction l as [|x r IH]; intros a Pa Step; simpl; [exact Pa|].
  apply IH; [apply Step; simpl; auto | intros; apply Step; simpl; auto].
Qed.

Definition values_ge_1 {K} (d : dict K Z) : Prop :=
  Forall (fun kv => (1 <= snd kv)%Z) d.

Lemma values_ge_1_set {K} `{PyEq K} (d : dict K Z) (k : K) (v : Z) :
  values_ge_1 d -> (1 <= v)%Z -> values_ge_1 (PyDict.set d k v).
Proof.
  intros F Lv. induction F as [|[k' v'] r Hk Hr IH]; simpl.
  - repeat constructor. exact Lv.
  - destruct (py_eqb k k'); constructor; auto.
Qed.

Lemma values_ge_1_get {K} `{PyEq K} (d : dict K Z) (k : K) (v : Z) :
  values_ge_1 d -> PyDict.get d k = Some v -> (1 <= v)%Z.
Proof.
  intros F G. apply PyDictFacts.get_In in G.
  unfold values_ge_1 in F. rewrite Forall_forall in F. exact (F _ G).
Qed.

Lemma values_ge_1_counter_add {K} `{PyEq K} (c : dict K Z) (k : K) (n : Z) :
  values_ge_1 c -> (1 <= n)%Z -> values_ge_1 (counter_add c k n).
Proof.
  intros F Ln. unfold counter_add. apply values_ge_1_set; [exact F|].
  destruct (PyDict.get c k) as [v|] eqn:G; [|lia].
  pose proof (values_ge_1_get _ F G). lia.
Qed.

Lemma get_stats_ge_1 (word_freqs : dict word Z) :
  values_ge_1 word_freqs -> values_ge_1 (get_stats word_freqs).
Proof.
  intros F. unfold get_stats.
  apply fold_left_inv; [constructor|].
  intros pairs [w f] I Inv. simpl.
  assert (Lf : (1 <= f)%Z).
  { unfold values_ge_1 in F. rewrite Forall_forall in F. exact (F _ I). }
  apply fold_left_inv; [exact Inv|].
  intros pairs' p _ Inv'. apply values_ge_1_counter_add; assumption.
Qed.

Lemma merge_vocab_ge_1 (pair : merge_pair) (word_freqs : dict word Z) :
  values_ge_1 word_freqs -> values_ge_1 (merge_vocab pair word_freqs).
Proof.
  intros F. unfold merge_vocab.
  apply fold_left_inv; [constructor|].
  intros nwf [w f] I Inv. simpl. apply values_ge_1_set; [exact Inv|].
  unfold values_ge_1 in F. rewrite Forall_forall in F. exact (F _ I).
Qed.

Lemma count_words_ge_1 (texts : list str) :
  forall word_freqs wf,
    values_ge_1 word_freqs -> count_words texts word_freqs = Ok wf -> values_ge_1 wf.
Proof.
  induction texts as [|text more IH]; intros word_freqs wf F; simpl.
  - intros [= <-]. exact F.
  - intros E. apply bind_Ok in E. destruct E as [bs [_ E]].
    apply bind_Ok in E. destruct E as [syms [_ E]].
    eapply IH; [|exact E].
    apply fold_left_inv; [exact F|].
    intros c w _ Inv. apply values_ge_1_counter_add; [exact Inv | lia].
Qed.

Lemma max_by_count_spec {K} (first : K * Z) (others : list (K * Z)) :
  In (max_by_count first others) (first :: others)
  /\ forall kv, In kv (first :: others) -> (snd kv <= snd (max_by_count first others))%Z.
Proof.
  unfold max_by_count. revert first.
  induction others as [|x r IH]; intros first; simpl.
  - split; [auto|]. intros kv [<-|[]]. lia.
  - destruct (snd first <? snd x)%Z eqn:C.
    + apply Z.ltb_lt in C. destruct (IH x) as [I M]. split.
      * destruct I as [E|I]; [right; left; exact E | right; right; exact I].
      * intros kv [<-|[<-|I']].
        -- specialize (M x (or_introl eq_refl)). lia.
        -- apply M. left; reflexivity.
        -- apply M. right; exact I'.
    + apply Z.ltb_ge in C. destruct (IH first) as [I M]. split.
      * destruct I as [E|I]; [left; exact E | right; right; exact I].
      * intros kv [<-|[<-|I']].
        -- apply M. left; reflexivity.
        -- specialize (M first (or_introl eq_refl)). lia.
        -- apply M. right; exact I'.
Qed.

Lemma NoDup_keys_counter_add {K} `{PyEq K} (c : dict K Z) (k : K) (n : Z) :
  NoDup (PyDict.keys c) -> NoDup (PyDict.keys (counter_add c k n)).
Proof. apply PyDictFacts.NoDup_keys_set. Qed.

Lemma get_stats_NoDup (word_freqs : dict word Z) :
  NoDup (PyDict.keys (get_stats word_freqs)).
Proof.
  unfold get_stats. apply fold_left_inv; [constructor|].
  intros pairs wf _ Inv. apply fold_left_inv; [exact Inv|].
  intros pairs' p _ Inv'. apply NoDup_keys_counter_add. exact Inv'.
Qed.

(** What one round of the merge loop does. *)
Lemma train_step_spec word_freqs vocab0 merges0 p f word_freqs' vocab' merges' :
  train_step (word_freqs, vocab0, merges0) = Some (p, f, (word_freqs', vocab', merges')) ->
  PyDict.get (get_stats word_freqs) p = Some f
  /\ (forall q g, PyDict.get (get_stats word_freqs) q = Some g -> (g <= f)%Z)
  /\ word_freqs' = merge_vocab p word_freqs
  /\ merges' = merges0 ++ [p]
  /\ vocab' = (if PyDict.mem vocab0 (fst p ++ snd p) then vocab0
               else PyDict.set vocab0 (fst p ++ snd p) (len vocab0)).
Proof.
  unfold train_step. pose proof (get_stats_NoDup word_freqs) as ND.
  destruct (get_stats word_freqs) as [|first others] eqn:S; [discriminate|].
  destruct (max_by_count_spec first others) as [I M].
  destruct (max_by_count first others) as [best freq].
  intros E. inversion E; subst. clear E.
  split; [apply PyDictFacts.In_get; assumption|].
  split; [|auto].
  intros q g G. apply PyDictFacts.get_In in G. exact (M _ G).
Qed.

Lemma train_step_None (st : dict word Z * dict token Z * list merge_pair) :
  train_step st = None <-> get_stats (fst (fst st)) = [].
Proof.
  destruct st as [[word_freqs vocab0] merges0]. simpl.
  destruct (get_stats word_freqs) as [|first others]; [tauto|].
  destruct (max_by_count first others). split; discriminate.
Qed.

Definition train_state : Type :=
  (dict word Z * dict token Z * list merge_pair)%type.

Definition st_word_freqs (st : train_state) : dict word Z := fst (fst st).
Definition st_vocab (st : train_state) : dict token Z := snd (fst st).
Definition st_merges (st : train_state) : list merge_pair := snd st.

(** [len(self.vocab)] right after the base vocabulary is built. *)
Definition base_alphabet_size (texts : list str) : result Z :=
  word_freqs <- count_words texts [] ;; Ok (len (base_vocab word_freqs)).

Lemma train_step_Some_inv (st : train_state) p f st' :
  train_step st = Some (p, f, st') ->
  st_merges st' = st_merges st ++ [p]
  /\ st_word_freqs st' = merge_vocab p (st_word_freqs st)
  /\ (length (st_vocab st) <= length (st_vocab st') <= S (length (st_vocab st)))%nat
  /\ PyDict.get (get_stats (st_word_freqs st)) p = Some f
  /\ (forall q g, PyDict.get (get_stats (st_word_freqs st)) q = Some g -> (g <= f)%Z).
Proof.
  destruct st as [[wf v] m], st' as [[wf' v'] m']. intros E.
  apply train_step_spec in E. destruct E as [G [M [-> [-> ->]]]].
  unfold st_merges, st_word_freqs, st_vocab; simpl.
  repeat split; auto.
  - destruct (PyDict.mem v (fst p ++ snd p)) eqn:Mem; [lia|].
    rewrite PyDictFacts.length_set, Mem. lia.
  - destruct (PyDict.mem v (fst p ++ snd p)) eqn:Mem; [lia|].
    rewrite PyDictFacts.length_set, Mem. lia.
Qed.

Lemma train_loop_log (n : nat) :
  forall st : train_state,
    st_merges (train_loop n st) = st_merges st ++ map fst (train_log n st)
    /\ (length (train_log n st) <= n)%nat
    /\ (length (st_vocab st) <= length (st_vocab (train_loop n st))
        <= length (st_vocab st) + length (train_log n st))%nat
    /\ ((length (train_log n st) < n)%nat ->
        get_stats (st_word_freqs (train_loop n st)) = [])
    /\ (values_ge_1 (st_word_freqs st) ->
        Forall (fun pf => (1 <= snd pf)%Z) (train_log n st)).
Proof.
  induction n as [|n IH]; intros st; simpl.
  - rewrite app_nil_r. repeat split; try lia. intros _. constructor.
  - destruct (train_step st) as [[[p f] st']|] eqn:E.
    + destruct (train_step_Some_inv _ E) as [Em [Ew [Lv [G _]]]].
      destruct (IH st') as [IHm [IHl [IHv [IHs IHf]]]].
      cbn [map length fst]. rewrite IHm, Em, <- app_assoc.
      split; [reflexivity|]. split; [lia|]. split; [lia|]. split.
      * intros L. apply IHs. lia.
      * intros F. constructor.
        -- cbn [snd]. exact (values_ge_1_get _ (get_stats_ge_1 F) G).
        -- apply IHf. rewrite Ew. apply merge_vocab_ge_1. exact F.
    + cbn [map length]. rewrite app_nil_r.
      split; [reflexivity|]. split; [lia|]. split; [lia|]. split.
      * intros _. apply train_step_None in E. exact E.
      * intros _. constructor.
Qed.

(** The [i]-th pair of the log was chosen in the state reached after [i]
    rounds, where it had the logged count and no pair had a larger one. *)
Lemma train_log_nth (n : nat) :
  forall (st : train_state) (i : nat) p f,
    nth_error (train_log n st) i = Some (p, f) ->
    let st_i := train_loop i st in
    PyDict.get (get_stats (st_word_freqs st_i)) p = Some f
    /\ (forall q g, PyDict.get (get_stats (st_word_freqs st_i)) q = Some g -> (g <= f)%Z).
Proof.
  induction n as [|n IH]; intros st i p f; simpl.
  - destruct i; discriminate.
  - destruct (train_step st) as [[[p0 f0] st']|] eqn:E.
    + destruct i as [|i]; simpl.
      * intros [= <- <-]. destruct (train_step_Some_inv _ E) as [_ [_ [_ [G M]]]].
        split; assumption.
      * intros N. rewrite E. apply (IH st' i p f N).
    + destruct i; discriminate.
Qed.

Lemma train_unfold (target : Z) (texts : list str) (word_freqs : dict word Z) :
  count_words texts [] = Ok word_freqs ->
  let st0 : train_state := (word_freqs, base_vocab word_freqs, []) in
  let st := train_loop (Z.to_nat (target - len (base_vocab word_freqs))) st0 in
  train target texts
  = Ok {| vocab_size := target; vocab := st_vocab st; merges := st_merges st |}.
Proof.
  intros E. unfold train. rewrite E. simpl.
  destruct (train_loop _ _) as [[wf v] m]. reflexivity.
Qed.

(** *** A call of [train] on any tokenizer *)

Lemma train_step_merges (wf : dict word Z) (v : dict token Z) (m0 : list merge_pair) :
  train_step (wf, v, m0)
  = match train_step (wf, v, []) with
    | None => None
    | Some (p, f, (wf', v', m')) => Some (p, f, (wf', v', m0 ++ m'))
    end.
Proof.
  unfold train_step. destruct (get_stats wf) as [|first others]; [reflexivity|].
  destruct (max_by_count first others) as [best freq]. reflexivity.
Qed.

Lemma train_loop_merges (n : nat) :
  forall (wf : dict word Z) (v : dict token Z) (m0 : list merge_pair),
    train_loop n (wf, v, m0)
    = (st_word_freqs (train_loop n (wf, v, [])),
       st_vocab (train_loop n (wf, v, [])),
       m0 ++ st_merges (train_loop n (wf, v, []))).
Proof.
  induction n as [|n IH]; intros wf v m0; cbn [train_loop].
  - unfold st_word_freqs, st_vocab, st_merges. cbn [fst snd].
    rewrite app_nil_r. reflexivity.
  - rewrite (train_step_merges wf v m0).
    destruct (train_step (wf, v, [])) as [[[p f] [[wf' v'] m']]|] eqn:E.
    + rewrite (IH wf' v' (m0 ++ m')), (IH wf' v' m').
      unfold st_word_freqs, st_vocab, st_merges. cbn [fst snd].
      rewrite app_assoc. reflexivity.
    + unfold st_word_freqs, st_vocab, st_merges. cbn [fst snd].
      rewrite app_nil_r. reflexivity.
Qed.

Lemma train_again_unfold (tk0 : tokenizer) (texts : list str) (word_freqs : dict word Z) :
  count_words texts [] = Ok word_freqs ->
  let st0 : train_state := (word_freqs, base_vocab word_freqs, []) in
  let st := train_loop (Z.to_nat (vocab_size tk0 - len (base_vocab word_freqs))) st0 in
  train_again tk0 texts
  = Ok {| vocab_size := vocab_size tk0; vocab := st_vocab st;
          merges := merges tk0 ++ st_merges st |}.
Proof.
  intros C. cbn zeta. unfold train_again. rewrite C. cbn [bind].
  rewrite (train_loop_merges _ word_freqs (base_vocab word_freqs) (merges tk0)).
  reflexivity.
Qed.

(** [train] on a fresh tokenizer is the case of an empty merge table. *)
Lemma train_fresh (target : Z) (v : dict token Z) (texts : list str) :
  train target texts
  = train_again {| vocab_size := target; vocab := v; merges := [] |} texts.
Proof. reflexivity. Qed.

(** What a call of [train] leaves: the vocabulary of a fresh training on
    the same corpus with the same target, and the pairs of that training
    after the pairs the merge table had. *)
Lemma train_again_inv (tk0 tk : tokenizer) (texts : list str) :
  train_again tk0 texts = Ok tk ->
  exists fresh,
    train (vocab_size tk0) texts = Ok fresh
    /\ vocab_size tk = vocab_size tk0
    /\ vocab tk = vocab fresh
    /\ merges tk = merges tk0 ++ merges fresh.
Proof.
  intros E. assert (exists wf, count_words texts [] = Ok wf) as [wf C].
  { unfold train_again in E. apply bind_Ok in E. destruct E as [wf [C _]]. eauto. }
  rewrite (train_again_unfold tk0 _ C) in E. inversion E; subst tk; clear E.
  eexists. split; [apply (train_unfold _ _ C)|]. cbn [vocab_size vocab merges]. auto.
Qed.

(** C2 (as the code has it).  The merge loop leaves early exactly when the
    pair table is empty: there is no threshold on the count.  The merge
    table of the trained tokenizer is the list of the pairs chosen round by
    round, and each of them had, in the state it was chosen in, a count of
    at least 1 that no other pair exceeded. *)
Theorem C2_merge_loop_stops_on_empty_pairs
    (target : Z) (texts : list str) (word_freqs : dict word Z)
    (Hcount : count_words texts [] = Ok word_freqs) :
  let st0 : train_state := (word_freqs, base_vocab word_freqs, []) in
  let n := Z.to_nat (target - len (base_vocab word_freqs)) in
  (forall st : train_state,
      train_step st = None <-> get_stats (st_word_freqs st) = [])
  /\ ((length (train_log n st0) < n)%nat ->
      get_stats (st_word_freqs (train_loop n st0)) = [])
  /\ (exists tk, train target texts = Ok tk
                 /\ merges tk = map fst (train_log n st0))
  /\ (forall i p f,
        nth_error (train_log n st0) i = Some (p, f) ->
        (1 <= f)%Z
        /\ PyDict.get (get_stats (st_word_freqs (train_loop i st0))) p = Some f
        /\ forall q g,
             PyDict.get (get_stats (st_word_freqs (train_loop i st0))) q = Some g ->
             (g <= f)%Z).
Proof.
  intros st0 n.
  destruct (train_loop_log n st0) as [Em [_ [_ [Es Ef]]]].
  split; [exact train_step_None|]. split; [exact Es|]. split.
  - eexists. split; [apply train_unfold; exact Hcount|]. exact Em.
  - intros i p f N. split.
    + assert (F : values_ge_1 (st_word_freqs st0)).
      { eapply count_words_ge_1; [|exact Hcount]. constructor. }
      specialize (Ef F). rewrite Forall_forall in Ef.
      apply nth_error_In in N. exact (Ef _ N).
    + exact (train_log_nth n st0 i N).
Qed.

Lemma C2_merge_loop_witness :
  exists tk, train 4 [[s_a; s_b]] = Ok tk
             /\ merges tk
                = map fst (train_log (Z.to_nat (4 - len (base_vocab [(word_tuple [symbol_of s_a; symbol_of s_b], 1%Z)])))
                             ([(word_tuple [symbol_of s_a; symbol_of s_b], 1%Z)],
                              base_vocab [(word_tuple [symbol_of s_a; symbol_of s_b], 1%Z)], [])).
Proof.
  refine (proj1 (proj2 (proj2
    (@C2_merge_loop_stops_on_empty_pairs 4 [[s_a; s_b]]
       [(word_tuple [symbol_of s_a; symbol_of s_b], 1%Z)] _)))).
  vm_compute. reflexivity.
Defined.

(** C2 as stated fails: on the corpus ["ab"] with target size 4 no pair
    occurs twice, yet the loop does not stop and records [(a, b)], chosen
    with count 1. *)
Lemma C2_counterexample :
  exists word_freqs tk,
    count_words [[s_a; s_b]] [] = Ok word_freqs
    /\ (forall p f, PyDict.get (get_stats word_freqs) p = Some f -> (f < 2)%Z)
    /\ train_log 1 (word_freqs, base_vocab word_freqs, []) = [(([s_a], [s_b]), 1%Z)]
    /\ train 4 [[s_a; s_b]] = Ok tk
    /\ merges tk = [([s_a], [s_b])].
Proof.
  exists [(word_tuple [s_a; s_b], 1%Z)].
  eexists. split; [vm_compute; reflexivity|]. split.
  - intros p f G. apply PyDictFacts.get_In in G.
    vm_compute in G. destruct G as [E|[E|[]]]; inversion E; lia.
  - split; [vm_compute; reflexivity|]. split; [vm_compute; reflexivity|].
    reflexivity.
Qed.




(** Training the tokenizer of [ex_train_aa_aaab] again on its corpus leaves
    two pairs in the merge table, more than [max(0, 4 - 3)]: the bound is
    one on the pairs a call appends. *)
Example ex_train_twice :
  exists tk1 tk2,
    train 4 [[s_a; s_a]; [s_a; s_a; s_a; s_b]] = Ok tk1
    /\ train_again tk1 [[s_a; s_a]; [s_a; s_a; s_a; s_b]] = Ok tk2
    /\ merges tk2 = [([s_a], [s_a]); ([s_a], [s_a])]
    /\ len (vocab tk2) = 4%Z.
Proof.
  eexists. eexists. split; [vm_compute; reflexivity|].
  split; [vm_compute; reflexivity|]. split; reflexivity.
Qed.


(** ** UTF-8 *)

(** Arithmetic with quotients and remainders by constants. *)
Ltac ndm := zify; Z.to_euclidean_division_equations; lia.

Lemma lor_shiftl_low (hi lo k : N) :
  (lo < 2 ^ k)%N -> N.lor (N.shiftl hi k) lo = (hi * 2 ^ k + lo)%N.
Proof.
  intros L.
  assert (Z0 : N.land (N.shiftl hi k) lo = 0%N).
  { apply N.bits_inj. intros n. rewrite N.land_spec, N.bits_0.
    destruct (n <? k)%N eqn:C.
    - apply N.ltb_lt in C. rewrite N.shiftl_spec_low by exact C. reflexivity.
    - apply N.ltb_ge in C.
      assert (T : N.testbit lo n = false).
      { apply N.testbit_false. rewrite N.div_small; [reflexivity|].
        apply N.lt_le_trans with (2 ^ k)%N; [exact L|].
        apply N.pow_le_mono_r; [discriminate | exact C]. }
      rewrite T. apply andb_false_r. }
  rewrite <- N.lxor_lor by exact Z0.
  rewrite <- N.add_nocarry_lxor by exact Z0.
  rewrite N.shiftl_mul_pow2. reflexivity.
Qed.

Lemma lor_0x80 (x : N) : (x < 64)%N -> N.lor 0x80 x = (128 + x)%N.
Proof. intros L. exact (@lor_shiftl_low 2%N x 6%N L). Qed.

Lemma lor_0xC0 (x : N) : (x < 32)%N -> N.lor 0xC0 x = (192 + x)%N.
Proof. intros L. exact (@lor_shiftl_low 6%N x 5%N L). Qed.

Lemma lor_0xE0 (x : N) : (x < 16)%N -> N.lor 0xE0 x = (224 + x)%N.
Proof. intros L. exact (@lor_shiftl_low 14%N x 4%N L). Qed.

Lemma lor_0xF0 (x : N) : (x < 8)%N -> N.lor 0xF0 x = (240 + x)%N.
Proof. intros L. exact (@lor_shiftl_low 30%N x 3%N L). Qed.

Lemma land_0x3F (x : N) : N.land x 0x3F = (x mod 64)%N.
Proof. exact (N.land_ones x 6%N). Qed.

Lemma land_0x1F (x : N) : N.land x 0x1F = (x mod 32)%N.
Proof. exact (N.land_ones x 5%N). Qed.

Lemma land_0x0F (x : N) : N.land x 0x0F = (x mod 16)%N.
Proof. exact (N.land_ones x 4%N). Qed.

Lemma land_0x07 (x : N) : N.land x 0x07 = (x mod 8)%N.
Proof. exact (N.land_ones x 3%N). Qed.

(** A character of a Python string that [encode('utf-8')] accepts. *)
Definition is_scalar (c : N) : bool := (c <? 0x110000)%N && negb (is_surrogate c).

Definition valid_text (text : str) : Prop := Forall (fun c => is_scalar c = true) text.

(** The bytes of one character, by quotients and remainders. *)
Definition utf8_bytes (c : N) : list N :=
  if (c <? 0x80)%N then [c]
  else if (c <? 0x800)%N then [192 + c / 64; 128 + c mod 64]%N
  else if (c <? 0x10000)%N then
    [224 + c / 4096; 128 + (c / 64) mod 64; 128 + c mod 64]%N
  else [240 + c / 262144; 128 + (c / 4096) mod 64;
        128 + (c / 64) mod 64; 128 + c mod 64]%N.

Lemma utf8_encode_char_scalar (c : N) :
  is_scalar c = true -> utf8_encode_char c = Ok (utf8_bytes c).
Proof.
  unfold is_scalar, utf8_encode_char, utf8_bytes. intros V.
  apply andb_true_iff in V. destruct V as [V1 V2].
  apply negb_true_iff in V2. apply N.ltb_lt in V1.
  rewrite !N.shiftr_div_pow2, !land_0x3F.
  change (2 ^ 6)%N with 64%N. change (2 ^ 12)%N with 4096%N.
  change (2 ^ 18)%N with 262144%N.
  destruct (c <? 0x80)%N eqn:C1; [reflexivity|].
  destruct (c <? 0x800)%N eqn:C2.
  { apply N.ltb_lt in C2. rewrite lor_0xC0 by ndm. rewrite lor_0x80 by ndm.
    reflexivity. }
  destruct (c <? 0x10000)%N eqn:C3.
  { rewrite V2. apply N.ltb_lt in C3.
    rewrite lor_0xE0 by ndm. rewrite !lor_0x80 by ndm. reflexivity. }
  rewrite (proj2 (N.ltb_lt _ _) V1).
  rewrite lor_0xF0 by ndm. rewrite !lor_0x80 by ndm. reflexivity.
Qed.

Lemma utf8_bytes_lt_256 (c : N) :
  is_scalar c = true -> Forall (fun b => (b < 256)%N) (utf8_bytes c).
Proof.
  unfold is_scalar, utf8_bytes. intros V.
  apply andb_true_iff in V. destruct V as [V1 _]. apply N.ltb_lt in V1.
  destruct (c <? 0x80)%N eqn:C1; [apply N.ltb_lt in C1; repeat constructor; lia|].
  destruct (c <? 0x800)%N eqn:C2; [apply N.ltb_lt in C2; repeat constructor; ndm|].
  destruct (c <? 0x10000)%N eqn:C3; [apply N.ltb_lt in C3|];
    repeat constructor; ndm.
Qed.

Lemma is_continuation_128 (x : N) : (x < 64)%N -> is_continuation (128 + x) = true.
Proof.
  intros L. unfold is_continuation. apply andb_true_iff.
  split; apply N.leb_le; lia.
Qed.

Ltac ltb_true a b :=
  replace (a <? b)%N with true by (symmetry; apply N.ltb_lt; ndm).
Ltac ltb_false a b :=
  replace (a <? b)%N with false by (symmetry; apply N.ltb_ge; ndm).
Ltac eqb_false a b :=
  replace (a =? b)%N with false by (symmetry; apply N.eqb_neq; ndm).
Ltac step_if :=
  match goal with
  | |- context [if (?a <? ?b)%N then _ else _] =>
      first [ltb_true a b | ltb_false a b]; cbv beta iota
  end.

Lemma decode_one_1 (c : N) (rest : list N) :
  (c < 0x80)%N -> utf8_decode_one c rest = (c, 1%nat).
Proof. intros L. cbv [utf8_decode_one]. step_if. reflexivity. Qed.

Lemma decode_one_2 (c : N) (rest : list N) :
  (0x80 <= c < 0x800)%N ->
  utf8_decode_one (192 + c / 64) ((128 + c mod 64)%N :: rest) = (c, 2%nat).
Proof.
  intros L. cbv [utf8_decode_one]. do 3 step_if.
  rewrite is_continuation_128 by ndm.
  rewrite land_0x1F, land_0x3F, lor_shiftl_low by ndm.
  f_equal. ndm.
Qed.

Lemma decode_one_3 (c : N) (rest : list N) :
  (0x800 <= c < 0x10000)%N -> is_surrogate c = false ->
  utf8_decode_one (224 + c / 4096)
    ((128 + (c / 64) mod 64)%N :: (128 + c mod 64)%N :: rest) = (c, 3%nat).
Proof.
  intros L S. unfold is_surrogate in S. apply andb_false_iff in S.
  assert (S' : (c < 0xD800 \/ 0xDFFF < c)%N).
  { destruct S as [S|S]; apply N.leb_gt in S; [left | right]; exact S. }
  clear S. cbv [utf8_decode_one]. do 4 step_if.
  rewrite !is_continuation_128 by ndm. cbn [negb orb].
  destruct (128 + (c / 64) mod 64 <? 160)%N eqn:C.
  - apply N.ltb_lt in C. eqb_false (224 + c / 4096)%N 224%N. cbv beta iota.
    rewrite land_0x0F, !land_0x3F.
    rewrite (@lor_shiftl_low _ _ 6) by ndm. rewrite lor_shiftl_low by ndm.
    f_equal. ndm.
  - apply N.ltb_ge in C. eqb_false (224 + c / 4096)%N 237%N. cbv beta iota.
    rewrite land_0x0F, !land_0x3F.
    rewrite (@lor_shiftl_low _ _ 6) by ndm. rewrite lor_shiftl_low by ndm.
    f_equal. ndm.
Qed.

Lemma decode_one_4 (c : N) (rest : list N) :
  (0x10000 <= c < 0x110000)%N ->
  utf8_decode_one (240 + c / 262144)
    ((128 + (c / 4096) mod 64)%N :: (128 + (c / 64) mod 64)%N
       :: (128 + c mod 64)%N :: rest) = (c, 4%nat).
Proof.
  intros L. cbv [utf8_decode_one]. do 5 step_if.
  rewrite !is_continuation_128 by ndm. cbn [negb orb].
  destruct (128 + (c / 4096) mod 64 <? 144)%N eqn:C.
  - apply N.ltb_lt in C. eqb_false (240 + c / 262144)%N 240%N. cbv beta iota.
    rewrite land_0x07, !land_0x3F.
    rewrite (@lor_shiftl_low _ _ 6) by ndm.
    rewrite (@lor_shiftl_low _ _ 12) by ndm.
    rewrite lor_shiftl_low by ndm.
    f_equal. ndm.
  - apply N.ltb_ge in C. eqb_false (240 + c / 262144)%N 244%N. cbv beta iota.
    rewrite land_0x07, !land_0x3F.
    rewrite (@lor_shiftl_low _ _ 6) by ndm.
    rewrite (@lor_shiftl_low _ _ 12) by ndm.
    rewrite lor_shiftl_low by ndm.
    f_equal. ndm.
Qed.

Lemma utf8_decode_from_skip (tl rest : list N) :
  utf8_decode_from (length tl) (tl ++ rest) = utf8_decode_from 0 rest.
Proof.
  induction tl as [|b r IH]; [reflexivity|]. exact IH.
Qed.

Lemma is_scalar_cases (c : N) :
  is_scalar c = true ->
  (c < 0x110000)%N /\ is_surrogate c = false.
Proof.
  unfold is_scalar. intros V. apply andb_true_iff in V. destruct V as [V1 V2].
  apply N.ltb_lt in V1. apply negb_true_iff in V2. auto.
Qed.

Lemma utf8_roundtrip_char (c : N) (rest : list N) :
  is_scalar c = true ->
  utf8_decode_from 0 (utf8_bytes c ++ rest) = c :: utf8_decode_from 0 rest.
Proof.
  intros V. destruct (is_scalar_cases c V) as [V1 V2]. unfold utf8_bytes.
  destruct (c <? 0x80)%N eqn:C1.
  { apply N.ltb_lt in C1. cbn [app utf8_decode_from].
    rewrite decode_one_1 by exact C1. reflexivity. }
  apply N.ltb_ge in C1.
  destruct (c <? 0x800)%N eqn:C2.
  { apply N.ltb_lt in C2. cbn [app utf8_decode_from].
    rewrite decode_one_2 by lia. cbn [Nat.sub utf8_decode_from]. reflexivity. }
  apply N.ltb_ge in C2.
  destruct (c <? 0x10000)%N eqn:C3.
  { apply N.ltb_lt in C3. cbn [app utf8_decode_from].
    rewrite decode_one_3 by (lia || exact V2).
    cbn [Nat.sub utf8_decode_from]. reflexivity. }
  apply N.ltb_ge in C3. cbn [app utf8_decode_from].
  rewrite decode_one_4 by lia. cbn [Nat.sub utf8_decode_from]. reflexivity.
Qed.

Lemma utf8_encode_valid (text : str) :
  valid_text text -> utf8_encode text = Ok (flat_map utf8_bytes text).
Proof.
  intros V. unfold utf8_encode.
  rewrite (@mapM_Ok_total _ _ utf8_encode_char utf8_bytes text).
  - cbn [bind]. rewrite flat_map_concat_map. reflexivity.
  - unfold valid_text in V. rewrite Forall_forall in *.
    intros c I. apply utf8_encode_char_scalar. exact (V c I).
Qed.

Lemma utf8_encode_char_Ok (c : N) (bs : list N) :
  utf8_encode_char c = Ok bs -> is_scalar c = true.
Proof.
  unfold utf8_encode_char, is_scalar.
  destruct (c <? 0x80)%N eqn:C1.
  { intros _. apply N.ltb_lt in C1. unfold is_surrogate.
    replace (0xD800 <=? c)%N with false by (symmetry; apply N.leb_gt; lia).
    replace (c <? 0x110000)%N with true by (symmetry; apply N.ltb_lt; lia).
    reflexivity. }
  destruct (c <? 0x800)%N eqn:C2.
  { intros _. apply N.ltb_lt in C2. unfold is_surrogate.
    replace (0xD800 <=? c)%N with false by (symmetry; apply N.leb_gt; lia).
    replace (c <? 0x110000)%N with true by (symmetry; apply N.ltb_lt; lia).
    reflexivity. }
  destruct (c <? 0x10000)%N eqn:C3.
  { apply N.ltb_lt in C3.
    replace (c <? 0x110000)%N with true by (symmetry; apply N.ltb_lt; lia).
    destruct (is_surrogate c); [discriminate | reflexivity]. }
  destruct (c <? 0x110000)%N eqn:C4; [|discriminate].
  intros _. apply N.ltb_ge in C3. unfold is_surrogate.
  replace (c <=? 0xDFFF)%N with false by (symmetry; apply N.leb_gt; lia).
  rewrite andb_false_r. reflexivity.
Qed.

Lemma utf8_encode_inv (text : str) (bs : list N) :
  utf8_encode text = Ok bs -> valid_text text /\ bs = flat_map utf8_bytes text.
Proof.
  intros E. assert (V : valid_text text).
  { unfold utf8_encode in E. apply bind_Ok in E. destruct E as [chunks [E _]].
    revert chunks E. induction text as [|c r IH]; intros chunks E; [constructor|].
    cbn [mapM] in E. apply bind_Ok in E. destruct E as [y [Ey E]].
    apply bind_Ok in E. destruct E as [ys [Eys _]].
    constructor; [exact (utf8_encode_char_Ok _ Ey) | exact (IH _ Eys)]. }
  split; [exact V|]. rewrite (utf8_encode_valid V) in E. inversion E; reflexivity.
Qed.

Lemma utf8_bytes_text_lt_256 (text : str) :
  valid_text text -> Forall (fun b => (b < 256)%N) (flat_map utf8_bytes text).
Proof.
  induction 1 as [|c r V _ IH]; [constructor|].
  cbn [flat_map]. apply Forall_app. split; [apply utf8_bytes_lt_256; exact V | exact IH].
Qed.

(** UTF-8 decoding undoes UTF-8 encoding. *)
Lemma utf8_roundtrip (text : str) :
  valid_text text -> utf8_decode (flat_map utf8_bytes text) = text.
Proof.
  unfold utf8_decode. induction 1 as [|c r V _ IH]; [reflexivity|].
  cbn [flat_map]. rewrite utf8_roundtrip_char by exact V. rewrite IH. reflexivity.
Qed.

(** ** Segmenter *)

Lemma symbols_not_space :
  forallb (fun b => negb (is_space (symbol_of b))) (range 0 256) = true.
Proof. vm_compute. reflexivity. Qed.

Lemma symbol_of_not_space (b : N) : (b < 256)%N -> is_space (symbol_of b) = false.
Proof.
  intros L. pose proof symbols_not_space as A. rewrite forallb_forall in A.
  assert (I : In b (range 0 256)) by (apply In_range; lia).
  specialize (A b I). cbv beta in A.
  destruct (is_space (symbol_of b)); [discriminate A | reflexivity].
Qed.

Lemma findall_runs_nonempty (s : str) :
  Forall (fun run => run <> []) (findall_runs s).
Proof.
  induction s as [|c r IH]; [constructor|]. cbn [findall_runs].
  destruct (findall_runs r) as [|[|d run] runs].
  - repeat constructor. discriminate.
  - repeat constructor. discriminate.
  - inversion IH; subst.
    destruct (Bool.eqb (is_space c) (is_space d)); repeat constructor;
      try discriminate; assumption.
Qed.

(** The runs are the text cut in pieces: nothing is dropped. *)
Lemma findall_runs_concat (s : str) : concat (findall_runs s) = s.
Proof.
  induction s as [|c r IH]; [reflexivity|]. cbn [findall_runs].
  pose proof (findall_runs_nonempty r) as NE.
  destruct (findall_runs r) as [|[|d run] runs].
  - simpl in IH. subst r. reflexivity.
  - inversion NE; subst. congruence.
  - destruct (Bool.eqb (is_space c) (is_space d)); simpl in *; subst r; reflexivity.
Qed.

(** A text without white space is one word. *)
Lemma findall_runs_one_word (s : str) :
  Forall (fun c => is_space c = false) s ->
  findall_runs s = match s with [] => [] | _ :: _ => [s] end.
Proof.
  induction 1 as [|c r Hc Hr IH]; [reflexivity|]. cbn [findall_runs].
  rewrite IH. destruct r as [|d r']; [reflexivity|].
  inversion Hr; subst. rewrite Hc, H1. reflexivity.
Qed.

Lemma encoded_text_one_word (bs : list N) :
  Forall (fun b => (b < 256)%N) bs ->
  findall_runs (map symbol_of bs)
  = match bs with [] => [] | _ :: _ => [map symbol_of bs] end.
Proof.
  intros F. rewrite findall_runs_one_word.
  - destruct bs; reflexivity.
  - apply Forall_map. rewrite Forall_forall in *. intros b I.
    apply symbol_of_not_space. exact (F b I).
Qed.

(** ** Codec: [decode] *)

Section Invert.
Context {K V : Type} `{PyEq V}.
Implicit Types (d : dict K V) (acc : dict V K).

Let step := fun acc (kv : K * V) => PyDict.set acc (snd kv) (fst kv).

Lemma invert_fold_absent d acc (v : V) :
  ~ In v (map snd d) ->
  PyDict.get (fold_left step d acc) v = PyDict.get acc v.
Proof.
  revert acc; induction d as [|[k0 v0] r IH]; intros acc N; [reflexivity|].
  cbn [fold_left]. rewrite IH by (intros I; apply N; right; exact I).
  unfold step; cbn [fst snd]. apply PyDictFacts.get_set_other.
  intros ->. apply N. left; reflexivity.
Qed.

Lemma invert_fold_present d acc (k : K) (v : V) :
  NoDup (map snd d) -> In (k, v) d ->
  PyDict.get (fold_left step d acc) v = Some k.
Proof.
  revert acc; induction d as [|[k0 v0] r IH]; intros acc ND I; [destruct I|].
  cbn [map snd] in ND. inversion ND as [|? ? NI ND']; subst.
  cbn [fold_left]. destruct I as [E|I].
  - inversion E; subst. rewrite invert_fold_absent by exact NI.
    unfold step; cbn [fst snd]. apply PyDictFacts.get_set_same.
  - apply IH; assumption.
Qed.

Lemma invert_fold_sound d acc (k : K) (v : V) :
  PyDict.get (fold_left step d acc) v = Some k ->
  In (k, v) d \/ PyDict.get acc v = Some k.
Proof.
  revert acc; induction d as [|[k0 v0] r IH]; intros acc G; [right; exact G|].
  cbn [fold_left] in G. apply IH in G. destruct G as [I|G]; [left; right; exact I|].
  unfold step in G; cbn [fst snd] in G.
  destruct (py_eqb v0 v) eqn:E.
  - apply py_eqb_eq in E. subst v0. rewrite PyDictFacts.get_set_same in G.
    inversion G; subst. left; left; reflexivity.
  - apply py_eqb_neq in E. rewrite PyDictFacts.get_set_other in G by exact E.
    right; exact G.
Qed.

Lemma invert_None d (v : V) :
  ~ In v (map snd d) -> PyDict.get (invert d) v = None.
Proof. intros N. unfold invert. rewrite invert_fold_absent by exact N. reflexivity. Qed.

Lemma invert_Some d (k : K) (v : V) :
  NoDup (map snd d) -> In (k, v) d -> PyDict.get (invert d) v = Some k.
Proof. intros ND I. unfold invert. apply invert_fold_present; assumption. Qed.

Lemma invert_sound d (k : K) (v : V) :
  PyDict.get (invert d) v = Some k -> In (k, v) d.
Proof.
  intros G. unfold invert in G. apply invert_fold_sound in G.
  destruct G as [I|G]; [exact I | discriminate G].
Qed.
End Invert.

Lemma flat_map_filter {A B} (f : A -> list B) (p : A -> bool) (l : list A) :
  (forall x, p x = false -> f x = []) ->
  flat_map f l = flat_map f (filter p l).
Proof.
  intros Z. induction l as [|x r IH]; [reflexivity|]. cbn [flat_map filter].
  destruct (p x) eqn:E; cbn [flat_map]; rewrite IH; [reflexivity|].
  rewrite (Z x E). reflexivity.
Qed.

Lemma mapM_Raise {A B} (f : A -> result B) (l : list A) (x : A) (e : error) :
  In x l -> f x = Raise e -> exists e', mapM f l = Raise e'.
Proof.
  induction l as [|y r IH]; intros I E; [destruct I|]. cbn [mapM].
  destruct I as [->|I].
  - rewrite E. cbn [bind]. eauto.
  - destruct (f y); cbn [bind]; [|eauto].
    destruct (IH I E) as [e' ->]. cbn [bind]. eauto.
Qed.

(** The ids that are the id of some vocabulary entry. *)
Definition known_id (tk : tokenizer) (tid : Z) : bool :=
  list_mem tid (map snd (vocab tk)).

(** C8. [decode] passes over every id that is the id of no vocabulary entry,
    without an error: the result is that of the list with those ids taken
    out; on a single such id, and on any list of such ids, it is the empty
    string. *)
Theorem C8_decode_skips_unknown_ids (tk : tokenizer) :
  (forall ids, decode tk ids = decode tk (filter (known_id tk) ids))
  /\ (forall tid, ~ In tid (map snd (vocab tk)) -> decode tk [tid] = [])
  /\ (forall ids, Forall (fun tid => ~ In tid (map snd (vocab tk))) ids ->
                  decode tk ids = []).
Proof.
  assert (Skip : forall tid, known_id tk tid = false ->
                  match PyDict.get (id_to_token tk) tid with
                  | Some t => [t]
                  | None => []
                  end = []).
  { intros tid E. unfold id_to_token. rewrite invert_None; [reflexivity|].
    intros I. apply list_mem_In in I. unfold known_id in E. congruence. }
  assert (Filter : forall ids, decode tk ids = decode tk (filter (known_id tk) ids)).
  { intros ids. unfold decode, decode_symbols.
    rewrite (flat_map_filter _ (known_id tk) ids Skip). reflexivity. }
  assert (Unknown : forall ids, Forall (fun tid => ~ In tid (map snd (vocab tk))) ids ->
                    filter (known_id tk) ids = []).
  { induction 1 as [|tid r N _ IH]; [reflexivity|]. cbn [filter].
    assert (E : known_id tk tid = false).
    { destruct (known_id tk tid) eqn:E; [|reflexivity].
      apply list_mem_In in E. contradiction. }
    rewrite E. exact IH. }
  split; [exact Filter|]. split.
  - intros tid N. rewrite Filter, (Unknown [tid]) by (repeat constructor; exact N).
    reflexivity.
  - intros ids F. rewrite Filter, (Unknown ids F). reflexivity.
Qed.

(** C5 (as the code has it).  When the string of symbols that [decode] has
    joined and stripped of markers holds a symbol that is no key of the byte
    decoder, [decode] does not fail and returns that string of symbols as it
    is: nothing is substituted. *)
Theorem C5_decode_falls_back_to_symbols (tk : tokenizer) (ids : list Z) (c : N)
    (Hin : In c (decode_symbols tk ids))
    (Hout : PyDict.get byte_decoder c = None) :
  decode tk ids = decode_symbols tk ids.
Proof.
  unfold decode.
  destruct (@mapM_Raise _ _ (fun c => of_option KeyError (PyDict.get byte_decoder c))
              (decode_symbols tk ids) c KeyError Hin) as [e E].
  - rewrite Hout. reflexivity.
  - unfold decode_bytes. rewrite E. reflexivity.
Qed.

(** A vocabulary as [load] can bring it: "a", " " and "b". *)
Definition tk_with_space : tokenizer :=
  {| vocab_size := 3;
     vocab := [([97%N], 0%Z); ([32%N], 1%Z); ([98%N], 2%Z)];
     merges := [] |}.

Lemma C5_decode_fallback_witness :
  decode tk_with_space [0; 1; 2]%Z = decode_symbols tk_with_space [0; 1; 2]%Z.
Proof.
  apply (@C5_decode_falls_back_to_symbols tk_with_space [0; 1; 2]%Z 32%N).
  - vm_compute. right. left. reflexivity.
  - vm_compute. reflexivity.
Defined.

(** C5 as stated fails: the space is no symbol of the byte codec, and
    decoding "a", " ", "b" gives back "a b", with no replacement character
    in the place of the space. *)
Lemma C5_counterexample :
  In 32%N (decode_symbols tk_with_space [0; 1; 2]%Z)
  /\ PyDict.get byte_decoder 32%N = None
  /\ decode tk_with_space [0; 1; 2]%Z = [97; 32; 98]%N
  /\ ~ In REPLACEMENT_CHARACTER (decode tk_with_space [0; 1; 2]%Z).
Proof.
  split; [vm_compute; right; left; reflexivity|].
  split; [vm_compute; reflexivity|].
  split; [vm_compute; reflexivity|].
  vm_compute. intros [E|[E|[E|[]]]]; discriminate E.
Qed.

(** ** Codec: [encode] *)

Lemma mapM_total {A B} (f : A -> result B) (l : list A) :
  Forall (fun x => exists y, f x = Ok y) l -> exists ys, mapM f l = Ok ys.
Proof.
  induction 1 as [|x r [y E] _ [ys IH]]; [exists []; reflexivity|].
  exists (y :: ys). cbn [mapM]. rewrite E. cbn [bind]. rewrite IH. reflexivity.
Qed.

Lemma encode_valid (tk : tokenizer) (text : str) :
  valid_text text ->
  encode tk text
  = encode_words tk (findall_runs (map symbol_of (flat_map utf8_bytes text))).
Proof.
  intros V. unfold encode. rewrite (utf8_encode_valid V). cbn [bind].
  rewrite (encode_bytes_Ok (utf8_bytes_text_lt_256 V)). reflexivity.
Qed.

Lemma encode_words_total (tk : tokenizer) (words : list str) :
  exists ids, encode_words tk words = Ok ids.
Proof.
  induction words as [|w more [ids IH]]; [exists []; reflexivity|].
  destruct (tokenize_word_total (merges tk) w) as [toks [_ [_ T]]].
  cbn [encode_words]. rewrite T. cbn [bind]. rewrite IH. cbn [bind]. eauto.
Qed.


(** The fallback of [encode] on one character of a token. *)
Definition char_ids (vocab : dict token Z) (char : N) : list Z :=
  match PyDict.get vocab [char] with
  | Some i => [i]
  | None => []
  end.

Lemma token_ids_unfold (vocab : dict token Z) (tok : token) :
  token_ids vocab tok
  = match PyDict.get vocab tok with
    | Some i => [i]
    | None => flat_map (char_ids vocab) tok
    end.
Proof. reflexivity. Qed.





(** ** Metrics *)

(** The sum of the lengths of the lists of [ls]. *)
Definition total_len {A} (ls : list (list A)) : Z :=
  fold_right Z.add 0%Z (map len ls).

Lemma sum_of_mapM {A B} (g : A -> result (list B)) (l : list A) (ys : list (list B)) :
  mapM g l = Ok ys ->
  sum_of (fun x => y <- g x ;; Ok (len y)) l = Ok (total_len ys).
Proof.
  revert ys; induction l as [|x r IH]; intros ys E; cbn [mapM] in E.
  - inversion E. reflexivity.
  - apply bind_Ok in E. destruct E as [y [Ey E]].
    apply bind_Ok in E. destruct E as [ys' [Eys E]]. inversion E; subst.
    cbn [sum_of]. rewrite Ey. cbn [bind]. rewrite (IH _ Eys). reflexivity.
Qed.

(** ** The division [int / int] is correctly rounded *)

Lemma div_nearest_even_spec (num den : Z) :
  (0 < den)%Z ->
  let m := div_nearest_even num den in
  (2 * Z.abs (m * den - num) <= den)%Z
  /\ (num / den <= m <= num / den + 1)%Z
  /\ (forall j, Z.abs (m * den - num) <= Z.abs (j * den - num))%Z
  /\ ((num mod den = 0)%Z -> m = (num / den)%Z).
Proof.
  intros D. cbn zeta. unfold div_nearest_even.
  pose proof (Z.div_mod num den ltac:(lia)) as E.
  pose proof (Z.mod_pos_bound num den D) as R.
  set (q := (num / den)%Z) in *. set (r := (num mod den)%Z) in *.
  assert (N : forall m : Z, (2 * Z.abs (m * den - num) <= den)%Z ->
                            forall j : Z, (Z.abs (m * den - num) <= Z.abs (j * den - num))%Z).
  { intros m H j. destruct (Z.eq_dec j m) as [->|NE]; [lia|].
    assert (C : (j <= m - 1 \/ m + 1 <= j)%Z) by lia.
    destruct C as [C|C]; nia. }
  destruct (2 * r <? den)%Z eqn:C1.
  - apply Z.ltb_lt in C1.
    assert (H : (2 * Z.abs (q * den - num) <= den)%Z) by nia.
    split; [exact H|]. split; [lia|]. split; [exact (N q H) | reflexivity].
  - apply Z.ltb_ge in C1. destruct (den <? 2 * r)%Z eqn:C2.
    + apply Z.ltb_lt in C2.
      assert (H : (2 * Z.abs ((q + 1) * den - num) <= den)%Z) by nia.
      split; [exact H|]. split; [lia|]. split; [exact (N _ H) | lia].
    + apply Z.ltb_ge in C2. destruct (Z.even q).
      * assert (H : (2 * Z.abs (q * den - num) <= den)%Z) by nia.
        split; [exact H|]. split; [lia|]. split; [exact (N q H) | reflexivity].
      * assert (H : (2 * Z.abs ((q + 1) * den - num) <= den)%Z) by nia.
        split; [exact H|]. split; [lia|]. split; [exact (N _ H) | lia].
Qed.

(** The scaling of [int_truediv]: the quotient of [num] by [den] has 53
    binary digits. *)
Lemma truediv_scaling (A B : Z) :
  (0 < A)%Z -> (0 < B)%Z ->
  let k := Z.max 0 (53 + Z.log2 B - Z.log2 A) in
  let num := (A * 2 ^ k)%Z in
  let d := (Z.log2 (num / B) - 52)%Z in
  let den := (B * 2 ^ d)%Z in
  (0 <= k)%Z /\ (0 <= d)%Z /\ (0 < den)%Z
  /\ (2 ^ 52 * den <= num < 2 ^ 53 * den)%Z.
Proof.
  intros HA HB. cbn zeta.
  set (k := Z.max 0 (53 + Z.log2 B - Z.log2 A)).
  set (num := (A * 2 ^ k)%Z).
  assert (Hk : (0 <= k)%Z) by (unfold k; lia).
  pose proof (Z.log2_spec A HA) as [LA _].
  pose proof (Z.log2_spec B HB) as [_ LB].
  pose proof (Z.log2_nonneg A) as NA. pose proof (Z.log2_nonneg B) as NB.
  assert (Hnum : (2 ^ 52 * B <= num)%Z).
  { assert (P1 : (2 ^ (Z.log2 A + k) <= num)%Z).
    { unfold num. rewrite Z.pow_add_r by lia.
      apply Z.mul_le_mono_nonneg_r; [apply Z.pow_nonneg; lia | exact LA]. }
    assert (P2 : (2 ^ (53 + Z.log2 B) <= 2 ^ (Z.log2 A + k))%Z)
      by (apply Z.pow_le_mono_r; unfold k; lia).
    assert (P3 : (2 ^ (53 + Z.log2 B) = 2 ^ 52 * 2 ^ Z.succ (Z.log2 B))%Z).
    { rewrite <- Z.pow_add_r by lia. f_equal. lia. }
    assert (P4 : (2 ^ 52 * B <= 2 ^ 52 * 2 ^ Z.succ (Z.log2 B))%Z)
      by (apply Z.mul_le_mono_nonneg_l; lia).
    lia. }
  assert (Hq : (2 ^ 52 <= num / B)%Z)
    by (apply Z.div_le_lower_bound; lia).
  assert (Hl : (52 <= Z.log2 (num / B))%Z).
  { change 52%Z with (Z.log2 (2 ^ 52)). apply Z.log2_le_mono. exact Hq. }
  set (l := Z.log2 (num / B)) in *.
  assert (Hd : (0 <= l - 52)%Z) by lia.
  pose proof (Z.log2_spec (num / B) ltac:(lia)) as [Q1 Q2]. fold l in Q1, Q2.
  assert (Pl : (2 ^ l = 2 ^ 52 * 2 ^ (l - 52))%Z).
  { rewrite <- Z.pow_add_r by lia. f_equal. lia. }
  assert (Pl1 : (2 ^ Z.succ l = 2 ^ 53 * 2 ^ (l - 52))%Z).
  { rewrite <- Z.pow_add_r by lia. f_equal. lia. }
  assert (Pd : (0 < 2 ^ (l - 52))%Z) by (apply Z.pow_pos_nonneg; lia).
  pose proof (Z.div_mod num B ltac:(lia)) as E.
  pose proof (Z.mod_pos_bound num B HB) as R.
  split; [exact Hk|]. split; [exact Hd|]. split; [nia|]. nia.
Qed.

Lemma div_nearest_even_tie (num den : Z) :
  (0 < den)%Z ->
  let m := div_nearest_even num den in
  forall j : Z, j <> m -> Z.abs (j * den - num) = Z.abs (m * den - num) ->
                Z.even m = true.
Proof.
  intros D. cbn zeta. unfold div_nearest_even.
  pose proof (Z.div_mod num den ltac:(lia)) as E.
  pose proof (Z.mod_pos_bound num den D) as R.
  set (q := (num / den)%Z) in *. set (r := (num mod den)%Z) in *.
  destruct (2 * r <? den)%Z eqn:C1.
  - apply Z.ltb_lt in C1. intros j NE H. exfalso.
    assert (C : (j <= q - 1 \/ q + 1 <= j)%Z) by lia. destruct C as [C|C]; nia.
  - apply Z.ltb_ge in C1. destruct (den <? 2 * r)%Z eqn:C2.
    + apply Z.ltb_lt in C2. intros j NE H. exfalso.
      assert (C : (j <= q \/ q + 2 <= j)%Z) by lia. destruct C as [C|C]; nia.
    + intros _ _ _. destruct (Z.even q) eqn:V; [exact V|].
      rewrite Z.add_1_r, Z.even_succ, <- Z.negb_even, V. reflexivity.
Qed.

Lemma two_pow_pos (e : Z) : 0 < 2 ^ e.
Proof. apply Qpower_0_lt. reflexivity. Qed.

Lemma two_pow_Z (n : Z) : (0 <= n)%Z -> 2 ^ n == inject_Z (2 ^ n).
Proof. intros H. rewrite Zpower_Qpower by exact H. reflexivity. Qed.

Lemma two_pow_split (e s : Z) : 2 ^ e == 2 ^ (e - s) * 2 ^ s.
Proof.
  rewrite <- Qpower_plus by discriminate.
  replace (e - s + s)%Z with e by lia. reflexivity.
Qed.

Lemma inject_Z_pos (z : Z) : (0 < z)%Z -> 0 < inject_Z z.
Proof. intros H. rewrite Zlt_Qlt in H. exact H. Qed.

Lemma Qabs_scale (x y u : Q) : 0 < u -> Qabs (x * u - y * u) == Qabs (x - y) * u.
Proof.
  intros U. setoid_replace (x * u - y * u) with ((x - y) * u) by ring.
  rewrite Qabs_Qmult, (Qabs_pos u) by (apply Qlt_le_weak; exact U). reflexivity.
Qed.

Lemma Qabs_inject_Z (z : Z) : Qabs (inject_Z z) == inject_Z (Z.abs z).
Proof. unfold inject_Z. rewrite <- Zabs_Qabs. reflexivity. Qed.

Lemma Qabs_frac (m N D : Z) :
  (0 < D)%Z ->
  Qabs (inject_Z m - inject_Z N / inject_Z D)
  == inject_Z (Z.abs (m * D - N)) / inject_Z D.
Proof.
  intros HD. pose proof (inject_Z_pos HD) as PD.
  assert (ND : ~ inject_Z D == 0) by (intros E; rewrite E in PD; discriminate PD).
  setoid_replace (inject_Z m - inject_Z N / inject_Z D)
    with (inject_Z (m * D - N) * / inject_Z D).
  - rewrite Qabs_Qmult, Qabs_inject_Z, Qabs_Qinv, (Qabs_pos (inject_Z D))
      by (apply Qlt_le_weak; exact PD).
    reflexivity.
  - unfold Zminus. rewrite inject_Z_plus, inject_Z_mult, inject_Z_opp. field. exact ND.
Qed.

Lemma two_pow_nonzero (e : Z) : ~ 2 ^ e == 0.
Proof. intros E. pose proof (two_pow_pos e) as P. rewrite E in P. discriminate P. Qed.

(** What [int_truediv] computes on positive ints: the quotient is
    [num / den * 2 ^ s] with [num / den] between [2 ^ 52] and [2 ^ 53], and
    the float is [m * 2 ^ s] for the integer [m] nearest to [num / den]. *)
Lemma int_truediv_pos (a b : Z) :
  (0 < a)%Z -> (0 < b)%Z ->
  exists m s num den : Z,
    (0 < den)%Z
    /\ (2 ^ 52 * den <= num < 2 ^ 53 * den)%Z
    /\ m = div_nearest_even num den
    /\ float_value (int_truediv a b) == inject_Z m * 2 ^ s
    /\ inject_Z a / inject_Z b == inject_Z num / inject_Z den * 2 ^ s
    /\ (2 ^ 52 <= mantissa (int_truediv a b) < 2 ^ 53)%Z
    /\ (Z.even m = true -> Z.even (mantissa (int_truediv a b)) = true).
Proof.
  intros HA HB.
  destruct (truediv_scaling HA HB) as [Hk [Hd [Hden Hr]]]. cbn zeta in *.
  unfold int_truediv.
  replace (a =? 0)%Z with false by (symmetry; apply Z.eqb_neq; lia).
  replace (b =? 0)%Z with false by (symmetry; apply Z.eqb_neq; lia).
  cbn [orb]. rewrite (Z.abs_eq a), (Z.abs_eq b), (Z.sgn_pos a), (Z.sgn_pos b) by lia.
  set (k := Z.max 0 (53 + Z.log2 b - Z.log2 a)) in *.
  set (num := (a * 2 ^ k)%Z) in *.
  set (d := (Z.log2 (num / b) - 52)%Z) in *.
  set (den := (b * 2 ^ d)%Z) in *.
  set (m := div_nearest_even num den).
  destruct (div_nearest_even_spec num Hden) as [_ [Hm _]]. fold m in Hm.
  assert (Hq : (2 ^ 52 <= num / den <= 2 ^ 53 - 1)%Z).
  { split; [apply Z.div_le_lower_bound; lia|].
    assert (num / den < 2 ^ 53)%Z by (apply Z.div_lt_upper_bound; lia). lia. }
  exists m, (d - k)%Z, num, den.
  split; [exact Hden|]. split; [exact Hr|]. split; [reflexivity|].
  assert (Eq : inject_Z a / inject_Z b == inject_Z num / inject_Z den * 2 ^ (d - k)).
  { unfold num, den. rewrite !inject_Z_mult, <- !two_pow_Z by lia.
    rewrite Qpower_minus by discriminate.
    field. split; [apply two_pow_nonzero|]. split; [apply two_pow_nonzero|].
    intros E. pose proof (inject_Z_pos HB) as P. rewrite E in P. discriminate P. }
  destruct (m =? 2 ^ 53)%Z eqn:C.
  - apply Z.eqb_eq in C. split; [|split; [exact Eq|]].
    + unfold float_value. cbn [mantissa exponent]. rewrite C.
      replace (d - k + 1)%Z with (1 + (d - k))%Z by lia.
      rewrite Qpower_plus by discriminate.
      change (1 * 1 * 2 ^ 52)%Z with (2 ^ 52)%Z.
      change (inject_Z (2 ^ 53)) with (inject_Z (2 ^ 52) * 2 ^ 1). ring.
    + cbn [mantissa]. split; [lia|]. intros _. reflexivity.
  - apply Z.eqb_neq in C. split; [|split; [exact Eq|]].
    + unfold float_value. cbn [mantissa exponent].
      replace (1 * 1 * m)%Z with m by lia. reflexivity.
    + cbn [mantissa]. replace (1 * 1 * m)%Z with m by lia. split; [lia|]. exact (fun V => V).
Qed.

Lemma Qdiv_scale_le (X Y D u : Q) :
  0 < D -> 0 < u -> X <= Y -> X / D * u <= Y / D * u.
Proof.
  intros HD HU H. apply Qmult_le_compat_r; [|apply Qlt_le_weak; exact HU].
  unfold Qdiv. apply Qmult_le_compat_r; [exact H|].
  apply Qlt_le_weak. apply Qinv_lt_0_compat. exact HD.
Qed.

Lemma Qdiv_scale_inj (X Y D u : Q) :
  0 < D -> 0 < u -> X / D * u == Y / D * u -> X == Y.
Proof.
  intros HD HU H.
  assert (ND : ~ D == 0) by (intros E; rewrite E in HD; discriminate HD).
  assert (NU : ~ u == 0) by (intros E; rewrite E in HU; discriminate HU).
  transitivity (X / D * u * (D / u)); [field; split; assumption|].
  rewrite H. field. split; assumption.
Qed.

Lemma int_truediv_grid (a b : Z) :
  (0 < a)%Z -> (0 < b)%Z ->
  exists s : Z,
    (forall j : Z,
        Qabs (float_value (int_truediv a b) - inject_Z a / inject_Z b)
        <= Qabs (inject_Z j * 2 ^ s - inject_Z a / inject_Z b))
    /\ inject_Z (2 ^ 52) * 2 ^ s <= inject_Z a / inject_Z b
    /\ Qabs (float_value (int_truediv a b) - inject_Z a / inject_Z b)
       <= inject_Z a / inject_Z b * 2 ^ (-53)
    /\ (forall j : Z,
           ~ inject_Z j * 2 ^ s == float_value (int_truediv a b) ->
           Qabs (inject_Z j * 2 ^ s - inject_Z a / inject_Z b)
           == Qabs (float_value (int_truediv a b) - inject_Z a / inject_Z b) ->
           Z.even (mantissa (int_truediv a b)) = true).
Proof.
  intros HA HB.
  destruct (int_truediv_pos HA HB) as [m [s [num [den [Hden [Hr [Em [V [Eq [_ Ev]]]]]]]]]].
  destruct (div_nearest_even_spec num Hden) as [Hh [_ [Hn _]]]. rewrite <- Em in Hh, Hn.
  pose proof (div_nearest_even_tie num Hden) as Ht. cbn zeta in Ht. rewrite <- Em in Ht.
  pose proof (two_pow_pos s) as U. pose proof (inject_Z_pos Hden) as PD.
  exists s. split; [|split; [|split]].
  - intros j. rewrite V, Eq, !Qabs_scale, !Qabs_frac by assumption.
    apply Qdiv_scale_le; [exact PD | exact U|]. rewrite <- Zle_Qle. apply Hn.
  - rewrite Eq. apply Qmult_le_compat_r; [|apply Qlt_le_weak; exact U].
    apply Qle_shift_div_l; [exact PD|]. rewrite <- inject_Z_mult, <- Zle_Qle. lia.
  - rewrite V, Eq, Qabs_scale, Qabs_frac by assumption.
    setoid_replace (inject_Z num / inject_Z den * 2 ^ s * 2 ^ (-53))
      with (inject_Z num * 2 ^ (-53) / inject_Z den * 2 ^ s)
      by (field; intros E; rewrite E in PD; discriminate PD).
    apply Qdiv_scale_le; [exact PD | exact U|].
    change (2 ^ (-53)) with (/ inject_Z (2 ^ 53)).
    apply Qle_shift_div_l; [reflexivity|].
    rewrite <- inject_Z_mult, <- Zle_Qle. lia.
  - intros j NE T. apply Ev. apply (Ht j).
    + intros ->. apply NE. rewrite V. reflexivity.
    + rewrite V, Eq, !Qabs_scale, !Qabs_frac in T by assumption.
      apply Qdiv_scale_inj in T; [|exact PD | exact U].
      exact (proj1 (inject_Z_injective _ _) T).
Qed.

Lemma binary53_cases (s : Z) (g : Q) :
  binary53 g ->
  (exists j : Z, g == inject_Z j * 2 ^ s) \/ g < inject_Z (2 ^ 52) * 2 ^ s.
Proof.
  intros [m' [e' [Bm Eg]]]. destruct (Z.le_gt_cases s e') as [C|C].
  - left. exists (m' * 2 ^ (e' - s))%Z.
    rewrite Eg, (two_pow_split e' s), (@two_pow_Z (e' - s)%Z) by lia.
    rewrite Qmult_assoc, <- inject_Z_mult. reflexivity.
  - right. rewrite Eg, (two_pow_split s e'), (@two_pow_Z (s - e')%Z) by lia.
    rewrite Qmult_assoc, <- inject_Z_mult.
    apply Qmult_lt_compat_r; [apply two_pow_pos|].
    rewrite <- Zlt_Qlt.
    assert (P : (2 ^ 1 <= 2 ^ (s - e'))%Z) by (apply Z.pow_le_mono_r; lia).
    change (2 ^ 1)%Z with 2%Z in P. lia.
Qed.

(** [int / int] is correctly rounded. *)
Lemma int_truediv_rounds (a b : Z) :
  (0 < a)%Z -> (0 < b)%Z ->
  rounds_to_nearest_even (inject_Z a / inject_Z b) (int_truediv a b).
Proof.
  intros HA HB.
  destruct (int_truediv_pos HA HB) as [_ [_ [_ [_ [_ [_ [_ [_ [_ [Hm _]]]]]]]]]].
  destruct (int_truediv_grid HA HB) as [s [Grid [Low [_ Tie]]]].
  set (f := int_truediv a b) in *. set (q := inject_Z a / inject_Z b) in *.
  assert (Below : forall g, g < inject_Z (2 ^ 52) * 2 ^ s ->
                            Qabs (float_value f - q) < Qabs (g - q)).
  { intros g G. eapply Qle_lt_trans; [apply (Grid (2 ^ 52)%Z)|].
    rewrite Qabs_neg by (apply (Qplus_le_l _ _ q); ring_simplify; exact Low).
    eapply Qlt_le_trans; [|rewrite <- Qabs_opp; apply Qle_Qabs].
    apply (Qplus_lt_l _ _ (g + inject_Z (2 ^ 52) * 2 ^ s - q)).
    ring_simplify. exact G. }
  split; [exact Hm|]. split.
  - intros g B. destruct (binary53_cases s B) as [[j Ej]|G].
    + rewrite Ej. apply Grid.
    + apply Qlt_le_weak. apply Below. exact G.
  - intros g B NE T. destruct (binary53_cases s B) as [[j Ej]|G].
    + apply (Tie j); [rewrite <- Ej; exact NE | rewrite <- Ej; exact T].
    + exfalso. specialize (Below g G). rewrite T in Below.
      exact (Qlt_irrefl _ Below).
Qed.

(** The result is within [2 ^ -53] of the quotient, relatively. *)
Lemma int_truediv_error (a b : Z) :
  (0 < a)%Z -> (0 < b)%Z ->
  Qabs (float_value (int_truediv a b) - inject_Z a / inject_Z b)
  <= inject_Z a / inject_Z b * 2 ^ (-53).
Proof.
  intros HA HB. destruct (int_truediv_grid HA HB) as [s [_ [_ [Rel _]]]]. exact Rel.
Qed.

Lemma Qabs_zero (x y : Q) : Qabs (x - y) <= 0 -> x == y.
Proof.
  intros H.
  destruct (Qabs_Qle_condition (x - y) 0) as [C _]. destruct (C H) as [H1 H2].
  apply (Qplus_inj_r _ _ (- y)). setoid_replace (y + - y) with 0 by ring.
  apply Qle_antisym; [exact H2 | exact H1].
Qed.

(** A quotient that binary64 has is returned as it is. *)
Lemma int_truediv_exact (a b : Z) :
  (0 < a)%Z -> (0 < b)%Z ->
  binary53 (inject_Z a / inject_Z b) ->
  float_value (int_truediv a b) == inject_Z a / inject_Z b.
Proof.
  intros HA HB B. destruct (int_truediv_rounds HA HB) as [_ [Near _]].
  specialize (Near _ B). apply Qabs_zero.
  setoid_replace (inject_Z a / inject_Z b - inject_Z a / inject_Z b) with 0 in Near
    by ring.
  exact Near.
Qed.

(** With ints below [2 ^ n] the exponent stays between [- (n + 52)] and
    [n - 52].  A normal number of binary64 with a mantissa of 53 digits has
    an exponent from [-1074] to [971]: lengths, which are below [2 ^ 63], are
    far inside. *)
Lemma int_truediv_exponent (n a b : Z) :
  (0 < a < 2 ^ n)%Z -> (0 < b < 2 ^ n)%Z ->
  (- (n + 52) <= exponent (int_truediv a b) <= n - 52)%Z.
Proof.
  intros HA HB.
  assert (Hn : (0 < n)%Z).
  { destruct (Z.lt_trichotomy n 0) as [C|[C|C]]; [|subst n; cbn in HA; lia | exact C].
    rewrite Z.pow_neg_r in HA by exact C. lia. }
  destruct (@truediv_scaling a b ltac:(lia) ltac:(lia)) as [Hk [Hd [Hden Hr]]].
  cbn zeta in *. unfold int_truediv.
  replace (a =? 0)%Z with false by (symmetry; apply Z.eqb_neq; lia).
  replace (b =? 0)%Z with false by (symmetry; apply Z.eqb_neq; lia).
  cbn [orb]. rewrite (Z.abs_eq a), (Z.abs_eq b) by lia.
  assert (La : (0 <= Z.log2 a < n)%Z)
    by (split; [apply Z.log2_nonneg | apply Z.log2_lt_pow2; lia]).
  assert (Lb : (0 <= Z.log2 b < n)%Z)
    by (split; [apply Z.log2_nonneg | apply Z.log2_lt_pow2; lia]).
  set (k := Z.max 0 (53 + Z.log2 b - Z.log2 a)) in *.
  set (num := (a * 2 ^ k)%Z) in *.
  set (d := (Z.log2 (num / b) - 52)%Z) in *.
  assert (Hq : (0 < num / b)%Z).
  { apply Z.div_str_pos. assert (0 < 2 ^ d)%Z by (apply Z.pow_pos_nonneg; lia). nia. }
  assert (Hu : (d - k < n - 52)%Z).
  { assert (L : (Z.log2 (num / b) < n + k)%Z).
    { apply Z.log2_lt_pow2; [exact Hq|].
      apply Z.le_lt_trans with num.
      - apply Z.div_le_upper_bound; [lia|]. nia.
      - unfold num. rewrite Z.pow_add_r by lia.
        apply Z.mul_lt_mono_pos_r; [apply Z.pow_pos_nonneg; lia | lia]. }
    unfold d. lia. }
  assert (Hl : (- (n + 52) <= d - k)%Z) by lia.
  destruct (_ =? 2 ^ 53)%Z; cbn [exponent]; lia.
Qed.

Lemma total_len_nonneg {A} (ls : list (list A)) : (0 <= total_len ls)%Z.
Proof.
  unfold total_len. induction ls as [|l r IH]; cbn [map fold_right]; [lia|].
  unfold len at 1. lia.
Qed.

Lemma encode_no_bytes (tk : tokenizer) (text : str) (bs : list N) (ids : list Z) :
  utf8_encode text = Ok bs -> encode tk text = Ok ids -> len bs = 0%Z -> ids = [].
Proof.
  intros Eb Ei L. destruct (utf8_encode_inv _ Eb) as [V ->].
  rewrite (encode_valid tk V) in Ei.
  destruct (flat_map utf8_bytes text) as [|b r];
    [|unfold len in L; cbn [length] in L; lia].
  cbv in Ei. inversion Ei. reflexivity.
Qed.

(** Tokens come from bytes: texts that give a token have a byte. *)
Lemma total_len_tokens_bytes (tk : tokenizer) (texts : list str) :
  forall bss idss,
    mapM utf8_encode texts = Ok bss ->
    mapM (encode tk) texts = Ok idss ->
    (0 < total_len idss)%Z -> (0 < total_len bss)%Z.
Proof.
  induction texts as [|t r IH]; intros bss idss Eb Ei; cbn [mapM] in Eb, Ei.
  - inversion Eb. inversion Ei. cbn. lia.
  - apply bind_Ok in Eb. destruct Eb as [bs [Ebs Eb]].
    apply bind_Ok in Eb. destruct Eb as [bss' [Ebss Eb]]. inversion Eb; subst bss.
    apply bind_Ok in Ei. destruct Ei as [ids [Eids Ei]].
    apply bind_Ok in Ei. destruct Ei as [idss' [Eidss Ei]]. inversion Ei; subst idss.
    unfold total_len. cbn [map fold_right]. fold (total_len bss'). fold (total_len idss').
    intros P. pose proof (total_len_nonneg bss') as Nb.
    assert (Lb : (0 <= len bs)%Z) by (unfold len; lia).
    destruct (Z.eq_dec (len bs) 0) as [Z0|NZ]; [|lia].
    rewrite (encode_no_bytes tk _ Ebs Eids Z0) in P. unfold len at 1 in P.
    cbn [length] in P.
    specialize (IH _ _ Ebss Eidss). lia.
Qed.

Lemma compression_ratio_totals (tk : tokenizer) (texts : list str)
    (bss : list (list N)) (idss : list (list Z)) :
  mapM utf8_encode texts = Ok bss ->
  mapM (encode tk) texts = Ok idss ->
  calculate_compression_ratio tk texts
  = Ok (if (total_len idss =? 0)%Z then float_zero
        else int_truediv (total_len bss) (total_len idss)).
Proof.
  intros Eb Ei. unfold calculate_compression_ratio.
  rewrite (sum_of_mapM _ _ Eb). cbn [bind].
  rewrite (sum_of_mapM _ _ Ei). cbn [bind].
  destruct (total_len idss =? 0)%Z; reflexivity.
Qed.

(** C9. The compression ratio is the float [0.0] when [encode] gives no
    token for the texts, in particular on the empty list.  Otherwise it is
    the quotient of the total number of UTF-8 bytes of the texts by the total
    number of tokens, as a float: the quotient rounded to binary64, to
    nearest and ties to even; so it is within [2 ^ -53] of the quotient,
    relatively, and it is the quotient when binary64 has that number.  With
    totals below [2 ^ 970] its exponent is that of a normal number of
    binary64, so that the division neither overflows nor loses digits.
    Both totals exist whenever every text has a UTF-8 encoding. *)
Theorem C9_compression_ratio (tk : tokenizer) (texts : list str) :
  calculate_compression_ratio tk [] = Ok float_zero
  /\ (forall bss idss,
        mapM utf8_encode texts = Ok bss ->
        mapM (encode tk) texts = Ok idss ->
        exists f,
          calculate_compression_ratio tk texts = Ok f
          /\ (total_len idss = 0%Z -> f = float_zero)
          /\ ((0 < total_len idss)%Z ->
              let q := inject_Z (total_len bss) / inject_Z (total_len idss) in
              0 < q
              /\ rounds_to_nearest_even q f
              /\ Qabs (float_value f - q) <= q * 2 ^ (-53)
              /\ (binary53 q -> float_value f == q)
              /\ ((total_len bss < 2 ^ 970)%Z -> (total_len idss < 2 ^ 970)%Z ->
                  (-1022 <= exponent f + 52 <= 1023)%Z)))
  /\ (Forall valid_text texts ->
      exists bss idss,
        mapM utf8_encode texts = Ok bss /\ mapM (encode tk) texts = Ok idss).
Proof.
  split; [reflexivity|]. split.
  - intros bss idss Eb Ei. rewrite (compression_ratio_totals _ _ Eb Ei).
    eexists. split; [reflexivity|]. split.
    + intros ->. reflexivity.
    + intros P. pose proof (total_len_tokens_bytes _ _ Eb Ei P) as Pb.
      replace (total_len idss =? 0)%Z with false by (symmetry; apply Z.eqb_neq; lia).
      cbn zeta. split; [|split; [|split; [|split]]].
      * apply Qlt_shift_div_l; [apply inject_Z_pos; exact P|].
        rewrite Qmult_0_l. apply inject_Z_pos. exact Pb.
      * exact (int_truediv_rounds Pb P).
      * exact (int_truediv_error Pb P).
      * exact (int_truediv_exact Pb P).
      * intros Hb Hi.
        pose proof (@int_truediv_exponent 970 _ _ (conj Pb Hb) (conj P Hi)) as X.
        lia.
  - intros F.
    destruct (@mapM_total _ _ utf8_encode texts) as [bss Eb].
    { rewrite Forall_forall in *. intros t I.
      rewrite (utf8_encode_valid (F t I)). eauto. }
    destruct (@mapM_total _ _ (encode tk) texts) as [idss Ei].
    { rewrite Forall_forall in *. intros t I.
      rewrite (encode_valid tk (F t I)). apply encode_words_total. }
    eauto.
Qed.

(** Four bytes in four tokens give [1.0], four bytes in three tokens give
    [1.3333333333333333], which is [6004799503160661 * 2 ^ -52]. *)
Example ex_compression_ratio :
  exists tk, train 4 [[s_a; s_a]; [s_a; s_a; s_a; s_b]] = Ok tk
             /\ calculate_compression_ratio tk [[s_a; s_a; s_a; s_b]]
                = Ok {| mantissa := 2 ^ 52; exponent := -52 |}
             /\ calculate_compression_ratio tk [[s_a; s_a; s_a; s_a]]
                = Ok {| mantissa := 6004799503160661; exponent := -52 |}.
Proof. eexists. split; [|split]; vm_compute; reflexivity. Qed.

(** ** Round trip *)

(** The four characters "</w>" as a text of their own. *)
Definition text_end_of_word : str := [60; 47; 119; 62]%N.

(** C1 fails on the code.  Train on the corpus ["</w>"] with target size 5:
    the base alphabet is '/', '<', '</w>', '>', 'w', and every byte of the
    text "</w>" maps to a symbol of it.  [encode] gives one id per character
    and one for the marker; [decode] joins the tokens to "</w></w>" and
    strips every "</w>": the result is the empty string, not the text. *)
Theorem C1_roundtrip_fails_on_marker_text :
  exists tk bs ids,
    train 5 [text_end_of_word] = Ok tk
    /\ base_alphabet_size [text_end_of_word] = Ok 5%Z
    /\ valid_text text_end_of_word
    /\ utf8_encode text_end_of_word = Ok bs
    /\ Forall (fun b => exists c i,
                 PyDict.get byte_encoder b = Some c
                 /\ PyDict.get (vocab tk) [c] = Some i /\ (0 <= i < 5)%Z) bs
    /\ encode tk text_end_of_word = Ok ids
    /\ decode tk ids = []
    /\ decode tk ids <> text_end_of_word.
Proof.
  eexists. eexists. eexists.
  split; [vm_compute; reflexivity|].
  split; [vm_compute; reflexivity|].
  split; [repeat constructor|].
  split; [vm_compute; reflexivity|].
  split.
  - repeat constructor.
    + exists 60%N, 1%Z. repeat split; try (vm_compute; reflexivity); lia.
    + exists 47%N, 0%Z. repeat split; try (vm_compute; reflexivity); lia.
    + exists 119%N, 4%Z. repeat split; try (vm_compute; reflexivity); lia.
    + exists 62%N, 3%Z. repeat split; try (vm_compute; reflexivity); lia.
  - split; [vm_compute; reflexivity|].
    split; [vm_compute; reflexivity|].
    vm_compute. discriminate.
Qed.

(** *** Stripping the markers *)

(** [p in s] for strings. *)
Fixpoint occurs (p s : str) : bool :=
  match s with
  | [] => starts_with p []
  | _ :: r => starts_with p s || occurs p r
  end.

(** The marker overlaps itself nowhere: where it starts in [s ++ '</w>'],
    it starts in [s], unless [s] is empty. *)
Lemma starts_with_marker_app (s : str) :
  starts_with END_OF_WORD (s ++ END_OF_WORD) = true ->
  s = [] \/ starts_with END_OF_WORD s = true.
Proof.
  destruct s as [|c1 [|c2 [|c3 [|c4 r]]]]; [left; reflexivity | ..]; intros E; right;
    cbn [app starts_with END_OF_WORD] in *; [ | | | exact E];
    repeat match goal with
           | H : _ && _ = true |- _ => apply andb_true_iff in H; destruct H
           end;
    match goal with
    | H : (_ =? _)%N = true |- _ => vm_compute in H; discriminate H
    end.
Qed.

Lemma strip_marker_free (s : str) :
  occurs END_OF_WORD s = false ->
  str_replace END_OF_WORD [] (s ++ END_OF_WORD) = s.
Proof.
  unfold str_replace. induction s as [|c r IH]; intros O; [reflexivity|].
  cbn [occurs] in O. apply orb_false_iff in O. destruct O as [O1 O2].
  cbn [app replace_from].
  destruct (starts_with END_OF_WORD (c :: r ++ END_OF_WORD)) eqn:E.
  - destruct (starts_with_marker_app (c :: r) E) as [N|N]; [discriminate N|].
    congruence.
  - rewrite (IH O2). reflexivity.
Qed.

(** The symbol string of a text holds the marker only where the text
    does: the four characters of the marker are the symbols of their own
    ASCII bytes and of no other byte. *)
Definition marker_char (m : N) : bool := list_mem m END_OF_WORD.

Lemma marker_symbols_are_ascii :
  forallb (fun b => negb (marker_char (symbol_of b))
                    || ((symbol_of b =? b)%N && (b <? 128)%N)) (range 0 256) = true.
Proof. vm_compute. reflexivity. Qed.

Lemma symbol_marker (b : N) :
  (b < 256)%N -> marker_char (symbol_of b) = true -> symbol_of b = b /\ (b < 128)%N.
Proof.
  intros L M. pose proof marker_symbols_are_ascii as A.
  rewrite forallb_forall in A.
  assert (I : In b (range 0 256)) by (apply In_range; lia).
  specialize (A b I). cbv beta in A. rewrite M in A. cbn [negb orb] in A.
  apply andb_true_iff in A. destruct A as [A1 A2].
  apply N.eqb_eq in A1. apply N.ltb_lt in A2. auto.
Qed.

Lemma utf8_bytes_head (c : N) :
  is_scalar c = true ->
  ((c < 128)%N /\ utf8_bytes c = [c])
  \/ (exists b tl, utf8_bytes c = b :: tl
                   /\ Forall (fun x => (128 <= x < 256)%N) (b :: tl)).
Proof.
  intros V. destruct (is_scalar_cases c V) as [V1 _]. unfold utf8_bytes.
  destruct (c <? 0x80)%N eqn:C1; [left; apply N.ltb_lt in C1; auto|].
  apply N.ltb_ge in C1. right.
  destruct (c <? 0x800)%N eqn:C2;
    [apply N.ltb_lt in C2; eexists; eexists; split; [reflexivity|];
     repeat constructor; ndm|].
  destruct (c <? 0x10000)%N eqn:C3;
    [apply N.ltb_lt in C3|];
    eexists; eexists; (split; [reflexivity|]); repeat constructor; ndm.
Qed.

Lemma starts_with_symbols (p : str) :
  Forall (fun m => marker_char m = true) p ->
  forall text, valid_text text ->
    starts_with p (map symbol_of (flat_map utf8_bytes text)) = true ->
    starts_with p text = true.
Proof.
  induction 1 as [|m p' Hm _ IH]; intros text V E; [reflexivity|].
  destruct V as [|c t Vc Vt]; [discriminate E|].
  cbn [flat_map] in E. rewrite map_app in E.
  destruct (utf8_bytes_head c Vc) as [[Lc Ec]|[b [tl [Ec F]]]]; rewrite Ec in E.
  - cbn [map app starts_with] in E. apply andb_true_iff in E. destruct E as [E1 E2].
    apply N.eqb_eq in E1.
    assert (M : marker_char (symbol_of c) = true) by (rewrite <- E1; exact Hm).
    destruct (@symbol_marker c ltac:(lia) M) as [S _].
    cbn [starts_with]. rewrite E1, S, N.eqb_refl. exact (IH t Vt E2).
  - exfalso. cbn [map app starts_with] in E.
    apply andb_true_iff in E. destruct E as [E1 _]. apply N.eqb_eq in E1.
    apply Forall_inv in F.
    assert (M : marker_char (symbol_of b) = true) by (rewrite <- E1; exact Hm).
    destruct (@symbol_marker b ltac:(lia) M) as [_ L]. lia.
Qed.

Lemma occurs_skip_symbols (bs : list N) (rest : str) :
  Forall (fun x => (128 <= x < 256)%N) bs ->
  occurs END_OF_WORD (map symbol_of bs ++ rest) = occurs END_OF_WORD rest.
Proof.
  induction 1 as [|b r Fb _ IH]; [reflexivity|].
  cbn [map app occurs]. rewrite IH.
  assert (N : starts_with END_OF_WORD (symbol_of b :: map symbol_of r ++ rest) = false).
  { destruct (starts_with END_OF_WORD _) eqn:E; [|reflexivity]. exfalso.
    cbn [starts_with END_OF_WORD] in E. apply andb_true_iff in E.
    destruct E as [E _]. apply N.eqb_eq in E.
    assert (M : marker_char (symbol_of b) = true) by (rewrite <- E; reflexivity).
    destruct (@symbol_marker b ltac:(lia) M) as [_ L]. lia. }
  rewrite N. reflexivity.
Qed.

Lemma occurs_symbols (text : str) :
  valid_text text ->
  occurs END_OF_WORD text = false ->
  occurs END_OF_WORD (map symbol_of (flat_map utf8_bytes text)) = false.
Proof.
  assert (MC : Forall (fun m => marker_char m = true) END_OF_WORD)
    by (repeat constructor).
  induction 1 as [|c t Vc Vt IH]; intros O; [reflexivity|].
  cbn [occurs] in O. apply orb_false_iff in O. destruct O as [O1 O2].
  specialize (IH O2).
  destruct (utf8_bytes_head c Vc) as [[Lc Ec]|[b [tl [Ec F]]]].
  - destruct (occurs END_OF_WORD (map symbol_of (flat_map utf8_bytes (c :: t)))) eqn:E;
      [|reflexivity].
    exfalso. cbn [flat_map] in E. rewrite Ec in E. cbn [app map occurs] in E.
    rewrite IH, orb_false_r in E.
    assert (S : starts_with END_OF_WORD (c :: t) = true).
    { apply (starts_with_symbols MC (Forall_cons c Vc Vt)).
      cbn [flat_map]. rewrite Ec. exact E. }
    congruence.
  - cbn [flat_map]. rewrite Ec, map_app, (occurs_skip_symbols _ F). exact IH.
Qed.

(** *** What the merge loop keeps *)

Lemma merge_word_In (p : merge_pair) (w : word) (t : token) :
  In t (merge_word p w) -> In t w \/ t = fst p ++ snd p.
Proof.
  induction w as [| a | a b r IH1 IH2] using list_pair_ind; [auto ..|].
  rewrite merge_word_cons2.
  destruct (py_eqb a (fst p) && py_eqb b (snd p)).
  - intros [<-|I]; [right; reflexivity|].
    destruct (IH1 I) as [I'|E]; [left; right; right; exact I' | right; exact E].
  - intros [<-|I]; [left; left; reflexivity|].
    destruct (IH2 I) as [I'|E]; [left; right; exact I' | right; exact E].
Qed.

Lemma merge_loop_preserves (P : word -> Prop) (merges : list merge_pair) :
  (forall p w, In p merges -> P w -> P (merge_word p w)) ->
  forall fuel w w' r, merge_loop fuel merges w = Ok (w', r) -> P w -> P w'.
Proof.
  intros Step. induction fuel as [|f IH]; intros w w' r; cbn [merge_loop];
    [discriminate|].
  destruct (length w <=? 1)%nat; [intros [= <- <-]; auto|].
  pose proof (find_best_spec merges (adjacent_pairs w)) as B.
  destruct (find_best merges (adjacent_pairs w)) as [[i p]|];
    [|intros [= <- <-]; auto].
  intros E Pw. apply bind_Ok in E. destruct E as [[v k] [E1 E2]].
  inversion E2; subst. cbn [fst].
  destruct B as [_ [Ei _]]. apply index_of_Some_In in Ei.
  exact (IH _ _ _ E1 (Step p w Ei Pw)).
Qed.

Lemma concat_word_tuple (w : str) : concat (word_tuple w) = w ++ END_OF_WORD.
Proof.
  unfold word_tuple. rewrite concat_app. cbn [concat]. rewrite app_nil_r.
  f_equal. induction w as [|c r IH]; [reflexivity|].
  cbn [map concat app]. rewrite IH. reflexivity.
Qed.

(** Where a token of the result comes from. *)
Definition token_origin (merges : list merge_pair) (w : str) (t : token) : Prop :=
  (exists c, In c w /\ t = [c])
  \/ t = END_OF_WORD
  \/ (exists p, In p merges /\ t = fst p ++ snd p).

(** Tokenizing a word loses and reorders nothing: the tokens, joined, spell
    the word followed by the marker; and each token is a single character of
    the word, the marker, or the concatenation of a pair of the merge
    table. *)
Lemma tokenize_word_keeps (merges : list merge_pair) (w : str) :
  exists toks,
    tokenize_word merges w = Ok toks
    /\ concat toks = w ++ END_OF_WORD
    /\ Forall (token_origin merges w) toks.
Proof.
  destruct (tokenize_word_total merges w) as [toks [rounds [E T]]].
  exists toks. split; [exact T|].
  apply (@merge_loop_preserves
           (fun v => concat v = w ++ END_OF_WORD /\ Forall (token_origin merges w) v)
           merges) in E.
  - exact E.
  - intros p v Ip [C F]. split; [rewrite merge_word_concat; exact C|].
    rewrite Forall_forall in *. intros t It.
    destruct (merge_word_In _ _ _ It) as [I | ->]; [exact (F t I)|].
    right. right. exists p. auto.
  - split; [apply concat_word_tuple|]. unfold word_tuple.
    apply Forall_app. split.
    + rewrite Forall_forall. intros t It. apply in_map_iff in It.
      destruct It as [c [<- Ic]]. left. exists c. auto.
    + constructor; [|constructor]. right. left. reflexivity.
Qed.

(** *** The tokens of a word *)

Lemma merge_word_In_parts (p : merge_pair) (w : word) (t : token) :
  In t (merge_word p w) ->
  In t w \/ (t = fst p ++ snd p /\ In (fst p) w /\ In (snd p) w).
Proof.
  induction w as [| a | a b r IH1 IH2] using list_pair_ind; [auto ..|].
  rewrite merge_word_cons2.
  destruct (py_eqb a (fst p) && py_eqb b (snd p)) eqn:E.
  - apply andb_true_iff in E. destruct E as [E1 E2].
    apply py_eqb_eq in E1. apply py_eqb_eq in E2. subst a b.
    intros [<-|I]; [right; cbn [In]; auto|].
    destruct (IH1 I) as [I'|[Et [I1 I2]]];
      [left; right; right; exact I' | right; cbn [In]; auto].
  - intros [<-|I]; [left; left; reflexivity|].
    destruct (IH2 I) as [I'|[Et [I1 I2]]]; [left; right; exact I' | right].
    split; [exact Et|]. split; right; assumption.
Qed.

Lemma merge_word_nonempty (p : merge_pair) (w : word) :
  Forall (fun t => t <> []) w -> Forall (fun t => t <> []) (merge_word p w).
Proof.
  intros F. rewrite Forall_forall in *. intros t I.
  destruct (merge_word_In_parts _ _ _ I) as [I'|[-> [I1 _]]]; [auto|].
  intros E. apply app_eq_nil in E. destruct E as [E _]. exact (F _ I1 E).
Qed.

Lemma word_tuple_nonempty (w : str) : Forall (fun t : token => t <> []) (word_tuple w).
Proof.
  unfold word_tuple. apply Forall_app. split.
  - rewrite Forall_forall. intros t I. apply in_map_iff in I.
    destruct I as [c [<- _]]. discriminate.
  - constructor; [discriminate | constructor].
Qed.

Lemma tokenize_word_nonempty (merges : list merge_pair) (w : str) (toks : list token) :
  tokenize_word merges w = Ok toks -> Forall (fun t => t <> []) toks.
Proof.
  intros T. destruct (tokenize_word_total merges w) as [toks' [rounds [E T']]].
  rewrite T in T'. inversion T'; subst toks'.
  apply (@merge_loop_preserves (Forall (fun t : token => t <> [])) merges) in E.
  - exact E.
  - intros p v _ F. apply merge_word_nonempty. exact F.
  - apply word_tuple_nonempty.
Qed.

Lemma length_concat_word_tuple (w : str) :
  length (concat (word_tuple w)) = (length w + 4)%nat.
Proof. rewrite concat_word_tuple, length_app. reflexivity. Qed.

(** X1. [_tokenize_word] loses and reorders nothing: it returns a list of
    between one and [len(word) + 1] non-empty tokens which, joined, spell the
    word followed by the marker; each token is a single character of the
    word, the marker, or the concatenation of a pair of the merge table. *)
Theorem X1_tokenize_word_spelling (merges : list merge_pair) (w : str) :
  exists toks,
    tokenize_word merges w = Ok toks
    /\ concat toks = w ++ END_OF_WORD
    /\ Forall (token_origin merges w) toks
    /\ Forall (fun t => t <> []) toks
    /\ (1 <= length toks <= length w + 1)%nat.
Proof.
  destruct (tokenize_word_keeps merges w) as [toks [T [C F]]].
  exists toks. split; [exact T|]. split; [exact C|]. split; [exact F|].
  split; [exact (tokenize_word_nonempty _ _ T)|].
  destruct (tokenize_word_total merges w) as [toks' [rounds [E T']]].
  rewrite T in T'. inversion T'; subst toks'.
  destruct (@merge_loop_total merges (length (word_tuple w)) (word_tuple w))
    as [w' [r [E' [L _]]]].
  - lia.
  - unfold word_tuple. rewrite length_app. cbn [length]. lia.
  - rewrite E in E'. inversion E'; subst w' r.
    split.
    + destruct toks as [|t ts]; [|cbn [length]; lia].
      cbn [concat] in C. destruct w; discriminate C.
    + unfold word_tuple in L. rewrite length_app, length_map in L.
      cbn [length] in L. lia.
Qed.

(** *** The segmenter never splits *)

Lemma encode_bytes_inv (bs : list N) (syms : str) :
  encode_bytes bs = Ok syms ->
  Forall (fun b => (b < 256)%N) bs /\ syms = map symbol_of bs.
Proof.
  unfold encode_bytes. revert syms.
  induction bs as [|b r IH]; intros syms E; cbn [mapM] in E.
  - inversion E. split; [constructor | reflexivity].
  - apply bind_Ok in E. destruct E as [c [Ec E]].
    apply bind_Ok in E. destruct E as [cs [Ecs E]]. inversion E; subst syms.
    destruct (IH _ Ecs) as [F ->].
    destruct (PyDict.get byte_encoder b) as [c'|] eqn:G; [|discriminate Ec].
    cbn [of_option] in Ec. inversion Ec; subst c'.
    split.
    + constructor; [|exact F].
      apply (proj1 (byte_encoder_keys b)).
      exact (PyDictFacts.get_Some_key _ _ G).
    + cbn [map]. f_equal. unfold symbol_of. rewrite G. reflexivity.
Qed.

Lemma encode_words_one (tk : tokenizer) (w : str) :
  encode_words tk [w]
  = (toks <- tokenize_word (merges tk) w ;;
     Ok (flat_map (token_ids (vocab tk)) toks)).
Proof.
  cbn [encode_words]. destruct (tokenize_word (merges tk) w) as [toks|e]; [|reflexivity].
  cbn [bind]. rewrite app_nil_r. reflexivity.
Qed.

(** X2. The symbols that stand for bytes hold no whitespace, so the split
    [re.findall(r'\S+|\s+', text_unicode)] of [encode] (and of [train]) never
    splits: a non-empty text is one word, spaces included, with one marker
    at its end, and [encode] returns the ids of the tokens of that word. *)
Theorem X2_encode_is_one_word (tk : tokenizer) (text : str) (bs : list N) (syms : str)
    (Hbytes : utf8_encode text = Ok bs)
    (Hsyms : encode_bytes bs = Ok syms) :
  Forall (fun c => is_space c = false) syms
  /\ length syms = length bs
  /\ findall_runs syms = match syms with [] => [] | _ :: _ => [syms] end
  /\ encode tk text
     = match syms with
       | [] => Ok []
       | _ :: _ => toks <- tokenize_word (merges tk) syms ;;
                   Ok (flat_map (token_ids (vocab tk)) toks)
       end.
Proof.
  destruct (encode_bytes_inv _ Hsyms) as [F ->].
  assert (S : Forall (fun c => is_space c = false) (map symbol_of bs)).
  { rewrite Forall_forall in *. intros c I. apply in_map_iff in I.
    destruct I as [b [<- Ib]]. apply symbol_of_not_space. exact (F b Ib). }
  assert (R := findall_runs_one_word S).
  split; [exact S|]. split; [apply length_map|]. split; [exact R|].
  unfold encode. rewrite Hbytes. cbn [bind]. rewrite Hsyms. cbn [bind].
  rewrite R. destruct (map symbol_of bs); [reflexivity | apply encode_words_one].
Qed.

Lemma X2_encode_one_word_witness :
  exists ids,
    findall_runs [s_a; 288; s_b]%N = [[s_a; 288; s_b]%N]
    /\ encode {| vocab_size := 0; vocab := [([s_a], 0%Z); ([288%N], 1%Z)]; merges := [] |}
              [s_a; 32; s_b]%N = Ok ids
    /\ ids = [0; 1]%Z.
Proof.
  destruct (@X2_encode_is_one_word
              {| vocab_size := 0; vocab := [([s_a], 0%Z); ([288%N], 1%Z)]; merges := [] |}
              [s_a; 32; s_b]%N [s_a; 32; s_b]%N [s_a; 288; s_b]%N)
    as [_ [_ [R E]]]; [reflexivity | reflexivity |].
  exists [0; 1]%Z. split; [exact R|]. split; [|reflexivity].
  rewrite E. reflexivity.
Defined.

(** *** Round trip on a tokenizer that knows the tokens *)

Lemma known_tokens_ids (tk : tokenizer) (toks : list token) :
  NoDup (map snd (vocab tk)) ->
  Forall (fun t => PyDict.mem (vocab tk) t = true) toks ->
  length (flat_map (token_ids (vocab tk)) toks) = length toks
  /\ flat_map (fun tid => match PyDict.get (id_to_token tk) tid with
                          | Some t => [t]
                          | None => []
                          end) (flat_map (token_ids (vocab tk)) toks) = toks.
Proof.
  intros ND F. induction F as [|t r M _ [IL IH]]; [split; reflexivity|].
  unfold PyDict.mem in M.
  destruct (PyDict.get (vocab tk) t) as [i|] eqn:G; [|discriminate M].
  cbn [flat_map]. rewrite token_ids_unfold, G. cbn [app length flat_map].
  pose proof (PyDictFacts.get_In _ _ G) as I.
  unfold id_to_token at 1. erewrite invert_Some; [|exact ND|exact I]. cbn [app].
  split; [f_equal; exact IL | f_equal; exact IH].
Qed.

Lemma encode_segments (tk : tokenizer) (text : str) (bs : list N) (syms : str) :
  utf8_encode text = Ok bs ->
  encode_bytes bs = Ok syms ->
  encode tk text
  = match syms with
    | [] => Ok []
    | _ :: _ => toks <- tokenize_word (merges tk) syms ;;
                Ok (flat_map (token_ids (vocab tk)) toks)
    end.
Proof.
  intros Hbytes Hsyms. destruct (encode_bytes_inv _ Hsyms) as [F E].
  unfold encode. rewrite Hbytes. cbn [bind]. rewrite Hsyms. cbn [bind].
  rewrite E, (encoded_text_one_word F).
  destruct bs; [reflexivity | apply encode_words_one].
Qed.

Lemma utf8_bytes_nonempty (c : N) : utf8_bytes c <> [].
Proof.
  unfold utf8_bytes.
  destruct (c <? 0x80)%N; [discriminate|].
  destruct (c <? 0x800)%N; [discriminate|].
  destruct (c <? 0x10000)%N; discriminate.
Qed.

Lemma decode_nil (tk : tokenizer) : decode tk [] = [].
Proof. reflexivity. Qed.

Lemma roundtrip_known (tk : tokenizer) (text : str) (bs : list N) (syms : str) :
  utf8_encode text = Ok bs ->
  encode_bytes bs = Ok syms ->
  occurs END_OF_WORD text = false ->
  NoDup (map snd (vocab tk)) ->
  Forall (fun c => PyDict.mem (vocab tk) [c] = true) syms ->
  (text <> [] -> PyDict.mem (vocab tk) END_OF_WORD = true) ->
  Forall (fun p => PyDict.mem (vocab tk) (fst p ++ snd p) = true) (merges tk) ->
  exists ids,
    encode tk text = Ok ids
    /\ decode tk ids = text
    /\ (text <> [] -> (1 <= length ids <= length bs + 1)%nat).
Proof.
  intros Hbytes Hsyms Hfree Hids Hcover Hend Hmerges.
  pose proof (encode_segments tk _ Hbytes Hsyms) as EE.
  destruct (utf8_encode_inv _ Hbytes) as [V Eb].
  destruct (encode_bytes_inv _ Hsyms) as [F Es].
  destruct text as [|c t].
  { cbn [flat_map] in Eb. subst bs. cbn [map] in Es. subst syms.
    exists []. split; [exact EE|]. split; [apply decode_nil|].
    intros N. contradiction N. reflexivity. }
  assert (NE : syms <> []).
  { rewrite Es, Eb. cbn [flat_map]. intros E. apply map_eq_nil in E.
    apply app_eq_nil in E. destruct E as [E _]. exact (utf8_bytes_nonempty _ E). }
  assert (EE' : encode tk (c :: t)
                = (toks <- tokenize_word (merges tk) syms ;;
                   Ok (flat_map (token_ids (vocab tk)) toks))).
  { rewrite EE. destruct syms; [contradiction NE; reflexivity | reflexivity]. }
  clear EE. specialize (Hend ltac:(discriminate)).
  destruct (tokenize_word_keeps (merges tk) syms) as [toks [T [C O]]].
  rewrite T in EE'. cbn [bind] in EE'.
  assert (K : Forall (fun tok => PyDict.mem (vocab tk) tok = true) toks).
  { rewrite Forall_forall in *. intros tok I.
    destruct (O tok I) as [[ch [Ich ->]]|[->|[p [Ip ->]]]];
      [exact (Hcover ch Ich) | exact Hend | exact (Hmerges p Ip)]. }
  destruct (known_tokens_ids tk Hids K) as [L D].
  exists (flat_map (token_ids (vocab tk)) toks).
  split; [exact EE'|]. split.
  - unfold decode, decode_symbols. rewrite D, C.
    assert (Os : occurs END_OF_WORD syms = false).
    { rewrite Es, Eb. exact (occurs_symbols V Hfree). }
    rewrite (strip_marker_free _ Os). rewrite Es.
    rewrite (decode_bytes_symbols F). rewrite Eb. apply utf8_roundtrip. exact V.
  - intros _. rewrite L.
    destruct (tokenize_word_total (merges tk) syms) as [toks' [rounds [E T']]].
    rewrite T in T'. inversion T'; subst toks'.
    destruct (@merge_loop_total (merges tk) (length (word_tuple syms)) (word_tuple syms))
      as [w' [r [E' [Lw _]]]].
    + lia.
    + unfold word_tuple. rewrite length_app. cbn [length]. lia.
    + rewrite E in E'. inversion E'; subst w' r.
      unfold word_tuple in Lw. rewrite length_app, length_map in Lw.
      cbn [length] in Lw. rewrite Es, length_map in Lw.
      split; [|lia].
      destruct toks as [|t0 ts]; [|cbn [length]; lia].
      cbn [concat] in C. destruct syms; discriminate C.
Qed.

(** X3. Round trip.  Take a tokenizer whose ids are pairwise distinct and
    whose vocabulary holds the marker, the concatenation of every pair of
    the merge table, and the symbol of every byte of the text.  If the text
    does not contain the four characters of the marker, [encode] returns ids
    that [decode] turns back into the text; a non-empty text gives at least
    one id and at most one id per byte plus one. *)
Theorem X3_roundtrip_known_symbols
    (tk : tokenizer) (text : str) (bs : list N) (syms : str)
    (Hbytes : utf8_encode text = Ok bs)
    (Hsyms : encode_bytes bs = Ok syms)
    (Hfree : occurs END_OF_WORD text = false)
    (Hids : NoDup (map snd (vocab tk)))
    (Hcover : Forall (fun c => PyDict.mem (vocab tk) [c] = true) syms)
    (Hend : PyDict.mem (vocab tk) END_OF_WORD = true)
    (Hmerges : Forall (fun p => PyDict.mem (vocab tk) (fst p ++ snd p) = true)
                      (merges tk)) :
  exists ids,
    encode tk text = Ok ids
    /\ decode tk ids = text
    /\ (text <> [] -> (1 <= length ids <= length bs + 1)%nat).
Proof. apply (roundtrip_known tk Hbytes Hsyms); auto. Qed.

Definition tk_ab : tokenizer :=
  {| vocab_size := 4;
     vocab := [(END_OF_WORD, 0%Z); ([s_a], 1%Z); ([s_b], 2%Z); ([s_a; s_b], 3%Z)];
     merges := [([s_a], [s_b])] |}.

Lemma X3_roundtrip_witness :
  exists ids, encode tk_ab [s_a; s_b; s_a] = Ok ids
              /\ decode tk_ab ids = [s_a; s_b; s_a]
              /\ ([s_a; s_b; s_a] <> [] -> (1 <= length ids <= 3 + 1)%nat).
Proof.
  apply (@X3_roundtrip_known_symbols tk_ab [s_a; s_b; s_a] [s_a; s_b; s_a] [s_a; s_b; s_a]);
    try reflexivity.
  - repeat constructor; cbn [In]; intros I;
      repeat (destruct I as [I|I]; [discriminate I|]); exact I.
  - repeat constructor.
  - repeat constructor.
Defined.

(** *** The order on tokens and [sorted(vocab)] *)

Lemma str_compare_eq (a b : str) : str_compare a b = Eq -> a = b.
Proof.
  revert b; induction a as [|x a IH]; intros [|y b]; cbn [str_compare];
    try discriminate; [reflexivity|].
  destruct (x ?= y)%N eqn:C; try discriminate.
  intros E. apply N.compare_eq in C. subst y. f_equal. exact (IH _ E).
Qed.

Lemma str_compare_refl (a : str) : str_compare a a = Eq.
Proof.
  induction a as [|x a IH]; cbn [str_compare]; [reflexivity|].
  rewrite N.compare_refl. exact IH.
Qed.

Lemma str_compare_antisym (a b : str) : str_compare b a = CompOpp (str_compare a b).
Proof.
  revert b; induction a as [|x a IH]; intros [|y b]; cbn [str_compare];
    try reflexivity.
  rewrite (N.compare_antisym x y).
  destruct (x ?= y)%N; cbn [CompOpp]; [apply IH | reflexivity | reflexivity].
Qed.

Lemma str_compare_trans (a b c : str) :
  str_compare a b = Lt -> str_compare b c = Lt -> str_compare a c = Lt.
Proof.
  revert b c; induction a as [|x a IH]; intros [|y b] [|z c]; cbn [str_compare];
    try discriminate; try reflexivity.
  intros H1 H2.
  destruct (x ?= y)%N eqn:C1; destruct (y ?= z)%N eqn:C2; cbv iota in H1, H2;
    try discriminate H1; try discriminate H2.
  - apply N.compare_eq in C1. apply N.compare_eq in C2. subst y z.
    rewrite N.compare_refl. exact (IH _ _ H1 H2).
  - apply N.compare_eq in C1. subst y. rewrite C2. reflexivity.
  - apply N.compare_eq in C2. subst z. rewrite C1. reflexivity.
  - pose proof (N.lt_trans _ _ _ C1 C2) as C3. unfold N.lt in C3.
    rewrite C3. reflexivity.
Qed.

(** A list of tokens in strictly increasing order. *)
Fixpoint strictly_sorted (l : list token) : Prop :=
  match l with
  | [] => True
  | x :: r => Forall (fun y => str_compare x y = Lt) r /\ strictly_sorted r
  end.

Lemma insert_sorted_In (x : token) (l : list token) (y : token) :
  In y (insert_sorted x l) <-> y = x \/ In y l.
Proof.
  induction l as [|z r IH]; cbn [insert_sorted].
  - cbn [In]. intuition congruence.
  - destruct (str_compare x z) eqn:C.
    + apply str_compare_eq in C. subst z. cbn [In]. intuition congruence.
    + cbn [In]. intuition congruence.
    + cbn [In]. rewrite IH. intuition congruence.
Qed.

Lemma insert_sorted_sorted (x : token) (l : list token) :
  strictly_sorted l -> strictly_sorted (insert_sorted x l).
Proof.
  induction l as [|z r IH]; cbn [insert_sorted].
  - intros _. split; [constructor | exact I].
  - intros S. destruct (str_compare x z) eqn:C; [exact S | |].
    + destruct S as [F S]. split; [|split; assumption].
      constructor; [exact C|]. rewrite Forall_forall in *. intros y Iy.
      exact (str_compare_trans _ _ _ C (F y Iy)).
    + destruct S as [F S]. split; [|exact (IH S)].
      rewrite Forall_forall in *. intros y Iy. apply insert_sorted_In in Iy.
      destruct Iy as [->|Iy]; [|exact (F y Iy)].
      rewrite str_compare_antisym, C. reflexivity.
Qed.

Lemma sorted_set_fold (l : list token) :
  forall acc, strictly_sorted acc ->
    strictly_sorted (fold_left (fun acc x => insert_sorted x acc) l acc)
    /\ forall y, In y (fold_left (fun acc x => insert_sorted x acc) l acc)
                 <-> In y l \/ In y acc.
Proof.
  induction l as [|x r IH]; intros acc S; cbn [fold_left].
  - split; [exact S|]. intros y. cbn [In]. tauto.
  - destruct (IH _ (@insert_sorted_sorted x _ S)) as [S' M]. split; [exact S'|].
    intros y. rewrite M, insert_sorted_In. cbn [In]. intuition congruence.
Qed.

Lemma sorted_set_sorted (l : list token) : strictly_sorted (sorted_set l).
Proof. apply (sorted_set_fold l []). exact I. Qed.

Lemma sorted_set_In (l : list token) (y : token) : In y (sorted_set l) <-> In y l.
Proof.
  unfold sorted_set. destruct (@sorted_set_fold l [] I) as [_ M].
  rewrite M. cbn [In]. tauto.
Qed.

Lemma strictly_sorted_NoDup (l : list token) : strictly_sorted l -> NoDup l.
Proof.
  induction l as [|x r IH]; intros S; [constructor|].
  destruct S as [F S]. constructor; [|exact (IH S)].
  intros Ix. rewrite Forall_forall in F. specialize (F _ Ix).
  rewrite str_compare_refl in F. discriminate F.
Qed.

(** *** The base vocabulary *)

Lemma of_list_fold_NoDup {K V} `{PyEq K} (items : list (K * V)) :
  forall acc : dict K V,
    NoDup (map fst (acc ++ items)) ->
    fold_left (fun d kv => PyDict.set d (fst kv) (snd kv)) items acc = acc ++ items.
Proof.
  induction items as [|[k v] r IH]; intros acc ND; cbn [fold_left fst snd].
  - rewrite app_nil_r. reflexivity.
  - assert (G : PyDict.get acc k = None).
    { apply PyDictFacts.get_None. unfold PyDict.keys. intros Ik.
      rewrite map_app in ND. cbn [map fst] in ND.
      apply NoDup_remove_2 in ND. apply ND. apply in_or_app. left. exact Ik. }
    rewrite (PyDictFacts.set_new _ _ v G).
    rewrite IH; rewrite <- app_assoc; [reflexivity | exact ND].
Qed.

Lemma of_list_NoDup {K V} `{PyEq K} (items : list (K * V)) :
  NoDup (map fst items) -> PyDict.of_list items = items.
Proof. intros ND. unfold PyDict.of_list. apply (of_list_fold_NoDup items []). exact ND. Qed.

(** The ids [0 .. len(d) - 1], in the order of the entries. *)
Definition dense_ids (d : dict token Z) : Prop :=
  map snd d = map Z.of_nat (seq 0 (length d)).

Lemma map_fst_combine {A B} (l : list A) (l' : list B) :
  length l = length l' -> map fst (combine l l') = l.
Proof.
  revert l'; induction l as [|x r IH]; intros [|y r'] E; try discriminate E;
    [reflexivity|].
  cbn [combine map fst]. f_equal. apply IH. cbn [length] in E. lia.
Qed.

Lemma map_snd_combine {A B} (l : list A) (l' : list B) :
  length l = length l' -> map snd (combine l l') = l'.
Proof.
  revert l'; induction l as [|x r IH]; intros [|y r'] E; try discriminate E;
    [reflexivity|].
  cbn [combine map snd]. f_equal. apply IH. cbn [length] in E. lia.
Qed.

Lemma base_vocab_spec (word_freqs : dict word Z) :
  PyDict.keys (base_vocab word_freqs) = sorted_set (concat (PyDict.keys word_freqs))
  /\ dense_ids (base_vocab word_freqs).
Proof.
  unfold base_vocab.
  set (symbols := sorted_set (concat (PyDict.keys word_freqs))).
  assert (L : length symbols = length (map Z.of_nat (seq 0 (length symbols))))
    by (rewrite length_map, length_seq; reflexivity).
  rewrite of_list_NoDup.
  - unfold PyDict.keys, dense_ids.
    rewrite (map_fst_combine _ _ L), (map_snd_combine _ _ L).
    split; [reflexivity|]. rewrite length_combine, <- L, Nat.min_id. reflexivity.
  - rewrite (map_fst_combine _ _ L). apply strictly_sorted_NoDup.
    apply sorted_set_sorted.
Qed.

(** *** What the merge loop of [train] keeps *)

Lemma train_loop_inv (P : train_state -> Prop) :
  (forall st p f st', train_step st = Some (p, f, st') -> P st -> P st') ->
  forall n st, P st -> P (train_loop n st).
Proof.
  intros Step. induction n as [|n IH]; intros st Pst; cbn [train_loop]; [exact Pst|].
  destruct (train_step st) as [[[p f] st']|] eqn:E; [|exact Pst].
  apply IH. exact (Step _ _ _ _ E Pst).
Qed.

Lemma mem_In_keys {K V} `{PyEq K} (d : dict K V) (k : K) :
  PyDict.mem d k = true <-> In k (PyDict.keys d).
Proof.
  unfold PyDict.mem. destruct (PyDict.get d k) as [v|] eqn:G.
  - split; [intros _; exact (PyDictFacts.get_Some_key _ _ G) | reflexivity].
  - split; [discriminate|]. intros Ik. apply PyDictFacts.get_None in G. contradiction.
Qed.

(** The vocabulary of a training state: the base tokens [base] first, then
    concatenations of pairs of the merge table; the ids count the entries;
    the concatenation of every pair of the merge table is an entry. *)
Definition vocab_inv (base : list token) (st : train_state) : Prop :=
  dense_ids (st_vocab st)
  /\ NoDup (PyDict.keys (st_vocab st))
  /\ Forall (fun p => PyDict.mem (st_vocab st) (fst p ++ snd p) = true) (st_merges st)
  /\ exists added,
       PyDict.keys (st_vocab st) = base ++ added
       /\ Forall (fun t => exists p, In p (st_merges st) /\ t = fst p ++ snd p) added.

Lemma dense_ids_snoc (d : dict token Z) (t : token) :
  dense_ids d -> dense_ids (d ++ [(t, len d)]).
Proof.
  unfold dense_ids, len. intros D.
  rewrite map_app, length_app, D. cbn [map snd length].
  rewrite Nat.add_1_r, seq_S, map_app. reflexivity.
Qed.

Lemma train_step_vocab_inv (base : list token) (st : train_state) p f st' :
  train_step st = Some (p, f, st') -> vocab_inv base st -> vocab_inv base st'.
Proof.
  destruct st as [[wf v] m], st' as [[wf' v'] m']. intros E.
  apply train_step_spec in E. destruct E as [_ [_ [-> [-> ->]]]].
  unfold vocab_inv, st_vocab, st_merges. cbn [fst snd].
  intros [D [ND [M [added [K A]]]]].
  destruct (PyDict.mem v (fst p ++ snd p)) eqn:Mem.
  - split; [exact D|]. split; [exact ND|]. split.
    + apply Forall_app. split; [exact M|]. constructor; [exact Mem | constructor].
    + exists added. split; [exact K|].
      rewrite Forall_forall in *. intros t It. destruct (A t It) as [q [Iq Eq]].
      exists q. split; [apply in_or_app; left; exact Iq | exact Eq].
  - assert (G : PyDict.get v (fst p ++ snd p) = None).
    { unfold PyDict.mem in Mem. destruct (PyDict.get v (fst p ++ snd p));
        [discriminate Mem | reflexivity]. }
    rewrite (PyDictFacts.set_new _ _ (len v) G).
    split; [apply dense_ids_snoc; exact D|]. split.
    { rewrite <- (PyDictFacts.set_new _ _ (len v) G).
      apply PyDictFacts.NoDup_keys_set. exact ND. }
    split.
    + apply Forall_app. split.
      * rewrite Forall_forall in *. intros q Iq. apply mem_In_keys.
        unfold PyDict.keys. rewrite map_app. apply in_or_app. left.
        apply (proj1 (mem_In_keys v _)). exact (M q Iq).
      * constructor; [|constructor]. apply mem_In_keys.
        unfold PyDict.keys. rewrite map_app. apply in_or_app. right. left. reflexivity.
    + exists (added ++ [fst p ++ snd p]). split.
      * unfold PyDict.keys in *. rewrite map_app, K, app_assoc. reflexivity.
      * apply Forall_app. split.
        -- rewrite Forall_forall in *. intros t It. destruct (A t It) as [q [Iq Eq]].
           exists q. split; [apply in_or_app; left; exact Iq | exact Eq].
        -- constructor; [|constructor]. exists p. split; [|reflexivity].
           apply in_or_app. right. left. reflexivity.
Qed.

Lemma train_vocab_inv (target : Z) (texts : list str) (tk : tokenizer)
    (word_freqs : dict word Z) :
  train target texts = Ok tk ->
  count_words texts [] = Ok word_freqs ->
  vocab_inv (sorted_set (concat (PyDict.keys word_freqs)))
            (word_freqs, vocab tk, merges tk).
Proof.
  intros T C. rewrite (train_unfold target _ C) in T. inversion T; subst tk; clear T.
  cbn [vocab merges].
  set (st0 := (word_freqs, base_vocab word_freqs, []) : train_state).
  set (n := Z.to_nat (target - len (base_vocab word_freqs))).
  assert (I0 : vocab_inv (sorted_set (concat (PyDict.keys word_freqs))) st0).
  { destruct (base_vocab_spec word_freqs) as [K D].
    unfold vocab_inv, st0, st_vocab, st_merges. cbn [fst snd].
    split; [exact D|]. split.
    - rewrite K. apply strictly_sorted_NoDup. apply sorted_set_sorted.
    - split; [constructor|]. exists []. rewrite app_nil_r. split; [exact K | constructor]. }
  pose proof (@train_loop_inv _ (@train_step_vocab_inv _) n st0 I0) as In.
  unfold vocab_inv in *. exact In.
Qed.

(** X4. The vocabulary a call of [train] builds, on a fresh tokenizer or
    on one that was trained before.  Its first entries are the symbols of
    the words of the corpus with the marker, without repetition and in
    increasing order of their code points; the entries after them are
    concatenations of pairs the call appended to the merge table.  No token
    is entered twice, the [i]-th entry has the id [i], and the concatenation
    of every appended pair is an entry.  (A pair the merge table had before
    the call stays in it, and its concatenation need not be an entry:
    [ex_retrained_old_pair].) *)
Theorem X4_trained_vocabulary
    (tk0 tk : tokenizer) (texts : list str) (word_freqs : dict word Z)
    (Htrain : train_again tk0 texts = Ok tk)
    (Hcount : count_words texts [] = Ok word_freqs) :
  exists base added appended,
    merges tk = merges tk0 ++ appended
    /\ PyDict.keys (vocab tk) = base ++ added
    /\ strictly_sorted base
    /\ (forall t, In t base <-> exists w, In w (PyDict.keys word_freqs) /\ In t w)
    /\ Forall (fun t => exists p, In p appended /\ t = fst p ++ snd p) added
    /\ NoDup (PyDict.keys (vocab tk))
    /\ map snd (vocab tk) = map Z.of_nat (seq 0 (length (vocab tk)))
    /\ Forall (fun p => PyDict.mem (vocab tk) (fst p ++ snd p) = true) appended.
Proof.
  destruct (@train_again_inv _ _ _ Htrain) as [fresh [T [_ [Ev Em]]]].
  destruct (@train_vocab_inv _ _ _ _ T Hcount) as [D [ND [M [added [K A]]]]].
  unfold st_vocab, st_merges in *. cbn [fst snd] in *. rewrite Ev.
  exists (sorted_set (concat (PyDict.keys word_freqs))), added, (merges fresh).
  split; [exact Em|]. split; [exact K|]. split; [apply sorted_set_sorted|]. split.
  - intros t. rewrite sorted_set_In, in_concat. split.
    + intros [w [Iw It]]. exists w. auto.
    + intros [w [Iw It]]. exists w. auto.
  - split; [exact A|]. split; [exact ND|]. split; [exact D | exact M].
Qed.

Lemma X4_trained_vocabulary_witness :
  exists tk1 tk2 base added appended,
    train 4 [[s_a; s_a]; [s_a; s_a; s_a; s_b]] = Ok tk1
    /\ train_again tk1 [[s_a; s_a]; [s_a; s_a; s_a; s_b]] = Ok tk2
    /\ merges tk2 = merges tk1 ++ appended
    /\ PyDict.keys (vocab tk2) = base ++ added
    /\ strictly_sorted base
    /\ Forall (fun t => exists p, In p appended /\ t = fst p ++ snd p) added
    /\ map snd (vocab tk2) = map Z.of_nat (seq 0 (length (vocab tk2))).
Proof.
  destruct (@X4_trained_vocabulary
              {| vocab_size := 4;
                 vocab := [(END_OF_WORD, 0); ([s_a], 1); ([s_b], 2); ([s_a; s_a], 3)]%Z;
                 merges := [([s_a], [s_a])] |}
              {| vocab_size := 4;
                 vocab := [(END_OF_WORD, 0); ([s_a], 1); ([s_b], 2); ([s_a; s_a], 3)]%Z;
                 merges := [([s_a], [s_a]); ([s_a], [s_a])] |}
              [[s_a; s_a]; [s_a; s_a; s_a; s_b]]
              [(word_tuple [s_a; s_a], 1%Z); (word_tuple [s_a; s_a; s_a; s_b], 1%Z)])
    as [base [added [appended [Em [K [S [_ [A [_ [D _]]]]]]]]]];
    [vm_compute; reflexivity | vm_compute; reflexivity |].
  eexists. eexists. exists base, added, appended.
  split; [vm_compute; reflexivity|]. split; [vm_compute; reflexivity|]. auto.
Defined.

(** [tk_ab], trained again on ["cd"], keeps the pair [('a', 'b')], and
    ['ab'] is no entry of the vocabulary it has then. *)
Example ex_retrained_old_pair :
  exists tk, train_again tk_ab [[99; 100]%N] = Ok tk
             /\ In ([s_a], [s_b]) (merges tk)
             /\ PyDict.mem (vocab tk) [s_a; s_b] = false.
Proof.
  eexists. split; [vm_compute; reflexivity|]. split; [left; reflexivity | reflexivity].
Qed.

(** *** The words counted by [train] *)

Lemma keys_counter_add {K} `{PyEq K} (c : dict K Z) (k k' : K) (n : Z) :
  In k' (PyDict.keys (counter_add c k n)) <-> k' = k \/ In k' (PyDict.keys c).
Proof.
  unfold counter_add. rewrite PyDictFacts.keys_set.
  destruct (PyDict.mem c k) eqn:M.
  - apply mem_In_keys in M. split; [auto|]. intros [->|I]; assumption.
  - rewrite in_app_iff. cbn [In]. intuition congruence.
Qed.

Lemma keys_count_runs (ws : list str) :
  forall (wf : dict word Z) (k : word),
    In k (PyDict.keys (fold_left (fun wf w => counter_add wf (word_tuple w) 1%Z) ws wf))
    <-> In k (PyDict.keys wf) \/ exists w, In w ws /\ k = word_tuple w.
Proof.
  induction ws as [|w r IH]; intros wf k; cbn [fold_left].
  - split; [auto|]. intros [I|[w [[] _]]]. exact I.
  - rewrite IH, keys_counter_add. split.
    + intros [[->|I]|[w' [I' E]]].
      * right. exists w. split; [left; reflexivity | reflexivity].
      * left. exact I.
      * right. exists w'. split; [right; exact I' | exact E].
    + intros [I|[w' [[<-|I'] E]]].
      * left. right. exact I.
      * left. left. exact E.
      * right. exists w'. auto.
Qed.

(** [w] is the word of a non-empty text of [texts]. *)
Definition corpus_word (texts : list str) (w : str) : Prop :=
  exists text bs,
    In text texts /\ utf8_encode text = Ok bs /\ encode_bytes bs = Ok w /\ w <> [].

Lemma count_words_keys (texts : list str) :
  forall (wf0 wf : dict word Z),
    count_words texts wf0 = Ok wf ->
    forall k, In k (PyDict.keys wf)
              <-> In k (PyDict.keys wf0)
                  \/ exists w, corpus_word texts w /\ k = word_tuple w.
Proof.
  induction texts as [|text more IH]; intros wf0 wf E k; cbn [count_words] in E.
  - inversion E; subst wf. split; [auto|].
    intros [I|[w [[t [bs [[] _]]] _]]]. exact I.
  - apply bind_Ok in E. destruct E as [bs [Eb E]].
    apply bind_Ok in E. destruct E as [syms [Es E]].
    rewrite (IH _ _ E), keys_count_runs.
    destruct (encode_bytes_inv _ Es) as [F Esyms].
    assert (R : findall_runs syms = match syms with [] => [] | _ :: _ => [syms] end).
    { rewrite Esyms, (encoded_text_one_word F). destruct bs; reflexivity. }
    rewrite R. split.
    + intros [[I|[w [Iw Ew]]]|[w [[t [tb [It C]]] Ew]]].
      * left. exact I.
      * right. exists w. split; [|exact Ew].
        exists text, bs. split; [left; reflexivity|]. split; [exact Eb|].
        destruct syms as [|s0 sr]; [destruct Iw|]. destruct Iw as [<-|[]].
        split; [exact Es | discriminate].
      * right. exists w. split; [|exact Ew]. exists t, tb. split; [right; exact It | exact C].
    + intros [I|[w [[t [tb [[<-|It] [Etb [Ew NE]]]]] Ek]]].
      * left. left. exact I.
      * left. right. exists w. split; [|exact Ek].
        rewrite Eb in Etb. inversion Etb; subst tb. rewrite Es in Ew.
        inversion Ew; subst w. destruct syms; [contradiction NE; reflexivity|].
        left. reflexivity.
      * right. exists w. split; [|exact Ek]. exists t, tb. auto.
Qed.

Lemma In_word_tuple (w : str) (t : token) :
  In t (word_tuple w) <-> (exists c, In c w /\ t = [c]) \/ t = END_OF_WORD.
Proof.
  unfold word_tuple. rewrite in_app_iff, in_map_iff. cbn [In]. split.
  - intros [[c [E I]]|[E|[]]]; [left; exists c; auto | right; auto].
  - intros [[c [I E]]|E]; [left; exists c; auto | right; left; auto].
Qed.

(** The base tokens are the marker and the symbols of the words of the
    corpus. *)
Lemma base_tokens (texts : list str) (wf : dict word Z) (t : token) :
  count_words texts [] = Ok wf ->
  In t (sorted_set (concat (PyDict.keys wf)))
  <-> exists w, corpus_word texts w /\ ((exists c, In c w /\ t = [c]) \/ t = END_OF_WORD).
Proof.
  intros C. rewrite sorted_set_In, in_concat. split.
  - intros [k [Ik It]]. apply (@count_words_keys _ _ _ C) in Ik.
    destruct Ik as [[]|[w [Cw ->]]]. exists w. split; [exact Cw|].
    apply In_word_tuple. exact It.
  - intros [w [Cw It]]. exists (word_tuple w). split.
    + apply (@count_words_keys _ _ _ C). right. exists w. auto.
    + apply In_word_tuple. exact It.
Qed.

Lemma train_counts (target : Z) (texts : list str) (tk : tokenizer) :
  train target texts = Ok tk -> exists wf, count_words texts [] = Ok wf.
Proof.
  unfold train. intros E. apply bind_Ok in E. destruct E as [wf [C _]]. eauto.
Qed.

Lemma dense_ids_NoDup (d : dict token Z) : dense_ids d -> NoDup (map snd d).
Proof.
  unfold dense_ids. intros ->.
  apply NoDup_map_NoDup_ForallPairs; [|apply seq_NoDup].
  intros x y _ _ E. lia.
Qed.

(** *** Round trip on a trained tokenizer *)

(** The round trip after a call of [train]: [fresh] is the tokenizer a
    fresh training on the corpus gives, [tk] has its vocabulary and may have
    more pairs in its merge table. *)
Lemma roundtrip_trained (target : Z) (texts : list str) (fresh tk : tokenizer)
    (text : str) (bs : list N) :
  train target texts = Ok fresh ->
  vocab tk = vocab fresh ->
  Forall (fun p => PyDict.mem (vocab tk) (fst p ++ snd p) = true) (merges tk) ->
  utf8_encode text = Ok bs ->
  Forall (fun b => exists t tb, In t texts /\ utf8_encode t = Ok tb /\ In b tb) bs ->
  occurs END_OF_WORD text = false ->
  exists ids,
    encode tk text = Ok ids
    /\ decode tk ids = text
    /\ (text <> [] -> (1 <= length ids <= length bs + 1)%nat).
Proof.
  intros Htrain Ev Hm Hbytes Hseen Hfree.
  destruct (train_counts _ _ Htrain) as [wf C].
  destruct (@train_vocab_inv _ _ _ _ Htrain C) as [D [ND [_ [added [K A]]]]].
  unfold st_vocab, st_merges in *. cbn [fst snd] in *. rewrite <- Ev in D, ND, K.
  destruct (utf8_encode_inv _ Hbytes) as [V Eb].
  pose proof (encode_bytes_Ok (utf8_bytes_text_lt_256 V)) as Hsyms.
  rewrite <- Eb in Hsyms.
  assert (Base : forall t, In t (sorted_set (concat (PyDict.keys wf))) ->
                           PyDict.mem (vocab tk) t = true).
  { intros t It. apply mem_In_keys. rewrite K. apply in_or_app. left. exact It. }
  assert (Seen : forall b, In b bs ->
                   PyDict.mem (vocab tk) [symbol_of b] = true
                   /\ PyDict.mem (vocab tk) END_OF_WORD = true).
  { rewrite Forall_forall in Hseen. intros b Ib.
    destruct (Hseen b Ib) as [t [tb [It [Et Itb]]]].
    destruct (utf8_encode_inv _ Et) as [Vt Etb].
    pose proof (encode_bytes_Ok (utf8_bytes_text_lt_256 Vt)) as Ets.
    rewrite <- Etb in Ets.
    assert (Cw : corpus_word texts (map symbol_of tb)).
    { exists t, tb. split; [exact It|]. split; [exact Et|]. split; [exact Ets|].
      destruct tb; [destruct Itb | discriminate]. }
    split; apply Base; apply (@base_tokens _ _ _ C); exists (map symbol_of tb);
      (split; [exact Cw|]); [left | right; reflexivity].
    exists (symbol_of b). split; [apply in_map; exact Itb | reflexivity]. }
  apply (@roundtrip_known tk text bs (map symbol_of bs)); auto.
  - apply dense_ids_NoDup. exact D.
  - rewrite Forall_forall. intros c Ic. apply in_map_iff in Ic.
    destruct Ic as [b [<- Ib]]. exact (proj1 (Seen b Ib)).
  - intros NE. destruct bs as [|b r].
    + destruct text as [|c t]; [contradiction NE; reflexivity|].
      cbn [flat_map] in Eb. symmetry in Eb. apply app_eq_nil in Eb.
      destruct Eb as [Eb _]. contradiction (utf8_bytes_nonempty _ Eb).
    + exact (proj2 (Seen b (or_introl eq_refl))).
Qed.

Lemma corpus_text_encodes (texts : list str) (wf : dict word Z) (t : str) :
  count_words texts [] = Ok wf -> In t texts -> exists tb, utf8_encode t = Ok tb.
Proof.
  intros C It. revert C. generalize (@nil (word * Z)).
  induction texts as [|t0 more IH]; intros wf0 C; [destruct It|].
  cbn [count_words] in C. apply bind_Ok in C. destruct C as [tb [Eb C]].
  apply bind_Ok in C. destruct C as [syms [_ C]].
  destruct It as [<-|It]; [eauto | exact (IH It _ C)].
Qed.

(** The merge table after a call of [train] has the concatenations of its
    pairs in the vocabulary when the pairs it had before have. *)
Lemma train_again_merges_known (tk0 tk fresh : tokenizer) (texts : list str) :
  train (vocab_size tk0) texts = Ok fresh ->
  vocab tk = vocab fresh ->
  merges tk = merges tk0 ++ merges fresh ->
  Forall (fun p => PyDict.mem (vocab tk) (fst p ++ snd p) = true) (merges tk0) ->
  Forall (fun p => PyDict.mem (vocab tk) (fst p ++ snd p) = true) (merges tk).
Proof.
  intros T Ev Em Hold. destruct (train_counts _ _ T) as [wf C].
  destruct (@train_vocab_inv _ _ _ _ T C) as [_ [_ [M _]]].
  unfold st_vocab, st_merges in M. cbn [fst snd] in M.
  rewrite Em. apply Forall_app. split; [exact Hold|]. rewrite Ev. exact M.
Qed.

(** X5. Round trip after a call of [train], on a fresh tokenizer or on one
    that was trained before ([tk0]).  Suppose every pair the merge table had
    before the call has its concatenation in the vocabulary the call built;
    a fresh tokenizer has no such pair.  Then a text made of bytes that
    occur in the corpus, and without the four characters of the marker, is
    given back by [decode(encode(text))]; this holds for every text of the
    corpus that is free of the marker.  A non-empty text gives between one
    id and one id per byte plus one.  (Without the condition on the earlier
    pairs the round trip can fail: [ex_retrained_roundtrip_fails].) *)
Theorem X5_roundtrip_trained
    (tk0 tk : tokenizer) (texts : list str) (text : str) (bs : list N)
    (Htrain : train_again tk0 texts = Ok tk)
    (Hold : Forall (fun p => PyDict.mem (vocab tk) (fst p ++ snd p) = true)
                   (merges tk0))
    (Hbytes : utf8_encode text = Ok bs)
    (Hseen : Forall (fun b => exists t tb,
                       In t texts /\ utf8_encode t = Ok tb /\ In b tb) bs)
    (Hfree : occurs END_OF_WORD text = false) :
  (exists ids,
     encode tk text = Ok ids
     /\ decode tk ids = text
     /\ (text <> [] -> (1 <= length ids <= length bs + 1)%nat))
  /\ (forall t, In t texts -> occurs END_OF_WORD t = false ->
                exists ids, encode tk t = Ok ids /\ decode tk ids = t).
Proof.
  destruct (@train_again_inv _ _ _ Htrain) as [fresh [T [_ [Ev Em]]]].
  pose proof (@train_again_merges_known _ _ _ _ T Ev Em Hold) as Hm.
  split; [exact (@roundtrip_trained _ _ _ _ _ _ T Ev Hm Hbytes Hseen Hfree)|].
  intros t It Ft.
  destruct (train_counts _ _ T) as [wf C].
  destruct (@corpus_text_encodes _ _ _ C It) as [tb Et].
  destruct (@roundtrip_trained _ _ _ _ t tb T Ev Hm Et) as [ids [E [R _]]];
    [|exact Ft|eauto].
  rewrite Forall_forall. intros b Ib. exists t, tb. auto.
Qed.

Lemma X5_roundtrip_trained_witness :
  exists tk1 tk2 ids,
    train 4 [[s_a; s_a]; [s_a; s_a; s_a; s_b]] = Ok tk1
    /\ train_again tk1 [[s_a; s_a]; [s_a; s_a; s_a; s_b]] = Ok tk2
    /\ encode tk2 [s_b; s_a] = Ok ids
    /\ decode tk2 ids = [s_b; s_a].
Proof.
  destruct (@X5_roundtrip_trained
              {| vocab_size := 4;
                 vocab := [(END_OF_WORD, 0); ([s_a], 1); ([s_b], 2); ([s_a; s_a], 3)]%Z;
                 merges := [([s_a], [s_a])] |}
              {| vocab_size := 4;
                 vocab := [(END_OF_WORD, 0); ([s_a], 1); ([s_b], 2); ([s_a; s_a], 3)]%Z;
                 merges := [([s_a], [s_a]); ([s_a], [s_a])] |}
              [[s_a; s_a]; [s_a; s_a; s_a; s_b]]
              [s_b; s_a] [s_b; s_a])
    as [[ids [E [R _]]] _].
  - vm_compute; reflexivity.
  - repeat constructor.
  - reflexivity.
  - repeat constructor; exists [s_a; s_a; s_a; s_b], [s_a; s_a; s_a; s_b];
      (split; [right; left; reflexivity|]); (split; [reflexivity|]);
      cbn [In]; auto.
  - reflexivity.
  - eexists. eexists. exists ids. split; [vm_compute; reflexivity|].
    split; [vm_compute; reflexivity|]. split; [exact E | exact R].
Defined.

(** A tokenizer with target size 10 trained on ["a"] and then on
    ["a", "<", "bcdefghij"] keeps the pair [('a', '</w>')] of the first
    training; the second one builds a vocabulary of 12 symbols and no
    merge.  Then ["a"] is tokenized as ['a</w>'], which is no entry, so
    [encode] gives the ids of ['a'] and ['<'] and [decode] returns ["a<"]. *)
Example ex_retrained_roundtrip_fails :
  exists tk1 tk2 ids,
    train 10 [[s_a]] = Ok tk1
    /\ train_again tk1 [[s_a]; [60]; [98; 99; 100; 101; 102; 103; 104; 105; 106]]%N
       = Ok tk2
    /\ merges tk2 = [([s_a], END_OF_WORD)]
    /\ encode tk2 [s_a] = Ok ids
    /\ decode tk2 ids = [s_a; 60%N].
Proof.
  eexists. eexists. eexists. split; [vm_compute; reflexivity|].
  split; [vm_compute; reflexivity|]. split; [reflexivity|].
  split; vm_compute; reflexivity.
Qed.

(** *** The size of the vocabulary *)

(** Every token a base vocabulary can hold: the 256 symbols and the marker. *)
Definition all_base_tokens : list token :=
  map (fun b => [symbol_of b]) (range 0 256) ++ [END_OF_WORD].

Lemma length_all_base_tokens : length all_base_tokens = 257%nat.
Proof.
  unfold all_base_tokens, range. rewrite length_app, length_map, length_map, length_seq.
  reflexivity.
Qed.

Lemma base_vocab_length (texts : list str) (wf : dict word Z) :
  count_words texts [] = Ok wf -> (length (base_vocab wf) <= 257)%nat.
Proof.
  intros C. destruct (base_vocab_spec wf) as [K _].
  assert (L : length (base_vocab wf) = length (PyDict.keys (base_vocab wf)))
    by (unfold PyDict.keys; rewrite length_map; reflexivity).
  rewrite L, K, <- length_all_base_tokens.
  apply NoDup_incl_length.
  - apply strictly_sorted_NoDup. apply sorted_set_sorted.
  - intros t It. apply (@base_tokens _ _ _ C) in It.
    destruct It as [w [[text [bs [_ [_ [Ew _]]]]] [[c [Ic ->]]| ->]]];
      unfold all_base_tokens; apply in_or_app; [left | right; left; reflexivity].
    destruct (encode_bytes_inv _ Ew) as [F ->]. apply in_map_iff in Ic.
    destruct Ic as [b [<- Ib]]. rewrite Forall_forall in F.
    apply in_map_iff. exists b. split; [reflexivity|].
    apply In_range. specialize (F b Ib). lia.
Qed.

(** X6. The size of a trained vocabulary.  The base vocabulary has at most
    257 entries (the 256 symbols and the marker); after training the
    vocabulary has at most [max(257, vocab_size)] entries, so the check
    [stats['vocab_size'] < 5000] of [train_tokenizer] holds whenever the
    target is below 5000. *)
Theorem X6_vocabulary_size_bound
    (target : Z) (texts : list str) (tk : tokenizer)
    (Htrain : train target texts = Ok tk) :
  (exists base, base_alphabet_size texts = Ok base /\ (base <= 257)%Z
                /\ (base <= len (vocab tk) <= Z.max base target)%Z)
  /\ (len (vocab tk) <= Z.max 257 target)%Z
  /\ ((target < 5000)%Z -> vocab_ok (tokenizer_get_stats tk) = true).
Proof.
  destruct (train_counts _ _ Htrain) as [wf C].
  pose proof (base_vocab_length _ C) as LB.
  rewrite (train_unfold target _ C) in Htrain. inversion Htrain; subst tk; clear Htrain.
  set (st0 := (wf, base_vocab wf, []) : train_state).
  set (n := Z.to_nat (target - len (base_vocab wf))).
  destruct (train_loop_log n st0) as [_ [Ll [Lv _]]].
  change (st_vocab st0) with (base_vocab wf) in Lv.
  assert (Hn : n = Z.to_nat (target - len (base_vocab wf))) by reflexivity.
  assert (B : (len (base_vocab wf) <= len (st_vocab (train_loop n st0))
               <= Z.max (len (base_vocab wf)) target)%Z).
  { unfold len in *. lia. }
  cbn [vocab]. split; [|split].
  - exists (len (base_vocab wf)). unfold base_alphabet_size. rewrite C. cbn [bind].
    split; [reflexivity|]. split; [unfold len; lia | exact B].
  - unfold len in *. lia.
  - intros T. unfold vocab_ok, tokenizer_get_stats. cbn [stats_vocab_size vocab].
    apply Z.ltb_lt. unfold len in *. lia.
Qed.

Lemma X6_vocabulary_size_witness :
  exists tk,
    train 4 [[s_a; s_a]; [s_a; s_a; s_a; s_b]] = Ok tk
    /\ (len (vocab tk) <= Z.max 257 4)%Z
    /\ vocab_ok (tokenizer_get_stats tk) = true.
Proof.
  eexists. split; [vm_compute; reflexivity|].
  destruct (@X6_vocabulary_size_bound 4 [[s_a; s_a]; [s_a; s_a; s_a; s_b]]
              {| vocab_size := 4;
                 vocab := [(END_OF_WORD, 0); ([s_a], 1); ([s_b], 2); ([s_a; s_a], 3)]%Z;
                 merges := [([s_a], [s_a])] |})
    as [_ [L V]]; [vm_compute; reflexivity|].
  split; [exact L | apply V; lia].
Defined.

(** *** What [_get_stats] counts *)

(** How often [x] is in [l]. *)
Fixpoint count_of {A} `{PyEq A} (x : A) (l : list A) : nat :=
  match l with
  | [] => 0
  | y :: r => (if py_eqb x y then 1 else 0) + count_of x r
  end.

(** The occurrences of [p] as an adjacent pair in the words, each weighted
    by the count of its word. *)
Fixpoint pair_total (p : merge_pair) (word_freqs : dict word Z) : Z :=
  match word_freqs with
  | [] => 0
  | wf :: r => Z.of_nat (count_of p (adjacent_pairs (fst wf))) * snd wf + pair_total p r
  end.

(** The elements of [l] that are not in [seen], each once, in the order of
    their first occurrence. *)
Fixpoint first_seen {A} `{PyEq A} (seen l : list A) : list A :=
  match l with
  | [] => []
  | x :: r => if list_mem x seen then first_seen seen r
              else x :: first_seen (seen ++ [x]) r
  end.

(** [c[k]] on a [Counter]: 0 for a missing key. *)
Definition counter_get {K} `{PyEq K} (c : dict K Z) (k : K) : Z :=
  match PyDict.get c k with Some v => v | None => 0%Z end.

Lemma get_counter_add {K} `{PyEq K} (c : dict K Z) (k k' : K) (n : Z) :
  PyDict.get (counter_add c k n) k'
  = if py_eqb k' k then Some (counter_get c k + n)%Z else PyDict.get c k'.
Proof.
  unfold counter_add, counter_get. destruct (py_eqb k' k) eqn:E.
  - apply py_eqb_eq in E. subst k'. apply PyDictFacts.get_set_same.
  - apply py_eqb_neq in E. apply PyDictFacts.get_set_other. congruence.
Qed.

Lemma mem_list_mem_keys {K V} `{PyEq K} (d : dict K V) (k : K) :
  PyDict.mem d k = list_mem k (PyDict.keys d).
Proof.
  destruct (list_mem k (PyDict.keys d)) eqn:L.
  - apply mem_In_keys. apply list_mem_In. exact L.
  - destruct (PyDict.mem d k) eqn:M; [|reflexivity].
    apply mem_In_keys in M. apply list_mem_In in M. congruence.
Qed.

Lemma count_of_not_mem {A} `{PyEq A} (x : A) (l : list A) :
  list_mem x l = false -> count_of x l = 0%nat.
Proof.
  unfold list_mem. induction l as [|y r IH]; cbn [existsb count_of]; [reflexivity|].
  intros E. apply orb_false_iff in E. destruct E as [E1 E2].
  rewrite E1, (IH E2). reflexivity.
Qed.

Lemma get_count_pairs (p : merge_pair) (f : Z) (ps : list merge_pair) :
  forall c : dict merge_pair Z,
    PyDict.get (fold_left (fun pairs q => counter_add pairs q f) ps c) p
    = if list_mem p ps
      then Some (counter_get c p + Z.of_nat (count_of p ps) * f)%Z
      else PyDict.get c p.
Proof.
  induction ps as [|q r IH]; intros c; [reflexivity|].
  cbn [fold_left]. rewrite IH. unfold list_mem. cbn [existsb count_of].
  fold (list_mem p r).
  unfold counter_get at 1. rewrite get_counter_add.
  destruct (py_eqb p q) eqn:E; cbn [orb]; cbv iota.
  - apply py_eqb_eq in E. subst q.
    destruct (list_mem p r) eqn:L; f_equal.
    + rewrite Nat2Z.inj_add. change (Z.of_nat 1) with 1%Z. ring.
    + rewrite (count_of_not_mem _ _ L). change (Z.of_nat (1 + 0)) with 1%Z. ring.
  - destruct (list_mem p r); [|reflexivity]. f_equal.
Qed.

Lemma keys_count_pairs (f : Z) (ps : list merge_pair) :
  forall c : dict merge_pair Z,
    PyDict.keys (fold_left (fun pairs q => counter_add pairs q f) ps c)
    = PyDict.keys c ++ first_seen (PyDict.keys c) ps.
Proof.
  induction ps as [|q r IH]; intros c; cbn [fold_left first_seen].
  - rewrite app_nil_r. reflexivity.
  - rewrite IH. unfold counter_add at 1 2. rewrite PyDictFacts.keys_set.
    rewrite mem_list_mem_keys.
    destruct (list_mem q (PyDict.keys c)); [reflexivity|].
    rewrite <- app_assoc. reflexivity.
Qed.

Lemma first_seen_app {A} `{PyEq A} (l1 l2 : list A) :
  forall seen,
    first_seen seen (l1 ++ l2)
    = first_seen seen l1 ++ first_seen (seen ++ first_seen seen l1) l2.
Proof.
  induction l1 as [|x r IH]; intros seen; cbn [app first_seen].
  - rewrite app_nil_r. reflexivity.
  - destruct (list_mem x seen); [apply IH|].
    cbn [app]. rewrite IH, <- app_assoc. reflexivity.
Qed.

Lemma pair_total_absent (p : merge_pair) (word_freqs : dict word Z) :
  existsb (fun wf => list_mem p (adjacent_pairs (fst wf))) word_freqs = false ->
  pair_total p word_freqs = 0%Z.
Proof.
  induction word_freqs as [|wf r IH]; cbn [existsb pair_total]; [reflexivity|].
  intros E. apply orb_false_iff in E. destruct E as [E1 E2].
  rewrite (count_of_not_mem _ _ E1), (IH E2). reflexivity.
Qed.

Lemma get_stats_fold (p : merge_pair) (word_freqs : dict word Z) :
  forall c : dict merge_pair Z,
    let c' := fold_left
                (fun pairs wf =>
                   fold_left (fun pairs q => counter_add pairs q (snd wf))
                             (adjacent_pairs (fst wf)) pairs)
                word_freqs c in
    PyDict.get c' p
    = (if existsb (fun wf => list_mem p (adjacent_pairs (fst wf))) word_freqs
       then Some (counter_get c p + pair_total p word_freqs)%Z
       else PyDict.get c p)
    /\ PyDict.keys c'
       = PyDict.keys c
         ++ first_seen (PyDict.keys c)
              (flat_map (fun wf => adjacent_pairs (fst wf)) word_freqs).
Proof.
  induction word_freqs as [|wf r IH]; intros c; cbn zeta.
  - cbn [fold_left existsb flat_map first_seen]. rewrite app_nil_r. split; reflexivity.
  - cbn [fold_left existsb flat_map pair_total].
    destruct (IH (fold_left (fun pairs q => counter_add pairs q (snd wf))
                            (adjacent_pairs (fst wf)) c)) as [G K].
    cbn zeta in G, K. split.
    + rewrite G. unfold counter_get at 1. rewrite get_count_pairs.
      destruct (list_mem p (adjacent_pairs (fst wf))) eqn:L; cbn [orb].
      * destruct (existsb _ r) eqn:X; f_equal; [ring|].
        rewrite (pair_total_absent _ _ X). ring.
      * destruct (existsb _ r); [|reflexivity]. f_equal.
        rewrite (count_of_not_mem _ _ L). fold (counter_get c p).
        change (Z.of_nat 0) with 0%Z. ring.
    + rewrite K, keys_count_pairs, first_seen_app, <- app_assoc. reflexivity.
Qed.


Example ex_get_stats_overlap :
  get_stats [([[s_a]; [s_a]; [s_a]; [s_b]], 2%Z); ([[s_a]; [s_b]], 3%Z)]
  = [(([s_a], [s_a]), 4%Z); (([s_a], [s_b]), 5%Z)].
Proof. reflexivity. Qed.

(** *** Which pair [max] takes *)

Lemma max_by_count_first {K} (others : list (K * Z)) :
  forall first : K * Z,
    exists before after,
      first :: others = before ++ max_by_count first others :: after
      /\ Forall (fun kv => (snd kv < snd (max_by_count first others))%Z) before
      /\ Forall (fun kv => (snd kv <= snd (max_by_count first others))%Z) after.
Proof.
  unfold max_by_count.
  induction others as [|x r IH]; intros first; cbn [fold_left].
  - exists [], []. split; [reflexivity|]. split; constructor.
  - destruct (snd first <? snd x)%Z eqn:C.
    + apply Z.ltb_lt in C. destruct (IH x) as [before [after [E [B A]]]].
      exists (first :: before), after. split; [cbn [app]; rewrite E; reflexivity|].
      split; [|exact A]. constructor; [|exact B].
      destruct (@max_by_count_spec K x r) as [_ M].
      specialize (M x (or_introl eq_refl)). unfold max_by_count in M. lia.
    + apply Z.ltb_ge in C. destruct (IH first) as [before [after [E [B A]]]].
      remember (fold_left (fun best kv : K * Z =>
                             if (snd best <? snd kv)%Z then kv else best) r first)
        as M eqn:EM.
      clear EM IH.
      destruct before as [|b0 before']; cbn [app] in E; injection E as E1 E2.
      * subst first r. exists [], (x :: after). cbn [app].
        split; [reflexivity|]. split; [constructor|].
        constructor; [exact C | exact A].
      * subst b0 r. exists (first :: x :: before'), after. cbn [app].
        split; [reflexivity|]. split; [|exact A].
        inversion B as [|? ? B1 B2]; subst.
        constructor; [exact B1|]. constructor; [lia | exact B2].
Qed.

(** X8. Ties among the pairs. [max(pairs, key=pairs.get)] takes the first
    pair, in the order of the counter, whose count is the largest: in a
    round of the merge loop every pair before the chosen one has a strictly
    smaller count, and every pair after it a count that is not larger. *)
Theorem X8_best_pair_is_first_maximum
    (st st' : train_state) (p : merge_pair) (f : Z)
    (Hstep : train_step st = Some (p, f, st')) :
  exists before after,
    get_stats (st_word_freqs st) = before ++ (p, f) :: after
    /\ Forall (fun kv => (snd kv < f)%Z) before
    /\ Forall (fun kv => (snd kv <= f)%Z) after
    /\ ~ In p (map fst before) /\ ~ In p (map fst after).
Proof.
  destruct st as [[wf v] m]. unfold st_word_freqs. cbn [fst].
  unfold train_step in Hstep.
  pose proof (get_stats_NoDup wf) as ND.
  destruct (get_stats wf) as [|first others] eqn:S; [discriminate Hstep|].
  destruct (max_by_count_first others first) as [before [after [E [B A]]]].
  destruct (max_by_count first others) as [best freq].
  inversion Hstep; subst; clear Hstep. cbn [snd] in B, A.
  exists before, after. split; [exact E|]. split; [exact B|]. split; [exact A|].
  rewrite E in ND. unfold PyDict.keys in ND. rewrite map_app in ND. cbn [map fst] in ND.
  split.
  - intros I. apply NoDup_remove_2 in ND. apply ND. apply in_or_app. left. exact I.
  - intros I. apply NoDup_remove_2 in ND. apply ND. apply in_or_app. right. exact I.
Qed.

Lemma X8_best_pair_witness :
  exists before after,
    get_stats [([[s_a]; [s_b]; [s_a]; [s_a]], 1%Z)]
    = before ++ (([s_a], [s_b]), 1%Z) :: after
    /\ Forall (fun kv => (snd kv < 1)%Z) before
    /\ Forall (fun kv => (snd kv <= 1)%Z) after.
Proof.
  destruct (@X8_best_pair_is_first_maximum
              ([([[s_a]; [s_b]; [s_a]; [s_a]], 1%Z)], [], [])
              ([([[s_a; s_b]; [s_a]; [s_a]], 1%Z)], [([s_a; s_b], 0%Z)], [([s_a], [s_b])])
              ([s_a], [s_b]) 1%Z)
    as [before [after [E [B [A _]]]]]; [reflexivity|].
  exists before, after. auto.
Defined.

(** *** [_merge_vocab] and the word counts *)

Lemma fold_left_map {A B C} (f : A -> B -> A) (g : C -> B) (l : list C) :
  forall a, fold_left f (map g l) a = fold_left (fun a x => f a (g x)) l a.
Proof. induction l as [|x r IH]; intros a; cbn [map fold_left]; auto. Qed.

Lemma map_concat_merge (pair : merge_pair) (ws : list word) :
  map (@concat N) (map (merge_word pair) ws) = map (@concat N) ws.
Proof.
  rewrite map_map. apply map_ext. intros w. apply merge_word_concat.
Qed.

Lemma merge_vocab_entrywise (pair : merge_pair) (word_freqs : dict word Z) :
  NoDup (map (@concat N) (PyDict.keys word_freqs)) ->
  merge_vocab pair word_freqs
  = map (fun wf => (merge_word pair (fst wf), snd wf)) word_freqs.
Proof.
  intros ND. unfold merge_vocab.
  set (g := fun wf : word * Z => (merge_word pair (fst wf), snd wf)).
  change (fold_left (fun d wf => PyDict.set d (fst (g wf)) (snd (g wf))) word_freqs []
          = map g word_freqs).
  rewrite <- (fold_left_map (fun d kv => PyDict.set d (fst kv) (snd kv)) g).
  apply (of_list_fold_NoDup (map g word_freqs) []). cbn [app].
  apply (NoDup_map_inv (@concat N)). rewrite map_map.
  unfold PyDict.keys in ND. rewrite map_map in *.
  exact (eq_ind_r (fun l => NoDup l) ND
           (map_ext _ _ (fun wf => merge_word_concat pair (fst wf)) word_freqs)).
Qed.

(** X9. [_merge_vocab] on words with pairwise distinct spellings is the
    merge pass applied entry by entry: no two words fall on one key, so every
    count is kept, in the same order, and the spellings stay distinct. *)
Theorem X9_merge_vocab_keeps_counts (pair : merge_pair) (word_freqs : dict word Z)
    (Hdistinct : NoDup (map (@concat N) (PyDict.keys word_freqs))) :
  merge_vocab pair word_freqs
  = map (fun wf => (merge_word pair (fst wf), snd wf)) word_freqs
  /\ map snd (merge_vocab pair word_freqs) = map snd word_freqs
  /\ map (@concat N) (PyDict.keys (merge_vocab pair word_freqs))
     = map (@concat N) (PyDict.keys word_freqs)
  /\ NoDup (map (@concat N) (PyDict.keys (merge_vocab pair word_freqs))).
Proof.
  pose proof (@merge_vocab_entrywise pair word_freqs Hdistinct) as E.
  assert (C : map (@concat N) (PyDict.keys (merge_vocab pair word_freqs))
              = map (@concat N) (PyDict.keys word_freqs)).
  { rewrite E. unfold PyDict.keys. rewrite !map_map. apply map_ext.
    intros wf. apply merge_word_concat. }
  split; [exact E|]. split.
  - rewrite E, map_map. reflexivity.
  - split; [exact C|]. rewrite C. exact Hdistinct.
Qed.

Lemma X9_merge_vocab_witness :
  merge_vocab ([s_a], [s_b]) [([[s_a]; [s_b]; [s_a]], 2%Z); ([[s_a]; [s_b]], 3%Z)]
  = [([[s_a; s_b]; [s_a]], 2%Z); ([[s_a; s_b]], 3%Z)].
Proof.
  destruct (@X9_merge_vocab_keeps_counts ([s_a], [s_b])
              [([[s_a]; [s_b]; [s_a]], 2%Z); ([[s_a]; [s_b]], 3%Z)]) as [E _].
  - repeat constructor; cbn [In]; intros I;
      repeat (destruct I as [I|I]; [discriminate I|]); exact I.
  - exact E.
Defined.

(** Two entries with one spelling: the count of the first is lost. *)
Example ex_merge_vocab_overwrites :
  merge_vocab ([s_a], [s_b]) [([[s_a]; [s_b]], 2%Z); ([[s_a; s_b]], 3%Z)]
  = [([[s_a; s_b]], 3%Z)].
Proof. reflexivity. Qed.

(** The words [train] counts have distinct spellings, and the merge loop
    keeps them and their counts. *)
Lemma word_tuple_inj (w1 w2 : str) : concat (word_tuple w1) = concat (word_tuple w2) -> w1 = w2.
Proof. rewrite !concat_word_tuple. apply app_inv_tail. Qed.

Lemma count_words_distinct (texts : list str) (wf : dict word Z) :
  count_words texts [] = Ok wf -> NoDup (map (@concat N) (PyDict.keys wf)).
Proof.
  intros C.
  assert (ND : NoDup (PyDict.keys wf)).
  { revert C. generalize (@NoDup_nil word).
    change (@nil word) with (PyDict.keys (@nil (word * Z))).
    generalize (@nil (word * Z)). revert wf.
    induction texts as [|t more IH]; intros wf wf0 ND0 C; cbn [count_words] in C.
    - inversion C; subst. exact ND0.
    - apply bind_Ok in C. destruct C as [bs [_ C]].
      apply bind_Ok in C. destruct C as [syms [_ C]].
      apply (IH _ _ (fold_left_inv (fun d => NoDup (PyDict.keys d)) _ _ _ ND0
                       (fun d w _ Hd => @NoDup_keys_counter_add _ _ d _ _ Hd)) C). }
  assert (W : forall k, In k (PyDict.keys wf) -> exists w, k = word_tuple w).
  { intros k Ik. apply (@count_words_keys _ _ _ C) in Ik.
    destruct Ik as [[]|[w [_ E]]]. eauto. }
  revert ND W. generalize (PyDict.keys wf). intros ks.
  induction 1 as [|k r NI ND IH]; intros W; cbn [map]; [constructor|].
  constructor; [|apply IH; intros k' I'; apply W; right; exact I'].
  intros I. apply in_map_iff in I. destruct I as [k' [E I']].
  destruct (W k (or_introl eq_refl)) as [w ->].
  destruct (W k' (or_intror I')) as [w' ->].
  apply word_tuple_inj in E. subst w'. contradiction.
Qed.

Lemma train_loop_keeps_words
    (texts : list str) (word_freqs : dict word Z) (v : dict token Z)
    (m : list merge_pair) (n : nat) :
  count_words texts [] = Ok word_freqs ->
  map (@concat N) (PyDict.keys (st_word_freqs (train_loop n (word_freqs, v, m))))
  = map (@concat N) (PyDict.keys word_freqs)
  /\ map snd (st_word_freqs (train_loop n (word_freqs, v, m))) = map snd word_freqs
  /\ NoDup (map (@concat N) (PyDict.keys word_freqs)).
Proof.
  intros Hcount.
  pose proof (@count_words_distinct _ _ Hcount) as ND.
  split; [|split; [|exact ND]].
  - apply (@train_loop_inv
             (fun st => map (@concat N) (PyDict.keys (st_word_freqs st))
                        = map (@concat N) (PyDict.keys word_freqs))); [|reflexivity].
    intros st p f st' E Inv.
    destruct (train_step_Some_inv _ E) as [_ [-> _]].
    assert (D : NoDup (map (@concat N) (PyDict.keys (st_word_freqs st))))
      by (rewrite Inv; exact ND).
    rewrite (@merge_vocab_entrywise p _ D), <- Inv.
    unfold PyDict.keys. rewrite !map_map. apply map_ext.
    intros wf. apply merge_word_concat.
  - apply (@train_loop_inv
             (fun st => map (@concat N) (PyDict.keys (st_word_freqs st))
                        = map (@concat N) (PyDict.keys word_freqs)
                        /\ map snd (st_word_freqs st) = map snd word_freqs));
      [|split; reflexivity].
    intros st p f st' E [Inv S].
    destruct (train_step_Some_inv _ E) as [_ [-> _]].
    assert (D : NoDup (map (@concat N) (PyDict.keys (st_word_freqs st))))
      by (rewrite Inv; exact ND).
    rewrite (@merge_vocab_entrywise p _ D). split.
    + rewrite <- Inv. unfold PyDict.keys. rewrite !map_map. apply map_ext.
      intros wf. apply merge_word_concat.
    + rewrite <- S, map_map. reflexivity.
Qed.

(** X10. Training loses no word.  Through all rounds of the merge loop the
    word table keeps its entries in their order: after any number of rounds
    each word spells what it spelt at the start and has the count it had. *)
Theorem X10_training_keeps_words
    (texts : list str) (word_freqs : dict word Z) (v : dict token Z)
    (m : list merge_pair) (n : nat)
    (Hcount : count_words texts [] = Ok word_freqs) :
  let st := train_loop n (word_freqs, v, m) in
  map (@concat N) (PyDict.keys (st_word_freqs st)) = map (@concat N) (PyDict.keys word_freqs)
  /\ map snd (st_word_freqs st) = map snd word_freqs
  /\ NoDup (map (@concat N) (PyDict.keys word_freqs)).
Proof. exact (@train_loop_keeps_words texts word_freqs v m n Hcount). Qed.

Lemma X10_training_keeps_words_witness :
  let st := train_loop 2 ([(word_tuple [s_a; s_b], 1%Z); (word_tuple [s_b], 1%Z)], [], []) in
  map snd (st_word_freqs st) = [1%Z; 1%Z].
Proof.
  destruct (@X10_training_keeps_words [[s_a; s_b]; [s_b]]
              [(word_tuple [s_a; s_b], 1%Z); (word_tuple [s_b], 1%Z)] [] [] 2)
    as [_ [S _]]; [vm_compute; reflexivity|].
  exact S.
Defined.

(** *** How many ids [encode] gives *)

Lemma char_ids_length (v : dict token Z) (t : token) :
  (length (flat_map (char_ids v) t) <= length t)%nat.
Proof.
  induction t as [|c r IH]; [reflexivity|].
  cbn [flat_map]. rewrite length_app. unfold char_ids at 1.
  destruct (PyDict.get v [c]); cbn [length]; lia.
Qed.

Lemma token_ids_length (v : dict token Z) (t : token) :
  t <> [] -> (length (token_ids v t) <= length t)%nat.
Proof.
  intros NE. rewrite token_ids_unfold.
  destruct (PyDict.get v t); [|apply char_ids_length].
  destruct t; [contradiction NE; reflexivity | cbn [length]; lia].
Qed.

Lemma ids_length (v : dict token Z) (toks : list token) :
  Forall (fun t => t <> []) toks ->
  (length (flat_map (token_ids v) toks) <= length (concat toks))%nat.
Proof.
  induction 1 as [|t r NE _ IH]; [reflexivity|].
  cbn [flat_map concat]. rewrite !length_app.
  pose proof (token_ids_length v NE). lia.
Qed.

(** X11. [encode] gives at most one id per byte of the text and four more
    (the marker, or its four characters when the marker is no entry of the
    vocabulary), whatever the vocabulary and the merge table are; the empty
    text gives no id. *)
Theorem X11_encode_length (tk : tokenizer) (text : str) (bs : list N)
    (Hbytes : utf8_encode text = Ok bs) :
  exists ids,
    encode tk text = Ok ids
    /\ (length ids <= length bs + 4)%nat
    /\ (text = [] -> ids = []).
Proof.
  destruct (utf8_encode_inv _ Hbytes) as [V Eb].
  pose proof (encode_bytes_Ok (utf8_bytes_text_lt_256 V)) as Hsyms.
  rewrite <- Eb in Hsyms.
  rewrite (encode_segments tk _ Hbytes Hsyms).
  destruct (map symbol_of bs) as [|s0 sr] eqn:Es.
  - exists []. split; [reflexivity|]. split; [cbn [length]; lia | reflexivity].
  - rewrite <- Es.
    destruct (tokenize_word_keeps (merges tk) (map symbol_of bs)) as [toks [T [C _]]].
    rewrite T. cbn [bind]. eexists. split; [reflexivity|]. split.
    + pose proof (ids_length (vocab tk) (tokenize_word_nonempty _ _ T)) as L.
      rewrite C, length_app, length_map in L. cbn [length] in L. exact L.
    + intros ->. cbn [flat_map] in Eb. subst bs. discriminate Es.
Qed.

Lemma X11_encode_length_witness :
  exists ids,
    encode {| vocab_size := 0;
              vocab := [([s_a], 0); ([60%N], 1); ([47%N], 2); ([119%N], 3); ([62%N], 4)]%Z;
              merges := [] |} [s_a] = Ok ids
    /\ (length ids <= 1 + 4)%nat
    /\ ([s_a] = [] -> ids = []).
Proof.
  apply (@X11_encode_length
           {| vocab_size := 0;
              vocab := [([s_a], 0); ([60%N], 1); ([47%N], 2); ([119%N], 3); ([62%N], 4)]%Z;
              merges := [] |} [s_a] [s_a]).
  reflexivity.
Defined.

(** The bound is reached. *)
Example ex_encode_length_tight :
  encode {| vocab_size := 0;
            vocab := [([s_a], 0); ([60%N], 1); ([47%N], 2); ([119%N], 3); ([62%N], 4)]%Z;
            merges := [] |} [s_a] = Ok [0; 1; 2; 3; 4]%Z.
Proof. vm_compute. reflexivity. Qed.

(** *** Training on a corpus without words *)


Lemma token_ids_empty_vocab (t : token) : token_ids [] t = [].
Proof.
  rewrite token_ids_unfold. cbn [PyDict.get].
  induction t as [|c r IH]; [reflexivity | exact IH].
Qed.

Lemma encode_empty_vocab (tk : tokenizer) (text : str) :
  vocab tk = [] -> valid_text text -> encode tk text = Ok [].
Proof.
  intros Ev V. rewrite (encode_valid tk V).
  generalize (findall_runs (map symbol_of (flat_map utf8_bytes text))).
  intros ws. induction ws as [|w r IH]; [reflexivity|].
  cbn [encode_words].
  destruct (tokenize_word_total (merges tk) w) as [toks [_ [_ T]]].
  rewrite T. cbn [bind]. rewrite IH. cbn [bind]. rewrite Ev, app_nil_r.
  f_equal. clear T. induction toks as [|t ts IHt]; [reflexivity|].
  cbn [flat_map]. rewrite token_ids_empty_vocab. exact IHt.
Qed.




(** *** The division of [evaluate_on_samples] *)

Lemma len_zero {A} (l : list A) : (len l =? 0)%Z = true <-> l = [].
Proof.
  unfold len. destruct l as [|x r]; cbn [length].
  - split; reflexivity.
  - split; [intros E; apply Z.eqb_eq in E; lia | discriminate].
Qed.

Lemma evaluate_sample_valid (tk : tokenizer) (text : str) :
  valid_text text ->
  exists ids,
    encode tk text = Ok ids
    /\ evaluate_sample tk text
       = match ids with
         | [] => inr ZeroDivisionError
         | _ :: _ =>
             inl {| original_bytes := len (flat_map utf8_bytes text);
                    sample_token_ids := ids;
                    decoded_text := decode tk ids;
                    decoding_match := py_eqb (decode tk ids) text;
                    compression := int_truediv (len (flat_map utf8_bytes text))
                                               (len ids) |}
         end.
Proof.
  intros V. unfold evaluate_sample. rewrite (utf8_encode_valid V).
  destruct (encode_words_total tk (findall_runs (map symbol_of (flat_map utf8_bytes text))))
    as [ids E].
  rewrite <- (encode_valid tk V) in E. rewrite E. exists ids. split; [reflexivity|].
  destruct ids as [|i r]; [reflexivity|].
  cbn zeta. destruct (len (i :: r) =? 0)%Z eqn:Z0; [|reflexivity].
  apply len_zero in Z0. discriminate Z0.
Qed.

Lemma evaluate_samples_valid (tk : tokenizer) (texts : list str) :
  Forall valid_text texts ->
  (evaluate_samples tk texts = inr ZeroDivisionError
   /\ exists text, In text texts /\ encode tk text = Ok [])
  \/ (exists rs, evaluate_samples tk texts = inl rs /\ length rs = length texts
                 /\ forall text, In text texts -> encode tk text <> Ok []).
Proof.
  induction 1 as [|t r Vt _ IH]; cbn [evaluate_samples].
  - right. exists []. split; [reflexivity|]. split; [reflexivity|]. intros text [].
  - destruct (evaluate_sample_valid tk Vt) as [ids [E S]]. rewrite S.
    destruct ids as [|i ids'].
    + left. split; [reflexivity|]. exists t. split; [left; reflexivity | exact E].
    + destruct IH as [[R [text [I Et]]]|[rs [R [L NZ]]]]; rewrite R.
      * left. split; [reflexivity|]. exists text. split; [right; exact I | exact Et].
      * right. eexists. split; [reflexivity|]. split; [cbn [length]; lia|].
        intros text [<-|I]; [rewrite E; discriminate | exact (NZ text I)].
Qed.

(** X13. The division of [evaluate_on_samples] is not guarded.  On texts
    that have a UTF-8 encoding the function fails, with [ZeroDivisionError],
    exactly when [encode] gives no id for one of the first five texts; this
    is so for the empty text, and for every text when the vocabulary is
    empty.  Otherwise it gives one report for each of these texts.  The
    quotient of [compare_with_different_texts] is the int [0] where this one
    fails. *)
Theorem X13_evaluate_division (tk : tokenizer) (texts : list str)
    (Hvalid : Forall valid_text texts) :
  (evaluate_on_samples tk texts = inr ZeroDivisionError
   <-> exists text, In text (firstn 5 texts) /\ encode tk text = Ok [])
  /\ ((forall text, In text (firstn 5 texts) -> encode tk text <> Ok []) ->
      exists rs, evaluate_on_samples tk texts = inl rs
                 /\ length rs = Nat.min 5 (length texts))
  /\ evaluate_sample tk [] = inr ZeroDivisionError
  /\ (vocab tk = [] ->
      forall text, valid_text text -> evaluate_sample tk text = inr ZeroDivisionError)
  /\ (forall bytes_count, guarded_compression bytes_count [] = Int 0).
Proof.
  assert (V5 : Forall valid_text (firstn 5 texts)).
  { rewrite Forall_forall in *. intros t I. apply Hvalid.
    rewrite <- (firstn_skipn 5 texts). apply in_or_app. left. exact I. }
  unfold evaluate_on_samples.
  destruct (evaluate_samples_valid tk V5) as [[R Ex]|[rs [R [L NZ]]]].
  - split; [split; [intros _; exact Ex | intros _; exact R]|].
    split.
    { intros NZ. destruct Ex as [text [I E]]. contradiction (NZ text I E). }
    split; [reflexivity|]. split; [|reflexivity].
    intros Ev text V. destruct (evaluate_sample_valid tk V) as [ids [E S]].
    rewrite (encode_empty_vocab tk Ev V) in E. inversion E; subst ids. exact S.
  - split.
    { split; [rewrite R; discriminate|].
      intros [text [I E]]. contradiction (NZ text I E). }
    split.
    { intros _. exists rs. split; [exact R|]. rewrite L. apply length_firstn. }
    split; [reflexivity|]. split; [|reflexivity].
    intros Ev text V. destruct (evaluate_sample_valid tk V) as [ids [E S]].
    rewrite (encode_empty_vocab tk Ev V) in E. inversion E; subst ids. exact S.
Qed.

Lemma X13_evaluate_division_witness :
  evaluate_on_samples tk_ab [[s_a]; []; [s_b]] = inr ZeroDivisionError.
Proof.
  destruct (@X13_evaluate_division tk_ab [[s_a]; []; [s_b]]) as [[_ Z0] _].
  - repeat constructor.
  - apply Z0. exists []. split; [right; left; reflexivity | reflexivity].
Defined.

(** X14. Evaluating a text of the corpus.  Take a tokenizer after a call
    of [train] on a corpus, fresh before the call or with earlier pairs whose
    concatenations are all in the vocabulary the call built.  The loop body
    of [evaluate_on_samples] on a non-empty text of that corpus without the
    characters of the marker does not fail: the decoded text is the text, the
    match is reported, the number of ids is between 1 and the number of bytes
    plus 1, and the compression is the float of the number of bytes over the
    number of ids: that quotient rounded to binary64, to nearest and ties to
    even. *)
Theorem X14_evaluate_corpus_text
    (tk0 tk : tokenizer) (texts : list str) (text : str)
    (Htrain : train_again tk0 texts = Ok tk)
    (Hold : Forall (fun p => PyDict.mem (vocab tk) (fst p ++ snd p) = true)
                   (merges tk0))
    (Hin : In text texts)
    (Hne : text <> [])
    (Hfree : occurs END_OF_WORD text = false) :
  exists r,
    evaluate_sample tk text = inl r
    /\ decoded_text r = text
    /\ decoding_match r = true
    /\ encode tk text = Ok (sample_token_ids r)
    /\ utf8_encode text = Ok (flat_map utf8_bytes text)
    /\ original_bytes r = len (flat_map utf8_bytes text)
    /\ (1 <= len (sample_token_ids r) <= original_bytes r + 1)%Z
    /\ (1 <= original_bytes r)%Z
    /\ rounds_to_nearest_even
         (inject_Z (original_bytes r) / inject_Z (len (sample_token_ids r)))
         (compression r).
Proof.
  destruct (@train_again_inv _ _ _ Htrain) as [fresh [T [_ [Ev Em]]]].
  pose proof (@train_again_merges_known _ _ _ _ T Ev Em Hold) as Hm.
  destruct (train_counts _ _ T) as [wf C].
  destruct (@corpus_text_encodes _ _ _ C Hin) as [tb Et].
  destruct (utf8_encode_inv _ Et) as [V Etb].
  destruct (@roundtrip_trained _ _ _ _ text tb T Ev Hm Et) as [ids [E [R L]]];
    [|exact Hfree|].
  { rewrite Forall_forall. intros b Ib. exists text, tb. auto. }
  specialize (L Hne).
  destruct (evaluate_sample_valid tk V) as [ids' [E' S]].
  rewrite E in E'. inversion E'; subst ids'. clear E'.
  destruct ids as [|i r]; [cbn [length] in L; lia|].
  assert (Lb : (1 <= len (flat_map utf8_bytes text))%Z).
  { destruct text as [|c t]; [contradiction Hne; reflexivity|].
    cbn [flat_map]. pose proof (utf8_bytes_nonempty c) as NE.
    destruct (utf8_bytes c) as [|b0 r0]; [contradiction NE; reflexivity|].
    unfold len. cbn [app length]. lia. }
  assert (Li : (1 <= len (i :: r))%Z) by (unfold len; cbn [length]; lia).
  eexists. split; [exact S|]. cbn [decoded_text decoding_match sample_token_ids
                                   original_bytes compression].
  split; [exact R|]. split; [rewrite R; apply py_eqb_refl|].
  split; [exact E|]. split; [rewrite Et, Etb; reflexivity|].
  split; [reflexivity|]. split; [rewrite <- Etb; unfold len; lia|].
  split; [exact Lb|]. apply int_truediv_rounds; lia.
Qed.

Lemma X14_evaluate_corpus_witness :
  exists tk r,
    train 4 [[s_a; s_a]; [s_a; s_a; s_a; s_b]] = Ok tk
    /\ evaluate_sample tk [s_a; s_a; s_a; s_b] = inl r
    /\ decoding_match r = true.
Proof.
  destruct (@X14_evaluate_corpus_text
              {| vocab_size := 4; vocab := []; merges := [] |}
              {| vocab_size := 4;
                 vocab := [(END_OF_WORD, 0); ([s_a], 1); ([s_b], 2); ([s_a; s_a], 3)]%Z;
                 merges := [([s_a], [s_a])] |}
              [[s_a; s_a]; [s_a; s_a; s_a; s_b]]
              [s_a; s_a; s_a; s_b])
    as [r [S [_ [M _]]]].
  - vm_compute; reflexivity.
  - constructor.
  - right; left; reflexivity.
  - discriminate.
  - reflexivity.
  - eexists. exists r. split; [vm_compute; reflexivity|]. split; [exact S | exact M].
Defined.

(** *** Training a tokenizer again *)

(** X15. [train] does not reset the merge table.  Training a tokenizer that
    has merges already builds the vocabulary of a fresh training on the
    same corpus and target, and puts the new pairs after the old ones, which
    keep the lowest ranks; on a tokenizer without merges it is the fresh
    training.  Training twice on one corpus gives the merge table twice. *)
Theorem X15_train_again_appends (tk0 tk : tokenizer) (texts : list str)
    (Hfresh : train (vocab_size tk0) texts = Ok tk) :
  train_again tk0 texts
  = Ok {| vocab_size := vocab_size tk0;
          vocab := vocab tk;
          merges := merges tk0 ++ merges tk |}
  /\ train_again {| vocab_size := vocab_size tk0; vocab := vocab tk0; merges := [] |} texts
     = Ok tk
  /\ (exists tk2, train_again tk texts = Ok tk2
                  /\ vocab tk2 = vocab tk
                  /\ merges tk2 = merges tk ++ merges tk).
Proof.
  destruct tk0 as [vs0 v0 m0]. cbn [vocab_size vocab merges] in *.
  destruct (train_counts _ _ Hfresh) as [wf C].
  pose proof (train_unfold vs0 _ C) as U. cbn zeta in U.
  rewrite U in Hfresh. inversion Hfresh as [Etk]. clear Hfresh U Etk.
  set (st := train_loop (Z.to_nat (vs0 - len (base_vocab wf))) (wf, base_vocab wf, [])).
  assert (A : forall v m,
             train_again {| vocab_size := vs0; vocab := v; merges := m |} texts
             = Ok {| vocab_size := vs0; vocab := st_vocab st;
                     merges := m ++ st_merges st |}).
  { intros v m. unfold train_again. rewrite C. cbn [bind vocab_size merges].
    rewrite (train_loop_merges _ wf (base_vocab wf) m). reflexivity. }
  cbn [vocab merges]. split; [apply A|]. split; [rewrite A; reflexivity|].
  eexists. split; [apply A|]. cbn [vocab merges]. split; reflexivity.
Qed.

Lemma X15_train_again_witness :
  exists tk tk2,
    train 4 [[s_a; s_a]; [s_a; s_a; s_a; s_b]] = Ok tk
    /\ train_again tk [[s_a; s_a]; [s_a; s_a; s_a; s_b]] = Ok tk2
    /\ merges tk2 = [([s_a], [s_a]); ([s_a], [s_a])].
Proof.
  destruct (@X15_train_again_appends
              {| vocab_size := 4;
                 vocab := [(END_OF_WORD, 0); ([s_a], 1); ([s_b], 2); ([s_a; s_a], 3)]%Z;
                 merges := [([s_a], [s_a])] |}
              {| vocab_size := 4;
                 vocab := [(END_OF_WORD, 0); ([s_a], 1); ([s_b], 2); ([s_a; s_a], 3)]%Z;
                 merges := [([s_a], [s_a])] |}
              [[s_a; s_a]; [s_a; s_a; s_a; s_b]]) as [A _].
  - vm_compute; reflexivity.
  - eexists. eexists. split; [vm_compute; reflexivity|]. split; [exact A | reflexivity].
Defined.

(** *** The only exception of [encode] and [train] *)

Lemma utf8_encode_char_Raise (c : N) (e : error) :
  utf8_encode_char c = Raise e -> e = UnicodeEncodeError.
Proof.
  unfold utf8_encode_char.
  destruct (c <? 0x80)%N; [discriminate|].
  destruct (c <? 0x800)%N; [discriminate|].
  destruct (c <? 0x10000)%N.
  - destruct (is_surrogate c); [|discriminate]. intros [= <-]. reflexivity.
  - destruct (c <? 0x110000)%N; [discriminate|]. intros [= <-]. reflexivity.
Qed.

Lemma utf8_encode_Raise (text : str) (e : error) :
  utf8_encode text = Raise e -> e = UnicodeEncodeError /\ ~ valid_text text.
Proof.
  intros E. split.
  - unfold utf8_encode in E.
    destruct (mapM utf8_encode_char text) as [chunks|e'] eqn:M; [discriminate E|].
    cbn [bind] in E. inversion E; subst e'. clear E.
    revert M. induction text as [|c r IH]; cbn [mapM]; [discriminate|].
    destruct (utf8_encode_char c) as [y|e'] eqn:Ec; cbn [bind].
    + destruct (mapM utf8_encode_char r) as [ys|e''] eqn:Er; cbn [bind];
        [discriminate|]. intros [= <-]. apply IH. reflexivity.
    + intros [= <-]. exact (utf8_encode_char_Raise _ Ec).
  - intros V. rewrite (utf8_encode_valid V) in E. discriminate E.
Qed.

Lemma utf8_encode_invalid (text : str) :
  ~ valid_text text -> utf8_encode text = Raise UnicodeEncodeError.
Proof.
  intros NV. destruct (utf8_encode text) as [bs|e] eqn:E.
  - contradiction NV. exact (proj1 (utf8_encode_inv _ E)).
  - f_equal. exact (proj1 (utf8_encode_Raise _ E)).
Qed.

Lemma encode_Raise (tk : tokenizer) (text : str) (e : error) :
  encode tk text = Raise e -> e = UnicodeEncodeError /\ ~ valid_text text.
Proof.
  intros E. destruct (utf8_encode text) as [bs|e'] eqn:Eb.
  - exfalso. destruct (utf8_encode_inv _ Eb) as [V _].
    rewrite (encode_valid tk V) in E.
    destruct (encode_words_total tk
                (findall_runs (map symbol_of (flat_map utf8_bytes text)))) as [ids Ei].
    rewrite Ei in E. discriminate E.
  - unfold encode in E. rewrite Eb in E. cbn [bind] in E. inversion E; subst e'.
    exact (utf8_encode_Raise _ Eb).
Qed.

Lemma count_words_valid (texts : list str) :
  Forall valid_text texts -> forall wf0, exists wf, count_words texts wf0 = Ok wf.
Proof.
  induction 1 as [|t r Vt _ IH]; intros wf0; cbn [count_words]; [eauto|].
  rewrite (utf8_encode_valid Vt). cbn [bind].
  rewrite (encode_bytes_Ok (utf8_bytes_text_lt_256 Vt)). cbn [bind]. apply IH.
Qed.

Lemma count_words_Raise (texts : list str) :
  forall wf0 e, count_words texts wf0 = Raise e ->
                e = UnicodeEncodeError /\ ~ Forall valid_text texts.
Proof.
  induction texts as [|t r IH]; intros wf0 e E; cbn [count_words] in E; [discriminate E|].
  destruct (utf8_encode t) as [bs|e'] eqn:Eb; cbn [bind] in E.
  - destruct (utf8_encode_inv _ Eb) as [V ->].
    rewrite (encode_bytes_Ok (utf8_bytes_text_lt_256 V)) in E. cbn [bind] in E.
    destruct (IH _ _ E) as [-> NV]. split; [reflexivity|].
    intros F. apply NV. exact (Forall_inv_tail F).
  - inversion E; subst e'. destruct (utf8_encode_Raise _ Eb) as [-> NV].
    split; [reflexivity|]. intros F. apply NV. exact (Forall_inv F).
Qed.

Lemma train_of_count (target : Z) (texts : list str) (wf : dict word Z) :
  count_words texts [] = Ok wf -> exists tk, train target texts = Ok tk.
Proof. intros C. rewrite (train_unfold target _ C). eauto. Qed.

(** X16. Errors.  [encode] and [train] raise nothing but the
    [UnicodeEncodeError] of [str.encode]: [encode] fails exactly on a text
    with a character that has no UTF-8 encoding (a lone surrogate), [train]
    exactly when one of the texts has one.  No byte misses in the byte
    encoder, and the merge loop of [_tokenize_word] ends. *)
Theorem X16_only_unicode_errors (tk : tokenizer) (target : Z) :
  (forall text e, encode tk text = Raise e -> e = UnicodeEncodeError /\ ~ valid_text text)
  /\ (forall text, ~ valid_text text -> encode tk text = Raise UnicodeEncodeError)
  /\ (forall text, valid_text text -> exists ids, encode tk text = Ok ids)
  /\ (forall texts e, train target texts = Raise e ->
                      e = UnicodeEncodeError /\ ~ Forall valid_text texts)
  /\ (forall texts, Forall valid_text texts -> exists tk', train target texts = Ok tk').
Proof.
  split; [exact (@encode_Raise tk)|]. split; [|split; [|split]].
  - intros text NV. unfold encode. rewrite (utf8_encode_invalid NV). reflexivity.
  - intros text V. rewrite (encode_valid tk V). apply encode_words_total.
  - intros texts e E. destruct (count_words texts []) as [wf|e'] eqn:C.
    + destruct (train_of_count target _ C) as [tk' T]. rewrite T in E. discriminate E.
    + unfold train in E. rewrite C in E. cbn [bind] in E. inversion E; subst e'.
      exact (count_words_Raise _ _ C).
  - intros texts F. destruct (count_words_valid F []) as [wf C].
    exact (train_of_count target _ C).
Qed.

Example ex_encode_surrogate :
  encode tk_ab [s_a; 0xD800%N] = Raise UnicodeEncodeError.
Proof. reflexivity. Qed.

(** *** The pairs of the merge table *)

Lemma keys_merge_vocab (p : merge_pair) (word_freqs : dict word Z) (k : word) :
  In k (PyDict.keys (merge_vocab p word_freqs)) ->
  exists w, In w (PyDict.keys word_freqs) /\ k = merge_word p w.
Proof.
  unfold merge_vocab. revert k.
  apply (@fold_left_inv _ _
           (fun d : dict word Z => forall k, In k (PyDict.keys d) ->
              exists w, In w (PyDict.keys word_freqs) /\ k = merge_word p w)).
  - intros k [].
  - intros d wf I Inv k Ik. rewrite PyDictFacts.keys_set in Ik.
    destruct (PyDict.mem d (merge_word p (fst wf))); [exact (Inv k Ik)|].
    apply in_app_or in Ik. destruct Ik as [Ik|[<-|[]]]; [exact (Inv k Ik)|].
    exists (fst wf). split; [|reflexivity]. unfold PyDict.keys. apply in_map. exact I.
Qed.

Lemma get_stats_key_adjacent (word_freqs : dict word Z) (p : merge_pair) (f : Z) :
  PyDict.get (get_stats word_freqs) p = Some f ->
  exists w, In w (PyDict.keys word_freqs) /\ In p (adjacent_pairs w).
Proof.
  destruct (get_stats_fold p word_freqs []) as [G _]. cbn zeta in G.
  unfold get_stats. rewrite G.
  destruct (existsb _ word_freqs) eqn:X; [|discriminate].
  intros _. apply existsb_exists in X. destruct X as [wf [I L]].
  exists (fst wf). split; [unfold PyDict.keys; apply in_map; exact I|].
  apply list_mem_In. exact L.
Qed.

Lemma get_stats_no_key (word_freqs : dict word Z) (p : merge_pair) :
  (forall w, In w (PyDict.keys word_freqs) -> ~ In p (adjacent_pairs w)) ->
  PyDict.get (get_stats word_freqs) p = None.
Proof.
  intros No. destruct (PyDict.get (get_stats word_freqs) p) as [f|] eqn:G; [|reflexivity].
  destruct (get_stats_key_adjacent _ _ G) as [w [Iw Ip]]. contradiction (No w Iw Ip).
Qed.

Lemma In_adjacent_pairs (w : word) (a b : token) :
  In (a, b) (adjacent_pairs w) -> In a w /\ In b w.
Proof.
  unfold adjacent_pairs. intros I. split; [exact (in_combine_l _ _ _ _ I)|].
  apply in_combine_r in I. destruct w as [|x r]; [destruct I | right; exact I].
Qed.

(** Every token of every word is a non-empty entry of the vocabulary, and
    so are the two parts of every pair of the merge table and their
    concatenation. *)
Definition tokens_known (st : train_state) : Prop :=
  (forall w t, In w (PyDict.keys (st_word_freqs st)) -> In t w ->
               t <> [] /\ In t (PyDict.keys (st_vocab st)))
  /\ Forall (fun p => fst p <> [] /\ snd p <> []
                      /\ In (fst p) (PyDict.keys (st_vocab st))
                      /\ In (snd p) (PyDict.keys (st_vocab st))
                      /\ In (fst p ++ snd p) (PyDict.keys (st_vocab st)))
            (st_merges st).

Lemma train_step_tokens_known (st : train_state) p f st' :
  train_step st = Some (p, f, st') -> tokens_known st -> tokens_known st'.
Proof.
  intros E [T M].
  destruct (train_step_Some_inv _ E) as [Em [Ew [_ [G _]]]].
  destruct (get_stats_key_adjacent _ _ G) as [w0 [Iw0 Ip]].
  destruct p as [a b]. destruct (In_adjacent_pairs _ _ _ Ip) as [Ia Ib].
  destruct (T _ _ Iw0 Ia) as [Na Ka]. destruct (T _ _ Iw0 Ib) as [Nb Kb].
  assert (Mono : forall t, In t (PyDict.keys (st_vocab st)) ->
                           In t (PyDict.keys (st_vocab st'))).
  { destruct st as [[wf v] m], st' as [[wf' v'] m'].
    apply train_step_spec in E. destruct E as [_ [_ [_ [_ ->]]]].
    unfold st_vocab. cbn [fst snd]. intros t It.
    destruct (PyDict.mem v (a ++ b)); [exact It|].
    rewrite PyDictFacts.keys_set. destruct (PyDict.mem v (a ++ b)); [exact It|].
    apply in_or_app. left. exact It. }
  assert (New : In (a ++ b) (PyDict.keys (st_vocab st'))).
  { destruct st as [[wf v] m], st' as [[wf' v'] m'].
    apply train_step_spec in E. destruct E as [_ [_ [_ [_ ->]]]].
    unfold st_vocab. cbn [fst snd].
    destruct (PyDict.mem v (a ++ b)) eqn:Mem; [apply mem_In_keys; exact Mem|].
    rewrite PyDictFacts.keys_set, Mem. apply in_or_app. right. left. reflexivity. }
  split.
  - intros w t Iw It. rewrite Ew in Iw.
    apply keys_merge_vocab in Iw. destruct Iw as [w1 [Iw1 ->]].
    apply merge_word_In in It. cbn [fst snd] in It. destruct It as [It| ->].
    + destruct (T _ _ Iw1 It) as [Nt Kt]. split; [exact Nt | exact (Mono _ Kt)].
    + split; [|exact New]. intros E0. apply app_eq_nil in E0. destruct E0 as [E0 _].
      exact (Na E0).
  - rewrite Em. apply Forall_app. split.
    + rewrite Forall_forall in *. intros q Iq.
      destruct (M q Iq) as [N1 [N2 [K1 [K2 K3]]]].
      repeat split; auto.
    + constructor; [|constructor]. cbn [fst snd]. repeat split; auto.
Qed.

Lemma tokens_known_start (texts : list str) (wf : dict word Z) :
  count_words texts [] = Ok wf -> tokens_known (wf, base_vocab wf, []).
Proof.
  intros C. unfold tokens_known, st_word_freqs, st_vocab, st_merges. cbn [fst snd].
  split; [|constructor]. intros w t Iw It. split.
  - apply (@count_words_keys _ _ _ C) in Iw. destruct Iw as [[]|[w' [_ ->]]].
    pose proof (word_tuple_nonempty w') as F. rewrite Forall_forall in F. exact (F t It).
  - rewrite (proj1 (base_vocab_spec wf)). apply sorted_set_In. apply in_concat.
    exists w. auto.
Qed.

Lemma train_tokens_known (target : Z) (texts : list str) (tk : tokenizer)
    (wf : dict word Z) :
  train target texts = Ok tk ->
  count_words texts [] = Ok wf ->
  tokens_known (train_loop (Z.to_nat (target - len (base_vocab wf)))
                           (wf, base_vocab wf, []))
  /\ vocab tk = st_vocab (train_loop (Z.to_nat (target - len (base_vocab wf)))
                                     (wf, base_vocab wf, []))
  /\ merges tk = st_merges (train_loop (Z.to_nat (target - len (base_vocab wf)))
                                       (wf, base_vocab wf, [])).
Proof.
  intros T C. rewrite (train_unfold target _ C) in T. inversion T; subst tk; clear T.
  cbn [vocab merges]. split; [|split; reflexivity].
  apply (@train_loop_inv _ (@train_step_tokens_known)).
  exact (tokens_known_start _ C).
Qed.

(** X17. The pairs a call of [train] appends to the merge table, on a
    fresh tokenizer or on one trained before, are closed in the vocabulary
    the call builds: both parts of every appended pair are entries of the
    vocabulary, and so is their concatenation; no part is the empty string.
    On a fresh tokenizer these pairs are the whole merge table. *)
Theorem X17_merge_table_in_vocabulary
    (tk0 tk : tokenizer) (texts : list str)
    (Htrain : train_again tk0 texts = Ok tk) :
  exists appended,
    merges tk = merges tk0 ++ appended
    /\ Forall (fun p => fst p <> [] /\ snd p <> []
                        /\ PyDict.mem (vocab tk) (fst p) = true
                        /\ PyDict.mem (vocab tk) (snd p) = true
                        /\ PyDict.mem (vocab tk) (fst p ++ snd p) = true)
              appended.
Proof.
  destruct (@train_again_inv _ _ _ Htrain) as [fresh [T [_ [Ev' Em']]]].
  destruct (train_counts _ _ T) as [wf C].
  destruct (@train_tokens_known _ _ _ _ T C) as [[_ M] [Ev Em]].
  exists (merges fresh). split; [exact Em'|]. rewrite Ev'.
  rewrite <- Ev, <- Em in M. rewrite Forall_forall in *. intros p Ip.
  destruct (M p Ip) as [N1 [N2 [K1 [K2 K3]]]].
  repeat split; auto; apply mem_In_keys; assumption.
Qed.

Lemma X17_merge_table_witness :
  exists tk1 tk2 appended,
    train 4 [[s_a; s_a]; [s_a; s_a; s_a; s_b]] = Ok tk1
    /\ train_again tk1 [[s_a; s_a]; [s_a; s_a; s_a; s_b]] = Ok tk2
    /\ merges tk2 = merges tk1 ++ appended
    /\ Forall (fun p => PyDict.mem (vocab tk2) (fst p ++ snd p) = true) appended.
Proof.
  destruct (@X17_merge_table_in_vocabulary
              {| vocab_size := 4;
                 vocab := [(END_OF_WORD, 0); ([s_a], 1); ([s_b], 2); ([s_a; s_a], 3)]%Z;
                 merges := [([s_a], [s_a])] |}
              {| vocab_size := 4;
                 vocab := [(END_OF_WORD, 0); ([s_a], 1); ([s_b], 2); ([s_a; s_a], 3)]%Z;
                 merges := [([s_a], [s_a]); ([s_a], [s_a])] |}
              [[s_a; s_a]; [s_a; s_a; s_a; s_b]] ltac:(vm_compute; reflexivity)) as [appended [Em F]].
  eexists. eexists. exists appended. split; [vm_compute; reflexivity|].
  split; [vm_compute; reflexivity|]. split; [exact Em|].
  rewrite Forall_forall in *. intros p Ip. exact (proj2 (proj2 (proj2 (proj2 (F p Ip))))).
Defined.

(** *** When the merge loop stops early *)

Lemma first_seen_nil {A} `{PyEq A} (seen l : list A) :
  first_seen seen l = [] -> forall x, In x l -> In x seen.
Proof.
  revert seen. induction l as [|y r IH]; intros seen E x I; [destruct I|].
  cbn [first_seen] in E. destruct (list_mem y seen) eqn:L; [|discriminate E].
  destruct I as [<-|I]; [apply list_mem_In; exact L | exact (IH _ E x I)].
Qed.

Lemma adjacent_pairs_nil (w : word) : adjacent_pairs w = [] <-> (length w <= 1)%nat.
Proof.
  destruct w as [|a [|b r]]; cbn [length]; unfold adjacent_pairs; cbn [tl combine];
    split; intros E; try reflexivity; try lia; discriminate E.
Qed.

Lemma get_stats_nil (word_freqs : dict word Z) :
  get_stats word_freqs = []
  <-> Forall (fun w => (length w <= 1)%nat) (PyDict.keys word_freqs).
Proof.
  destruct (get_stats_fold ([], []) word_freqs []) as [_ K]. cbn zeta in K.
  fold (get_stats word_freqs) in K. cbn [PyDict.keys map app] in K.
  split.
  - intros E. rewrite E in K. cbn [PyDict.keys map] in K. symmetry in K.
    rewrite Forall_forall. intros w Iw. apply adjacent_pairs_nil.
    destruct (adjacent_pairs w) as [|q qs] eqn:A; [reflexivity|]. exfalso.
    apply (first_seen_nil _ _ K q). apply in_flat_map.
    unfold PyDict.keys in Iw. apply in_map_iff in Iw. destruct Iw as [wf [<- I]].
    exists wf. split; [exact I|]. rewrite A. left. reflexivity.
  - intros F.
    assert (Z0 : flat_map (fun wf : word * Z => adjacent_pairs (fst wf)) word_freqs = []).
    { clear K. induction word_freqs as [|wf r IH]; [reflexivity|].
      cbn [PyDict.keys map] in F. inversion F as [|? ? L F']; subst.
      cbn [flat_map]. rewrite (proj2 (adjacent_pairs_nil _) L). apply IH. exact F'. }
    rewrite Z0 in K. cbn [first_seen] in K.
    destruct (get_stats word_freqs); [reflexivity | discriminate K].
Qed.

(** X18. The merge loop of [train] takes its [break] exactly when every
    word of the table has at most one token; as long as some word has two
    tokens it makes a merge, whatever the counts are. *)
Theorem X18_break_when_words_are_single_tokens (st : train_state) :
  (train_step st = None
   <-> Forall (fun w => (length w <= 1)%nat) (PyDict.keys (st_word_freqs st)))
  /\ ((exists w, In w (PyDict.keys (st_word_freqs st)) /\ (2 <= length w)%nat) ->
      exists p f st', train_step st = Some (p, f, st')).
Proof.
  assert (E : train_step st = None
              <-> Forall (fun w => (length w <= 1)%nat)
                         (PyDict.keys (st_word_freqs st))).
  { rewrite train_step_None. apply get_stats_nil. }
  split; [exact E|].
  intros [w [Iw L]]. destruct (train_step st) as [[[p f] st']|] eqn:S; [eauto|].
  exfalso. pose proof (proj1 E eq_refl) as F. rewrite Forall_forall in F.
  specialize (F w Iw). lia.
Qed.

(** X19. Stopping before the target.  If training ends with fewer merges
    than the target leaves room for, every word of the corpus has become one
    token: the word followed by the marker is an entry of the vocabulary. *)
Theorem X19_early_stop_words_in_vocabulary
    (target : Z) (texts : list str) (tk : tokenizer) (base : Z) (w : str)
    (Htrain : train target texts = Ok tk)
    (Hbase : base_alphabet_size texts = Ok base)
    (Hearly : (len (merges tk) < target - base)%Z)
    (Hword : corpus_word texts w) :
  PyDict.mem (vocab tk) (w ++ END_OF_WORD) = true.
Proof.
  destruct (train_counts _ _ Htrain) as [wf C].
  unfold base_alphabet_size in Hbase. rewrite C in Hbase. cbn [bind] in Hbase.
  inversion Hbase; subst base; clear Hbase.
  destruct (@train_tokens_known _ _ _ _ Htrain C) as [[T _] [Ev Em]].
  set (n := Z.to_nat (target - len (base_vocab wf))) in *.
  set (st0 := (wf, base_vocab wf, []) : train_state) in *.
  destruct (train_loop_log n st0) as [Lm [_ [_ [Stop _]]]].
  assert (S : get_stats (st_word_freqs (train_loop n st0)) = []).
  { apply Stop. rewrite Em, Lm in Hearly. unfold st0 at 1 in Hearly.
    unfold st_merges at 1 in Hearly. cbn [snd app] in Hearly.
    unfold len in Hearly. rewrite length_map in Hearly.
    assert (Hn : n = Z.to_nat (target - Z.of_nat (length (base_vocab wf))))
      by reflexivity.
    lia. }
  apply get_stats_nil in S.
  destruct (@train_loop_keeps_words texts wf (base_vocab wf) [] n C) as [Kc _].
  fold st0 in Kc.
  assert (Iw : In (w ++ END_OF_WORD) (map (@concat N) (PyDict.keys wf))).
  { apply in_map_iff. exists (word_tuple w). split; [apply concat_word_tuple|].
    apply (@count_words_keys _ _ _ C). right. exists w. auto. }
  rewrite <- Kc in Iw. apply in_map_iff in Iw. destruct Iw as [k [Ek Ik]].
  rewrite Forall_forall in S. specialize (S k Ik).
  destruct k as [|t [|t' r]]; [destruct w; discriminate Ek | | cbn [length] in S; lia].
  cbn [concat] in Ek. rewrite app_nil_r in Ek. subst t.
  rewrite Ev. apply mem_In_keys. exact (proj2 (T _ _ Ik (or_introl eq_refl))).
Qed.

Lemma X19_early_stop_witness :
  PyDict.mem [(END_OF_WORD, 0); ([s_a], 1); ([s_b], 2); ([s_a; s_b], 3);
              ([s_a; s_b] ++ END_OF_WORD, 4)]%Z
             ([s_a; s_b] ++ END_OF_WORD) = true.
Proof.
  apply (@X19_early_stop_words_in_vocabulary 10 [[s_a; s_b]]
           {| vocab_size := 10;
              vocab := [(END_OF_WORD, 0); ([s_a], 1); ([s_b], 2); ([s_a; s_b], 3);
                        ([s_a; s_b] ++ END_OF_WORD, 4)]%Z;
              merges := [([s_a], [s_b]); ([s_a; s_b], END_OF_WORD)] |}
           3%Z [s_a; s_b]).
  - vm_compute; reflexivity.
  - vm_compute; reflexivity.
  - cbn; lia.
  - exists [s_a; s_b], [s_a; s_b]. split; [left; reflexivity|].
    split; [reflexivity|]. split; [reflexivity | discriminate].
Defined.

(** *** One pass takes every occurrence of the pair *)

Lemma app_eq_self_l {A} (x y : list A) : x ++ y = x -> y = [].
Proof.
  intros E. apply (f_equal (@length A)) in E. rewrite length_app in E.
  destruct y; [reflexivity | cbn [length] in E; lia].
Qed.

Lemma app_eq_self_r {A} (x y : list A) : x ++ y = y -> x = [].
Proof.
  intros E. apply (f_equal (@length A)) in E. rewrite length_app in E.
  destruct x; [reflexivity | cbn [length] in E; lia].
Qed.

Lemma merge_word_head (p : merge_pair) (a : token) (r : word) (h : token) (t : word) :
  merge_word p (a :: r) = h :: t ->
  h = a \/ (h = fst p ++ snd p /\ a = fst p).
Proof.
  destruct r as [|b r'].
  - cbn [merge_word]. intros [= <- _]. left. reflexivity.
  - rewrite merge_word_cons2.
    destruct (py_eqb a (fst p) && py_eqb b (snd p)) eqn:C.
    + apply andb_true_iff in C. destruct C as [C _]. apply py_eqb_eq in C.
      intros [= <- _]. right. auto.
    + intros [= <- _]. left. reflexivity.
Qed.

Lemma merge_word_no_pair (p : merge_pair) (w : word) :
  Forall (fun t => t <> []) w -> ~ In p (adjacent_pairs (merge_word p w)).
Proof.
  induction w as [| a | a b r IH1 IH2] using list_pair_ind.
  - intros _ [].
  - intros _ [].
  - intros F. inversion F as [|? ? Na F1]; subst.
    inversion F1 as [|? ? Nb F2]; subst.
    rewrite merge_word_cons2.
    destruct (py_eqb a (fst p) && py_eqb b (snd p)) eqn:C.
    + apply andb_true_iff in C. destruct C as [Ca Cb].
      apply py_eqb_eq in Ca. apply py_eqb_eq in Cb.
      destruct (merge_word p r) as [|h t] eqn:M; [intros []|].
      rewrite adjacent_pairs_cons2. intros [E|I].
      * apply (f_equal fst) in E. cbn [fst] in E. apply app_eq_self_l in E.
        apply Nb. rewrite Cb. exact E.
      * apply (IH1 F2). exact I.
    + destruct (merge_word p (b :: r)) as [|h t] eqn:M; [intros []|].
      rewrite adjacent_pairs_cons2. intros [E|I].
      * destruct (merge_word_head _ _ _ M) as [->|[-> Eb]].
        -- rewrite <- E in C. cbn [fst snd] in C. rewrite !py_eqb_refl in C.
           discriminate C.
        -- apply (f_equal snd) in E. cbn [snd] in E. apply app_eq_self_r in E.
           apply Nb. rewrite Eb. exact E.
      * apply (IH2 F1). exact I.
Qed.

Lemma merge_vocab_drops_pair (p : merge_pair) (word_freqs : dict word Z) :
  (forall w t, In w (PyDict.keys word_freqs) -> In t w -> t <> []) ->
  PyDict.get (get_stats (merge_vocab p word_freqs)) p = None.
Proof.
  intros NE. apply get_stats_no_key. intros k Ik.
  apply keys_merge_vocab in Ik. destruct Ik as [w [Iw ->]].
  apply merge_word_no_pair. rewrite Forall_forall. intros t It. exact (NE w t Iw It).
Qed.

(** X20. One pass of [_merge_vocab] takes every occurrence of the pair:
    when no token is the empty string, the pair is no key of the next
    [_get_stats].  So in training no pair is chosen in two consecutive rounds
    of the merge loop. *)
Theorem X20_no_pair_twice_in_a_row
    (texts : list str) (word_freqs : dict word Z) (n : nat)
    (p q : merge_pair) (f g : Z) (st' st'' : train_state)
    (Hcount : count_words texts [] = Ok word_freqs)
    (Hfirst : train_step (train_loop n (word_freqs, base_vocab word_freqs, []))
              = Some (p, f, st'))
    (Hnext : train_step st' = Some (q, g, st'')) :
  PyDict.get (get_stats (st_word_freqs st')) p = None /\ q <> p.
Proof.
  pose proof (@train_loop_inv _ (@train_step_tokens_known) n _
                (tokens_known_start _ Hcount)) as [T _].
  destruct (train_step_Some_inv _ Hfirst) as [_ [Ew _]].
  destruct (train_step_Some_inv _ Hnext) as [_ [_ [_ [G _]]]].
  assert (D : PyDict.get (get_stats (st_word_freqs st')) p = None).
  { rewrite Ew. apply merge_vocab_drops_pair.
    intros w t Iw It. exact (proj1 (T w t Iw It)). }
  split; [exact D|]. intros ->. rewrite D in G. discriminate G.
Qed.

Lemma X20_no_pair_twice_witness :
  PyDict.get (get_stats [([[s_a; s_b]; END_OF_WORD], 1%Z)]) ([s_a], [s_b]) = None
  /\ ([s_a; s_b], END_OF_WORD) <> ([s_a], [s_b]).
Proof.
  refine (@X20_no_pair_twice_in_a_row [[s_a; s_b]]
            [(word_tuple [s_a; s_b], 1%Z)] 0
            ([s_a], [s_b]) ([s_a; s_b], END_OF_WORD) 1%Z 1%Z
            ([([[s_a; s_b]; END_OF_WORD], 1%Z)],
             [(END_OF_WORD, 0); ([s_a], 1); ([s_b], 2); ([s_a; s_b], 3)]%Z,
             [([s_a], [s_b])])
            ([([[s_a; s_b] ++ END_OF_WORD], 1%Z)],
             [(END_OF_WORD, 0); ([s_a], 1); ([s_b], 2); ([s_a; s_b], 3);
              ([s_a; s_b] ++ END_OF_WORD, 4)]%Z,
             [([s_a], [s_b]); ([s_a; s_b], END_OF_WORD)])
            _ _ _); vm_compute; reflexivity.
Defined.
